(** * rx2slices: slice boundaries and Octatrack/XML slice metadata

    A shallow embedding of [rx2slices.cpp]: the [OctatrackMetadata] class
    (constructor, [addSlice], [getBuffer], [write32BE], [write16BE]), the
    path helpers, the command line, the preview loop and the two metadata
    loops of [main].

    Conventions of the embedding.
    - [uint8_t], [uint16_t], [uint32_t] values are integers of [Z]; a
      conversion to [uint16_t] or [uint32_t] is written out as a reduction
      modulo [2^16], [2^32], and the bytes stored are masked with [0xFF]
      as in the source.
    - [int] values are integers of [Z]; signed overflow is undefined in C++
      and is not modelled.
    - [double] values are binary64 numbers: the [spec_float] of the
      Standard Library at precision 53 and maximal exponent 1024.  [*], [/]
      and [+] are [SFmul], [SFdiv] and [SFadd], each rounded to nearest,
      ties to even, as a compiler for x86-64 or ARM64 evaluates them;
      [(double)n] of an integer is [binary_normalize], which is exact below
      [2^53]; [floor] and [round] of <cmath> are exact.
    - The conversion of a [double] to an integer type truncates toward
      zero.  Where the truncated value is out of the target's range, or the
      [double] is not finite, the conversion is undefined in C++; the model
      then gives [INT_MIN] for [(int)], as the x86-64 conversion
      instruction does, and for [(uint32_t)] the value modulo [2^32], 0 for
      a [double] that is not finite.
    - [vector<uint8_t>] is a [list Z], [b[i] = v] is stdpp's [<[i:=v]> b]
      and [b[i]] is [b !!! i]; every index used by [getBuffer] is below 832,
      so the unchecked [operator[]] never leaves the vector. *)

From Stdlib Require Import ZArith QArith Qround Qpower Lqa List String Ascii Lia.
From Stdlib Require Import SpecFloat.
From stdpp Require Import base list.
Import ListNotations.

Local Open Scope Z_scope.

(** ** Integer conversions *)

Definition uint16_t_of_Z (z : Z) : Z := z mod 2 ^ 16.
Definition uint32_t_of_Z (z : Z) : Z := z mod 2 ^ 32.

Definition INT_MAX : Z := 2 ^ 31 - 1.
Definition INT_MIN : Z := - 2 ^ 31.

(** ** [double] *)

Definition double : Type := spec_float.

Definition prec : Z := 53.
Definition emax : Z := 1024.

(** [x * y], [x / y] and [x + y] on [double]. *)
Definition dmul : double -> double -> double := SFmul prec emax.
Definition ddiv : double -> double -> double := SFdiv prec emax.
Definition dadd : double -> double -> double := SFadd prec emax.

(** [(double)z] for an integer [z], and the [double] nearest to [m * 2^e]
    (the literals of the source: [24.0] is [double_of_Z 24], [0.5] is
    [double_lit 1 (-1)]). *)
Definition double_lit (m e : Z) : double := binary_normalize prec emax m e false.
Definition double_of_Z (z : Z) : double := double_lit z 0.

(** The real number a [double] stands for; 0 for an infinity or a NaN. *)
Definition valueQ (x : double) : Q :=
  match x with
  | S754_finite s m e =>
      let v := if e <? 0 then Zpos m # Z.to_pos (2 ^ (- e))
               else inject_Z (Zpos m * 2 ^ e) in
      if s then (- v)%Q else v
  | _ => 0%Q
  end.

Definition is_finite (x : double) : bool :=
  match x with
  | S754_zero _ | S754_finite _ _ _ => true
  | _ => false
  end.

(** A [double] that is a zero or finite, with the sign [s]. *)
Inductive zero_or_finite (s : bool) : double -> Prop :=
| zof_zero : zero_or_finite s (S754_zero s)
| zof_finite (m : positive) (e : Z) : zero_or_finite s (S754_finite s m e).

(** The finite [double] with mantissa [m] and exponent [e] is the integer
    [V]. *)
Definition represents (m : positive) (e V : Z) : Prop :=
  if e <? 0 then Zpos m = V * 2 ^ (- e) else V = Zpos m * 2 ^ e.

(** The integer part of a [double], toward zero; [None] for an infinity or
    a NaN. *)
Definition truncZ (x : double) : option Z :=
  match x with
  | S754_zero _ => Some 0
  | S754_finite s m e => Some (cond_Zopp s (Z.shiftl (Zpos m) e))
  | _ => None
  end.

(** [(uint32_t)x] and [(int)x] for a [double] [x]. *)
Definition uint32_t_of_double (x : double) : Z :=
  match truncZ x with
  | Some z => uint32_t_of_Z z
  | None => 0
  end.

Definition int_of_double (x : double) : Z :=
  match truncZ x with
  | Some z => if (INT_MIN <=? z) && (z <=? INT_MAX) then z else INT_MIN
  | None => INT_MIN
  end.

(** [floor] and [round] of <cmath>.  A [double] with a non-negative
    exponent is an integer already; otherwise the result is an integer
    below [2^53] in magnitude, which [double_of_Z] represents exactly.
    [round] rounds half-way cases away from zero.  A zero result keeps the
    sign of the argument. *)
Definition floor (x : double) : double :=
  match x with
  | S754_finite s m e =>
      if 0 <=? e then x
      else match Z.shiftl (cond_Zopp s (Zpos m)) e with
           | Z0 => S754_zero s
           | z => double_of_Z z
           end
  | _ => x
  end.

Definition round (x : double) : double :=
  match x with
  | S754_finite s m e =>
      if 0 <=? e then x
      else match Z.shiftl (Zpos m + 2 ^ (- e - 1)) e with
           | Z0 => S754_zero s
           | z => double_of_Z (cond_Zopp s z)
           end
  | _ => x
  end.

(** The nearest integer of a real number, half-way cases away from zero:
    the [round] of the specification. *)
Definition roundQ (x : Q) : Z :=
  if Qle_bool 0 x then Qfloor (x + (1 # 2)) else Qceiling (x - (1 # 2)).

Definition PREVIEW_LATENCY_COMPENSATION : Z := -64.

(** ** class OctatrackMetadata *)

Record Slice : Type := mkSlice { start : Z; end_ : Z }.

#[global] Instance Slice_inhabited : Inhabited Slice := populate (mkSlice 0 0).

Record OctatrackMetadata : Type := mkOctatrackMetadata {
  tempo_val : Z;
  trim_len : Z;
  trim_end : Z;
  slices : list Slice
}.

(** The constructor [OctatrackMetadata(bpm, sampleRate, totalFrames)]. *)
Definition OctatrackMetadata_new (bpm : double) (sampleRate totalFrames : Z)
  : OctatrackMetadata :=
  let tempo := uint32_t_of_double (dmul bpm (double_of_Z 24)) in
  let bars :=
    floor (dadd (ddiv (dmul bpm (double_of_Z totalFrames))
                      (dmul (dmul (double_of_Z sampleRate) (double_of_Z 60))
                            (double_of_Z 4)))
                (double_lit 1 (-1))) in
  let tlen := uint32_t_of_double (dmul bars (double_of_Z 25)) in
  let tend := uint32_t_of_Z totalFrames in
  {| tempo_val := tempo; trim_len := tlen; trim_end := tend; slices := [] |}.

(** [addSlice(start, end)]: [push_back] while fewer than 64 slices are held. *)
Definition addSlice (ot : OctatrackMetadata) (s e : Z) : OctatrackMetadata :=
  if (length (slices ot) <? 64)%nat
  then {| tempo_val := tempo_val ot; trim_len := trim_len ot;
          trim_end := trim_end ot;
          slices := slices ot ++ [mkSlice s e] |}
  else ot.

(** [write32BE(b, pos, val)] and [write16BE(b, pos, val)]. *)
Definition write32BE (b : list Z) (pos : nat) (val : Z) : list Z :=
  let b := <[pos := Z.land (Z.shiftr val 24) 0xFF]> b in
  let b := <[(pos + 1)%nat := Z.land (Z.shiftr val 16) 0xFF]> b in
  let b := <[(pos + 2)%nat := Z.land (Z.shiftr val 8) 0xFF]> b in
  <[(pos + 3)%nat := Z.land val 0xFF]> b.

Definition write16BE (b : list Z) (pos : nat) (val : Z) : list Z :=
  let b := <[pos := Z.land (Z.shiftr val 8) 0xFF]> b in
  <[(pos + 1)%nat := Z.land val 0xFF]> b.

Definition header : list Z :=
  [0x46; 0x4F; 0x52; 0x4D; 0x00; 0x00; 0x00; 0x00;
   0x44; 0x50; 0x53; 0x31; 0x53; 0x4D; 0x50; 0x41].

Definition unknown : list Z := [0x00; 0x00; 0x00; 0x00; 0x00; 0x02; 0x00].

(** [for (i = 0; i < n; ++i) buffer[off + i] = src[i]]. *)
Definition copyBytes (src : list Z) (off n : nat) (buffer : list Z) : list Z :=
  fold_left (fun b i => <[(off + i)%nat := src !!! i]> b) (seq 0 n) buffer.

(** One turn of the slice loop of [getBuffer]. *)
Definition writeSlot (sl : list Slice) (b : list Z) (i : nat) : list Z :=
  let offset := (58 + i * 12)%nat in
  if (i <? length sl)%nat then
    let b := write32BE b offset (start (sl !!! i)) in
    let b := write32BE b (offset + 4) (end_ (sl !!! i)) in
    write32BE b (offset + 8) 0xFFFFFFFF
  else b.

(** [for (i = 0; i < 64; ++i) ...]. *)
Definition writeSlots (sl : list Slice) (buffer : list Z) : list Z :=
  fold_left (writeSlot sl) (seq 0 64) buffer.

(** [for (i = 16; i <= 829; ++i) checksum += buffer[i]], on a [uint16_t]. *)
Definition checksumLoop (buffer : list Z) : Z :=
  fold_left (fun c i => uint16_t_of_Z (c + buffer !!! i)) (seq 16 814) 0.

(** The buffer of [getBuffer] before the checksum is stored. *)
Definition getBufferBody (ot : OctatrackMetadata) : list Z :=
  let buffer := replicate 832 0 in
  let buffer := copyBytes header 0 16 buffer in
  let buffer := copyBytes unknown 16 7 buffer in
  let buffer := write32BE buffer 23 (tempo_val ot) in
  let buffer := write32BE buffer 27 (trim_len ot) in
  let buffer := write32BE buffer 31 (trim_len ot) in
  let buffer := write32BE buffer 35 0 in
  let buffer := write32BE buffer 39 0 in
  let buffer := write16BE buffer 43 48 in
  let buffer := <[45%nat := 0xFF]> buffer in
  let buffer := write32BE buffer 46 0 in
  let buffer := write32BE buffer 50 (trim_end ot) in
  let buffer := write32BE buffer 54 0 in
  let buffer := writeSlots (slices ot) buffer in
  write32BE buffer 826 (uint32_t_of_Z (Z.of_nat (length (slices ot)))).

(** [getBuffer()]. *)
Definition getBuffer (ot : OctatrackMetadata) : list Z :=
  let buffer := getBufferBody ot in
  let checksum := checksumLoop buffer in
  write16BE buffer 830 checksum.

(** ** The metadata loops of [main]

    [REX.h] is not part of the sources; what the decoder delivers is a
    parameter of the loops: [info.fPPQLength] (the musical length),
    [info.fSampleRate], and the ordered sequence [pos] of the musical
    positions [fPPQPos] of the slice markers.  [REXGetSliceInfo(handle, i,
    ...)] is the lookup [pos !!! i], and [info.fSliceCount] is the length
    of [pos]. *)

(** [(int)round(((double)fPPQPos / info.fPPQLength) * lengthFrames)]; the
    two [int] operands are converted to [double] by the usual arithmetic
    conversions. *)
Definition framePos (fPPQLength lengthFrames fPPQPos : Z) : Z :=
  int_of_double
    (round (dmul (ddiv (double_of_Z fPPQPos) (double_of_Z fPPQLength))
                 (double_of_Z lengthFrames))).

(** The values before [max(0, ...)] clamps them. *)
Definition rawStart (fPPQLength lengthFrames : Z) (pos : list Z) (i : nat) : Z :=
  framePos fPPQLength lengthFrames (pos !!! i) + PREVIEW_LATENCY_COMPENSATION.

Definition rawEnd (fPPQLength lengthFrames : Z) (pos : list Z) (i : nat) : Z :=
  framePos fPPQLength lengthFrames (pos !!! (i + 1)%nat)
  + PREVIEW_LATENCY_COMPENSATION - 1.

(** [int start] and [int end] of turn [i] of the loop. *)
Definition sliceStart (fPPQLength lengthFrames : Z) (pos : list Z) (i : nat) : Z :=
  Z.max 0 (rawStart fPPQLength lengthFrames pos i).

Definition sliceEnd (fPPQLength lengthFrames : Z) (pos : list Z) (i : nat) : Z :=
  if Z.of_nat i <? Z.of_nat (length pos) - 1
  then Z.max 0 (rawEnd fPPQLength lengthFrames pos i)
  else lengthFrames - 1.

(** The boundaries the loop computes, in the order of the markers. *)
Definition sliceBoundaries (fPPQLength lengthFrames : Z) (pos : list Z)
  : list (Z * Z) :=
  map (fun i => (sliceStart fPPQLength lengthFrames pos i,
                 sliceEnd fPPQLength lengthFrames pos i))
      (seq 0 (length pos)).

(** The slice that [ot.addSlice((uint32_t)start, (uint32_t)end)] stores. *)
Definition toSlice (b : Z * Z) : Slice :=
  mkSlice (uint32_t_of_Z (fst b)) (uint32_t_of_Z (snd b)).

(** [ot.addSlice((uint32_t)start, (uint32_t)end)] for each boundary. *)
Definition addBoundaries (ot : OctatrackMetadata) (bs : list (Z * Z))
  : OctatrackMetadata :=
  fold_left (fun ot b => addSlice ot (uint32_t_of_Z (fst b)) (uint32_t_of_Z (snd b)))
            bs ot.

(** The binary encoder: constructor, one [addSlice] per boundary, [getBuffer]. *)
Definition encodeOT (bpm : double) (sampleRate totalFrames : Z) (bs : list (Z * Z))
  : list Z :=
  getBuffer (addBoundaries (OctatrackMetadata_new bpm sampleRate totalFrames) bs).

(** The [useOcta] branch of [main]: the loop over the slices, which computes
    [start] and [end] and calls [addSlice] in the same turn, and the buffer
    written to the [.ot] file. *)
Definition octaLoop (fPPQLength lengthFrames : Z) (pos : list Z)
    (ot : OctatrackMetadata) : OctatrackMetadata :=
  fold_left
    (fun ot i =>
       let start := sliceStart fPPQLength lengthFrames pos i in
       let end_ := sliceEnd fPPQLength lengthFrames pos i in
       addSlice ot (uint32_t_of_Z start) (uint32_t_of_Z end_))
    (seq 0 (length pos)) ot.

Definition exportOT (bpm : double) (fSampleRate fPPQLength lengthFrames : Z)
    (pos : list Z) : list Z :=
  getBuffer (octaLoop fPPQLength lengthFrames pos
               (OctatrackMetadata_new bpm fSampleRate lengthFrames)).

(** ** The XML branch of [main]

    The stream [xml] is the list of the characters written to it, and
    [xml << s] appends the characters of [s]. *)

Definition chars (s : string) : list ascii := list_ascii_of_string s.

Definition dquote : ascii := ascii_of_nat 34.
Definition newline : ascii := ascii_of_nat 10.

(** Formatting of a [double] by [<< fixed << setprecision(6)], as the C++
    standard library defines it (the formatting code is the library's, not
    this program's): the exact value of the [double] is rounded to the
    nearest multiple of [10^-6], the nearest even one at a tie, and written
    as a sign if the sign bit is set, the integer part in decimal without
    leading zeros, a point, and six fractional digits. *)
Definition roundHalfEven (x : Q) : Z :=
  let n := Qfloor x in
  match (x - inject_Z n ?= 1 # 2)%Q with
  | Lt => n
  | Gt => n + 1
  | Eq => if Z.even n then n else n + 1
  end.

Definition digitChar (d : Z) : ascii := ascii_of_nat (48 + Z.to_nat d).

(** The [k] low decimal digits of [n], the most significant first. *)
Fixpoint fixedDigits (k : nat) (n : Z) : list ascii :=
  match k with
  | O => []
  | S k' => fixedDigits k' (n / 10) ++ [digitChar (n mod 10)]
  end.

(** The decimal digits of [n >= 0] without leading zeros; [fuel] turns
    print a number below [2 ^ (fuel + 1)] in full. *)
Fixpoint decimalFuel (fuel : nat) (n : Z) : list ascii :=
  match fuel with
  | O => [digitChar (n mod 10)]
  | S f =>
      if n <? 10 then [digitChar (n mod 10)]
      else decimalFuel f (n / 10) ++ [digitChar (n mod 10)]
  end.

Definition decimal (n : Z) : list ascii :=
  decimalFuel (Z.to_nat (Z.log2 n)) n.

Definition signChars (s : bool) : list ascii := if s then chars "-" else [].

Definition formatFixed6 (x : double) : list ascii :=
  match x with
  | S754_nan => chars "nan"
  | S754_infinity s => signChars s ++ chars "inf"
  | S754_zero s | S754_finite s _ _ =>
      let n := roundHalfEven (valueQ (SFabs x) * 1000000) in
      signChars s ++ decimal (n / 1000000) ++ chars "."
      ++ fixedDigits 6 (n mod 1000000)
  end.

(** One slice element: the text before the value, the value
    [(double)start/info.fSampleRate] in fixed notation with precision 6,
    and the text after it. *)
Definition sliceElement (fSampleRate start : Z) : list ascii :=
  chars "       <slice start=" ++ [dquote]
  ++ formatFixed6 (ddiv (double_of_Z start) (double_of_Z fSampleRate))
  ++ [dquote] ++ chars " />" ++ [newline].

Definition xmlProlog : list ascii :=
  chars "<?xml version=" ++ [dquote] ++ chars "1.0" ++ [dquote]
  ++ chars " encoding=" ++ [dquote] ++ chars "UTF-8" ++ [dquote]
  ++ chars " standalone=" ++ [dquote] ++ chars "yes" ++ [dquote]
  ++ chars "?>" ++ [newline].

Definition xmlOpen (baseName : string) : list ascii :=
  chars "<audio filename=" ++ [dquote] ++ chars baseName ++ chars ".wav"
  ++ [dquote] ++ chars ">" ++ [newline].

Definition xmlClose : list ascii := chars "</audio>" ++ [newline].

(** The [else] branch of [main]: the document written to the [.slices] file. *)
Definition exportXML (baseName : string) (fSampleRate fPPQLength lengthFrames : Z)
    (pos : list Z) : list ascii :=
  xmlProlog ++ xmlOpen baseName
  ++ concat (map (fun i => sliceElement fSampleRate
                             (sliceStart fPPQLength lengthFrames pos i))
                 (seq 0 (length pos)))
  ++ xmlClose.

(** ** Reading the document back *)

Definition isDigit (c : ascii) : Prop := (48 <= nat_of_ascii c <= 57)%nat.

(** The number a string of decimal digits denotes. *)
Definition digitsValue (l : list ascii) : Z :=
  fold_left (fun acc c => acc * 10 + (Z.of_nat (nat_of_ascii c) - 48)) l 0.

(** [p] occurs in [l] as a contiguous run of characters. *)
Definition occursIn (p l : list ascii) : Prop :=
  exists l1 l2, l = l1 ++ p ++ l2.

(** ** Reading the buffer back *)

(** The big-endian value held by the bytes [pos .. pos+3], resp. [pos], [pos+1]. *)
Definition read32BE (b : list Z) (pos : nat) : Z :=
  b !!! pos * 2 ^ 24 + b !!! (pos + 1)%nat * 2 ^ 16
  + b !!! (pos + 2)%nat * 2 ^ 8 + b !!! (pos + 3)%nat.

Definition read16BE (b : list Z) (pos : nat) : Z :=
  b !!! pos * 2 ^ 8 + b !!! (pos + 1)%nat.

(** The plain sum of a list of bytes. *)
Definition sumZ (l : list Z) : Z := fold_right Z.add 0 l.

(** A byte is an integer of [0 .. 255]. *)
Definition is_byte (x : Z) : Prop := 0 <= x < 256.

(** ** Reading an object back from a buffer

    The reader of the layout [getBuffer] writes: the three fields, the
    slice count, and that many slots of the slice table. *)

Definition is_uint32 (z : Z) : Prop := 0 <= z < 2 ^ 32.

Definition readSlice (b : list Z) (i : nat) : Slice :=
  mkSlice (read32BE b (58 + i * 12)) (read32BE b (58 + i * 12 + 4)).

Definition decodeOT (b : list Z) : OctatrackMetadata :=
  {| tempo_val := read32BE b 23;
     trim_len := read32BE b 27;
     trim_end := read32BE b 50;
     slices := map (readSlice b) (seq 0 (Z.to_nat (read32BE b 826))) |}.

(** The states the class can be in: every field a [uint32_t], at most 64
    slices. *)
Definition wellFormed (ot : OctatrackMetadata) : Prop :=
  is_uint32 (tempo_val ot) /\ is_uint32 (trim_len ot) /\ is_uint32 (trim_end ot)
  /\ (length (slices ot) <= 64)%nat
  /\ Forall (fun s => is_uint32 (start s) /\ is_uint32 (end_ s)) (slices ot).

(** ** The rendering part of [main] *)

(** [double bpm = (double)info.fTempo / 1000.0]. *)
Definition bpmOf (fTempo : Z) : double :=
  ddiv (double_of_Z fTempo) (double_of_Z 1000).

(** [double exactLen = (double)info.fSampleRate * 1000.0
      * (double)info.fPPQLength / ((double)info.fTempo * 256.0)]. *)
Definition exactLen (fSampleRate fTempo fPPQLength : Z) : double :=
  ddiv (dmul (dmul (double_of_Z fSampleRate) (double_of_Z 1000))
             (double_of_Z fPPQLength))
       (dmul (double_of_Z fTempo) (double_of_Z 256)).

(** [int lengthFrames = (int)round(exactLen)]. *)
Definition lengthFramesOf (fSampleRate fTempo fPPQLength : Z) : Z :=
  int_of_double (round (exactLen fSampleRate fTempo fPPQLength)).

(** The preview loop
    [while (framesRendered < lengthFrames) { todo = min(64, lengthFrames -
    framesRendered); REXRenderPreviewBatch(handle, todo, batch);
    framesRendered += todo; }]: the calls it makes, each with the offset
    [framesRendered] of its batch in the render buffers and its [todo].
    One unit of [fuel] is spent per turn; [None] is a loop still running
    when the fuel is gone. *)
Fixpoint renderLoop (fuel : nat) (lengthFrames framesRendered : Z)
  : option (list (Z * Z)) :=
  if framesRendered <? lengthFrames then
    match fuel with
    | O => None
    | S fuel' =>
        let todo := Z.min 64 (lengthFrames - framesRendered) in
        match renderLoop fuel' lengthFrames (framesRendered + todo) with
        | Some calls => Some ((framesRendered, todo) :: calls)
        | None => None
        end
    end
  else Some [].

(** The loop as [main] runs it, from [framesRendered = 0]. *)
Definition renderCalls (lengthFrames : Z) : option (list (Z * Z)) :=
  renderLoop (Z.to_nat lengthFrames) lengthFrames 0.

(** [framesRendered] when the loop is left. *)
Definition framesRenderedAfter (framesRendered : Z) (calls : list (Z * Z)) : Z :=
  fold_left (fun f c => f + snd c) calls framesRendered.

(** ** The command line *)

(** [arg == s] on [std::string]. *)
Definition stringEq (a b : list ascii) : bool :=
  if List.list_eq_dec ascii_dec a b then true else false.

(** The loop [for (i = 1; i < argc; ++i)] over the arguments. *)
Definition parseArgs (argv : list (list ascii)) : bool * list ascii :=
  fold_left
    (fun st arg =>
       if stringEq arg (chars "-octa") then (true, snd st) else (fst st, arg))
    (drop 1 argv) (false, []).

(** How [main] starts: [return 1] after the usage line or after
    [Error: No input file specified.], or the run with the flag and the
    path. *)
Inductive MainStart : Type :=
| ExitUsage (code : Z)
| ExitNoInput (code : Z)
| Run (useOcta : bool) (rx2Path : list ascii).

Definition mainStart (argv : list (list ascii)) : MainStart :=
  if (length argv <? 2)%nat then ExitUsage 1
  else
    let (useOcta, rx2Path) := parseArgs argv in
    match rx2Path with
    | [] => ExitNoInput 1
    | _ => Run useOcta rx2Path
    end.

(** ** Path helpers *)

Definition slash : ascii := ascii_of_nat 47.
Definition backslash : ascii := ascii_of_nat 92.
Definition dot : ascii := ascii_of_nat 46.

Definition charIn (c : ascii) (set : list ascii) : bool :=
  existsb (Ascii.eqb c) set.

(** [s.find_last_of(set)]: the index of the last character of [s] that is in
    [set]; [None] is [string::npos]. *)
Fixpoint find_last_of (s set : list ascii) : option nat :=
  match s with
  | [] => None
  | c :: s' =>
      match find_last_of s' set with
      | Some i => Some (S i)
      | None => if charIn c set then Some 0%nat else None
      end
  end.

(** No character of [s] is in [set]. *)
Definition noneIn (set s : list ascii) : Prop :=
  Forall (fun c => charIn c set = false) s.

Record FilePaths : Type := mkFilePaths {
  baseName : list ascii;
  wavPath : list ascii;
  metaPath : list ascii
}.

(** The directory and the file of a path, as [DerivePaths] and [main] split
    it at the last slash or backslash. *)
Definition dirOf (path : list ascii) : list ascii :=
  match find_last_of path [backslash; slash] with
  | None => chars "."
  | Some last_slash => take last_slash path
  end.

Definition fileOf (path : list ascii) : list ascii :=
  match find_last_of path [backslash; slash] with
  | None => path
  | Some last_slash => drop (last_slash + 1) path
  end.

(** [DerivePaths(inputPath, useOcta)]: the paths, and the directories it
    passes to [mkdir]. *)
Definition DerivePaths (inputPath : list ascii) (useOcta : bool)
  : FilePaths * list (list ascii) :=
  let dir := dirOf inputPath in
  let fileWithExt := fileOf inputPath in
  let base :=
    match find_last_of fileWithExt [dot] with
    | None => fileWithExt
    | Some last_dot => take last_dot fileWithExt
    end in
  let wav := dir ++ chars "/" ++ base ++ chars ".wav" in
  if useOcta then
    (mkFilePaths base wav (dir ++ chars "/" ++ base ++ chars ".ot"), [])
  else
    let slicesDir := dir ++ chars "/.slices" in
    (mkFilePaths base wav (slicesDir ++ chars "/" ++ base ++ chars ".slices"),
     [slicesDir]).

(** [sdkPath] of [main], from [argv[0]]. *)
Definition sdkPath (exePath : list ascii) : list ascii := dirOf exePath.

(** ** Real numbers and their rounding

    The notions the rounding of binary64 is stated with. *)

(** [y] lies in [[m, m + 1)], at the place the location says. *)
Definition inbetween (m : Z) (l : location) (y : Q) : Prop :=
  match l with
  | loc_Exact => (y == inject_Z m)%Q
  | loc_Inexact Lt => (inject_Z m < y < inject_Z m + (1 # 2))%Q
  | loc_Inexact Eq => (y == inject_Z m + (1 # 2))%Q
  | loc_Inexact Gt => (inject_Z m + (1 # 2) < y < inject_Z m + 1)%Q
  end.

(** [x] lies in the binade [[2^k, 2^(k+1))]. *)
Definition binade (x : Q) (k : Z) : Prop := (2 ^ k <= x < 2 ^ (k + 1))%Q.

(** [x] rounded to the nearest multiple of [2^g], ties to even. *)
Definition RN (x : Q) (g : Z) : Q :=
  (inject_Z (roundHalfEven (x / 2 ^ g)) * 2 ^ g)%Q.

(** The binary64 number nearest to [x], a number of the binade [k]. *)
Definition fl (x : Q) (k : Z) : Q := RN x (Z.max (k - 52) (-1074)).

(** [0.0] or a [double] of [[2^-53, 1]]. *)
Definition unit_fraction (a : double) : Prop :=
  a = S754_zero false
  \/ exists m e, a = S754_finite false m e /\ (2 ^ (-53) <= valueQ a <= 1)%Q.

(** A positive finite [double] that is the integer [V]. *)
Definition integral (x : double) (V : Z) : Prop :=
  exists m e, x = S754_finite false m e /\ represents m e V.

(** A positive finite [double]. *)
Definition finite_pos (x : double) : Prop := exists m e, x = S754_finite false m e.

(** A positive finite [double] far from the ends of the exponent range. *)
Definition moderate (x : double) : Prop :=
  finite_pos x /\ (2 ^ (-100) <= valueQ x <= 2 ^ 100)%Q.

(** [v] is [X] up to the relative error [2^-53] of one rounding. *)
Definition near (v X : Q) : Prop :=
  (X - X * (1 # 9007199254740992) <= v <= X + X * (1 # 9007199254740992))%Q.

(** * Properties *)

(** The scenario of the specification: 120 bpm, 44100 Hz, 88200 frames and
    markers at 0, 1/2 and 1 of the musical length (here 0, 512 and 1024 of
    1024 ticks). *)
Example scenario_binary :
  let buf := exportOT (double_of_Z 120) 44100 1024 88200 [0; 512; 1024] in
  sliceBoundaries 1024 88200 [0; 512; 1024]
  = [(0, 44035); (44036, 88135); (88136, 88199)]
  /\ rawStart 1024 88200 [0; 512; 1024] 0 = -64
  /\ length buf = 832%nat
  /\ read32BE buf 23 = 2880
  /\ read32BE buf 27 = 25 /\ read32BE buf 31 = 25
  /\ read32BE buf 50 = 88200
  /\ read32BE buf 826 = 3.
Proof. vm_compute. repeat split. Qed.

Example getBuffer_demo :
  let ot := addSlice (OctatrackMetadata_new (double_of_Z 120) 44100 88200) 0 44035 in
  (tempo_val ot, trim_len ot, trim_end ot) = (2880, 25, 88200)
  /\ length (getBuffer ot) = 832%nat
  /\ take 12 (drop 58 (getBuffer ot)) = [0; 0; 0; 0; 0; 0; 172; 3; 255; 255; 255; 255]
  /\ drop 826 (getBuffer ot) = [0; 0; 0; 1; 7; 59].
Proof. vm_compute. repeat split. Qed.

(** The numbers [main] derives for 120 bpm ([fTempo] 120000), 44100 Hz and
    a musical length of 61440 ticks.  The marker at tick 2816 is at frame
    4042.5 on the real numbers; the binary64 product is just below it, and
    the frame is 4042. *)
Example scenario_render :
  bpmOf 120000 = double_of_Z 120
  /\ lengthFramesOf 44100 120000 61440 = 88200
  /\ (inject_Z 2816 / inject_Z 61440 * inject_Z 88200 == 8085 # 2)%Q
  /\ framePos 61440 88200 2816 = 4042
  /\ sliceBoundaries 61440 88200 [0; 2816; 61440]
     = [(0, 3977); (3978, 88135); (88136, 88199)].
Proof. vm_compute. repeat split. Qed.

(** ** The object the constructor builds *)

Lemma tempo_val_new bpm sampleRate totalFrames :
  tempo_val (OctatrackMetadata_new bpm sampleRate totalFrames)
  = uint32_t_of_double (dmul bpm (double_of_Z 24)).
Proof. reflexivity. Qed.

Lemma trim_len_new bpm sampleRate totalFrames :
  trim_len (OctatrackMetadata_new bpm sampleRate totalFrames)
  = uint32_t_of_double
      (dmul (floor (dadd (ddiv (dmul bpm (double_of_Z totalFrames))
                               (dmul (dmul (double_of_Z sampleRate) (double_of_Z 60))
                                     (double_of_Z 4)))
                         (double_lit 1 (-1))))
            (double_of_Z 25)).
Proof. reflexivity. Qed.

Lemma trim_end_new bpm sampleRate totalFrames :
  trim_end (OctatrackMetadata_new bpm sampleRate totalFrames)
  = uint32_t_of_Z totalFrames.
Proof. reflexivity. Qed.

Lemma slices_new bpm sampleRate totalFrames :
  slices (OctatrackMetadata_new bpm sampleRate totalFrames) = [].
Proof. reflexivity. Qed.

(** ** Lengths *)

Lemma length_write32BE b pos v : length (write32BE b pos v) = length b.
Proof. unfold write32BE. by rewrite !length_insert. Qed.

Lemma length_write16BE b pos v : length (write16BE b pos v) = length b.
Proof. unfold write16BE. by rewrite !length_insert. Qed.

Lemma length_fold_left {A} (f : list Z -> A -> list Z) (l : list A) :
  (forall b i, length (f b i) = length b) ->
  forall b, length (fold_left f l b) = length b.
Proof.
  intros Hf. induction l as [|i l IH]; intros b; simpl; [done|].
  by rewrite IH, Hf.
Qed.

Lemma length_copyBytes src off n b : length (copyBytes src off n b) = length b.
Proof.
  unfold copyBytes. apply length_fold_left. intros. apply length_insert.
Qed.

Lemma length_writeSlot sl b i : length (writeSlot sl b i) = length b.
Proof.
  unfold writeSlot. destruct (i <? length sl)%nat; [|done].
  by rewrite !length_write32BE.
Qed.

Lemma length_writeSlots sl b : length (writeSlots sl b) = length b.
Proof. unfold writeSlots. apply length_fold_left, length_writeSlot. Qed.

Lemma length_getBufferBody ot : length (getBufferBody ot) = 832%nat.
Proof.
  unfold getBufferBody.
  rewrite !length_write32BE, length_writeSlots, !length_write32BE,
    length_insert, length_write16BE, !length_write32BE, !length_copyBytes.
  apply length_replicate.
Qed.

Lemma length_getBuffer ot : length (getBuffer ot) = 832%nat.
Proof. unfold getBuffer. rewrite length_write16BE. apply length_getBufferBody. Qed.

(** ** Bytes that a write leaves alone *)

Lemma write32BE_lookup_ne b pos v k :
  (k < pos \/ pos + 4 <= k)%nat -> write32BE b pos v !!! k = b !!! k.
Proof.
  intros Hk. unfold write32BE.
  rewrite !list_lookup_total_insert_ne by lia. done.
Qed.

Lemma write16BE_lookup_ne b pos v k :
  (k < pos \/ pos + 2 <= k)%nat -> write16BE b pos v !!! k = b !!! k.
Proof.
  intros Hk. unfold write16BE.
  rewrite !list_lookup_total_insert_ne by lia. done.
Qed.

Lemma fold_left_lookup_frame {A} (f : list Z -> A -> list Z) (k : nat) (l : list A) :
  (forall b i, In i l -> f b i !!! k = b !!! k) ->
  forall b, fold_left f l b !!! k = b !!! k.
Proof.
  induction l as [|i l IH]; intros Hf b; simpl; [done|].
  rewrite IH by (intros; apply Hf; by right).
  apply Hf. by left.
Qed.

Lemma copyBytes_lookup_ne src off n b k :
  (k < off \/ off + n <= k)%nat -> copyBytes src off n b !!! k = b !!! k.
Proof.
  intros Hk. unfold copyBytes. apply fold_left_lookup_frame.
  intros b' i Hi%in_seq. apply list_lookup_total_insert_ne. lia.
Qed.

Lemma writeSlot_lookup_ne sl b i k :
  (i < length sl -> k < 58 + i * 12 \/ 58 + i * 12 + 12 <= k)%nat ->
  writeSlot sl b i !!! k = b !!! k.
Proof.
  intros Hk. unfold writeSlot.
  destruct (Nat.ltb_spec i (length sl)); [|done].
  rewrite !write32BE_lookup_ne by lia. done.
Qed.

(** The slice loop writes nothing outside the slots of the slices it holds. *)
Lemma writeSlots_lookup_ne sl b k :
  (k < 58 \/ 58 + 12 * Nat.min 64 (length sl) <= k)%nat ->
  writeSlots sl b !!! k = b !!! k.
Proof.
  intros Hk. unfold writeSlots. apply fold_left_lookup_frame.
  intros b' i Hi%in_seq. apply writeSlot_lookup_ne. lia.
Qed.

(** ** Writing and reading back *)

Lemma land_255_byte v : is_byte (Z.land v 0xFF).
Proof.
  unfold is_byte. change 0xFF with (Z.ones 8).
  rewrite Z.land_ones by lia. apply Z.mod_pos_bound. lia.
Qed.

Lemma be32_value v :
  Z.land (Z.shiftr v 24) 0xFF * 2 ^ 24 + Z.land (Z.shiftr v 16) 0xFF * 2 ^ 16
  + Z.land (Z.shiftr v 8) 0xFF * 2 ^ 8 + Z.land v 0xFF = v mod 2 ^ 32.
Proof.
  change 0xFF with (Z.ones 8).
  rewrite !Z.land_ones, !Z.shiftr_div_pow2 by lia.
  change (2 ^ 24) with 16777216. change (2 ^ 16) with 65536.
  change (2 ^ 8) with 256. change (2 ^ 32) with 4294967296.
  Z.div_mod_to_equations. lia.
Qed.

Lemma be16_value v :
  Z.land (Z.shiftr v 8) 0xFF * 2 ^ 8 + Z.land v 0xFF = v mod 2 ^ 16.
Proof.
  change 0xFF with (Z.ones 8).
  rewrite !Z.land_ones, !Z.shiftr_div_pow2 by lia.
  change (2 ^ 8) with 256. change (2 ^ 16) with 65536.
  Z.div_mod_to_equations. lia.
Qed.

Lemma read32BE_write32BE b pos v :
  (pos + 3 < length b)%nat -> read32BE (write32BE b pos v) pos = uint32_t_of_Z v.
Proof.
  intros Hlen. unfold read32BE, write32BE, uint32_t_of_Z.
  rewrite <- be32_value.
  rewrite (list_lookup_total_insert_eq _ (pos + 3)) by (rewrite !length_insert; lia).
  rewrite (list_lookup_total_insert_ne _ (pos + 3) (pos + 2)) by lia.
  rewrite (list_lookup_total_insert_eq _ (pos + 2)) by (rewrite !length_insert; lia).
  rewrite (list_lookup_total_insert_ne _ (pos + 3) (pos + 1)) by lia.
  rewrite (list_lookup_total_insert_ne _ (pos + 2) (pos + 1)) by lia.
  rewrite (list_lookup_total_insert_eq _ (pos + 1)) by (rewrite !length_insert; lia).
  rewrite (list_lookup_total_insert_ne _ (pos + 3) pos) by lia.
  rewrite (list_lookup_total_insert_ne _ (pos + 2) pos) by lia.
  rewrite (list_lookup_total_insert_ne _ (pos + 1) pos) by lia.
  rewrite (list_lookup_total_insert_eq _ pos) by lia.
  done.
Qed.

Lemma read16BE_write16BE b pos v :
  (pos + 1 < length b)%nat -> read16BE (write16BE b pos v) pos = uint16_t_of_Z v.
Proof.
  intros Hlen. unfold read16BE, write16BE, uint16_t_of_Z.
  rewrite <- be16_value.
  rewrite (list_lookup_total_insert_eq _ (pos + 1)) by (rewrite !length_insert; lia).
  rewrite (list_lookup_total_insert_ne _ (pos + 1) pos) by lia.
  rewrite (list_lookup_total_insert_eq _ pos) by lia.
  done.
Qed.

(** Two buffers that agree on [pos .. pos+3] hold the same 32-bit value there. *)
Lemma read32BE_ext b b' pos :
  (forall k, (pos <= k < pos + 4)%nat -> b' !!! k = b !!! k) ->
  read32BE b' pos = read32BE b pos.
Proof.
  intros H. unfold read32BE. rewrite !H by lia. done.
Qed.

Lemma read32BE_write32BE_ne b pos q v :
  (pos + 4 <= q \/ q + 4 <= pos)%nat ->
  read32BE (write32BE b q v) pos = read32BE b pos.
Proof.
  intros H. apply read32BE_ext. intros k Hk. apply write32BE_lookup_ne. lia.
Qed.

Lemma read32BE_write16BE_ne b pos q v :
  (pos + 4 <= q \/ q + 2 <= pos)%nat ->
  read32BE (write16BE b q v) pos = read32BE b pos.
Proof.
  intros H. apply read32BE_ext. intros k Hk. apply write16BE_lookup_ne. lia.
Qed.

Lemma read32BE_insert_ne b pos q v :
  (pos + 4 <= q \/ q < pos)%nat ->
  read32BE (<[q := v]> b) pos = read32BE b pos.
Proof.
  intros H. apply read32BE_ext. intros k Hk.
  apply list_lookup_total_insert_ne. lia.
Qed.

Lemma read32BE_writeSlots_ne sl b pos :
  (pos + 4 <= 58 \/ 58 + 12 * Nat.min 64 (length sl) <= pos)%nat ->
  read32BE (writeSlots sl b) pos = read32BE b pos.
Proof.
  intros H. apply read32BE_ext. intros k Hk. apply writeSlots_lookup_ne. lia.
Qed.

(** Rewriting a read through the writes that do not reach it. *)
Ltac skip_writes :=
  repeat first
    [ rewrite read32BE_write32BE_ne by lia
    | rewrite read32BE_write16BE_ne by lia
    | rewrite read32BE_insert_ne by lia
    | rewrite read32BE_writeSlots_ne by lia ].

Ltac solve_length :=
  repeat first
    [ rewrite length_write32BE | rewrite length_write16BE
    | rewrite length_writeSlots | rewrite length_insert
    | rewrite length_copyBytes | rewrite length_replicate ];
  lia.

(** The checksum is stored last and touches only the bytes 830 and 831. *)
Lemma getBuffer_lookup_body ot k :
  (k < 830)%nat -> getBuffer ot !!! k = getBufferBody ot !!! k.
Proof. intros Hk. unfold getBuffer. apply write16BE_lookup_ne. lia. Qed.

Lemma read32BE_getBuffer ot pos :
  (pos + 4 <= 830)%nat -> read32BE (getBuffer ot) pos = read32BE (getBufferBody ot) pos.
Proof.
  intros H. apply read32BE_ext. intros k Hk. apply getBuffer_lookup_body. lia.
Qed.

(** The fixed fields of the layout. *)
Lemma getBuffer_tempo ot :
  read32BE (getBuffer ot) 23 = uint32_t_of_Z (tempo_val ot).
Proof.
  rewrite read32BE_getBuffer by lia. unfold getBufferBody.
  skip_writes. apply read32BE_write32BE. solve_length.
Qed.

Lemma getBuffer_trim_len_27 ot :
  read32BE (getBuffer ot) 27 = uint32_t_of_Z (trim_len ot).
Proof.
  rewrite read32BE_getBuffer by lia. unfold getBufferBody.
  skip_writes. apply read32BE_write32BE. solve_length.
Qed.

Lemma getBuffer_trim_len_31 ot :
  read32BE (getBuffer ot) 31 = uint32_t_of_Z (trim_len ot).
Proof.
  rewrite read32BE_getBuffer by lia. unfold getBufferBody.
  skip_writes. apply read32BE_write32BE. solve_length.
Qed.

Lemma getBuffer_trim_end ot :
  read32BE (getBuffer ot) 50 = uint32_t_of_Z (trim_end ot).
Proof.
  rewrite read32BE_getBuffer by lia. unfold getBufferBody.
  skip_writes. apply read32BE_write32BE. solve_length.
Qed.

Lemma getBuffer_slice_count ot :
  read32BE (getBuffer ot) 826 = uint32_t_of_Z (Z.of_nat (length (slices ot))).
Proof.
  rewrite read32BE_getBuffer by lia. unfold getBufferBody.
  rewrite read32BE_write32BE by solve_length.
  unfold uint32_t_of_Z. apply Z.mod_mod. lia.
Qed.

(** ** Every element of the buffer is a byte *)

Lemma Forall_byte_write32BE b pos v :
  Forall is_byte b -> Forall is_byte (write32BE b pos v).
Proof.
  intros Hb. unfold write32BE.
  repeat (apply Forall_insert; [|apply land_255_byte]). done.
Qed.

Lemma Forall_byte_write16BE b pos v :
  Forall is_byte b -> Forall is_byte (write16BE b pos v).
Proof.
  intros Hb. unfold write16BE.
  repeat (apply Forall_insert; [|apply land_255_byte]). done.
Qed.

Lemma Forall_fold_left {A} (P : Z -> Prop) (f : list Z -> A -> list Z) (l : list A) :
  (forall b i, Forall P b -> Forall P (f b i)) ->
  forall b, Forall P b -> Forall P (fold_left f l b).
Proof.
  intros Hf. induction l as [|i l IH]; intros b Hb; simpl; [done|].
  apply IH, Hf, Hb.
Qed.

Lemma Forall_byte_copyBytes src off n b :
  (forall i, is_byte (src !!! i)) ->
  Forall is_byte b -> Forall is_byte (copyBytes src off n b).
Proof.
  intros Hsrc. unfold copyBytes. apply Forall_fold_left.
  intros b' i Hb'. by apply Forall_insert.
Qed.

Lemma Forall_byte_writeSlots sl b :
  Forall is_byte b -> Forall is_byte (writeSlots sl b).
Proof.
  unfold writeSlots. apply Forall_fold_left. intros b' i Hb'.
  unfold writeSlot. destruct (i <? length sl)%nat; [|done].
  by do 3 apply Forall_byte_write32BE.
Qed.

Lemma lookup_total_byte (src : list Z) i :
  Forall is_byte src -> is_byte (src !!! i).
Proof.
  intros Hsrc. destruct (decide (i < length src)%nat) as [Hi|Hi].
  - by apply Forall_lookup_total_1.
  - rewrite list_lookup_total_alt, lookup_ge_None_2 by lia.
    simpl. unfold is_byte. vm_compute. split; [discriminate|done].
Qed.

Lemma Forall_byte_getBuffer ot : Forall is_byte (getBuffer ot).
Proof.
  unfold getBuffer, getBufferBody.
  apply Forall_byte_write16BE.
  apply Forall_byte_write32BE, Forall_byte_writeSlots.
  do 3 apply Forall_byte_write32BE.
  apply Forall_insert; [|unfold is_byte; lia].
  apply Forall_byte_write16BE.
  do 5 apply Forall_byte_write32BE.
  apply Forall_byte_copyBytes.
  { intros i. apply lookup_total_byte. unfold unknown, is_byte.
    repeat constructor; lia. }
  apply Forall_byte_copyBytes.
  { intros i. apply lookup_total_byte. unfold header, is_byte.
    repeat constructor; lia. }
  apply Forall_replicate. unfold is_byte. lia.
Qed.

(** ** The checksum loop *)

Lemma checksum_fold (b : list Z) (l : list nat) (c : Z) :
  0 <= c < 2 ^ 16 ->
  fold_left (fun c i => uint16_t_of_Z (c + b !!! i)) l c
  = (c + sumZ (map (fun i => b !!! i) l)) mod 2 ^ 16.
Proof.
  revert c. induction l as [|i l IH]; intros c Hc; simpl.
  - rewrite Z.add_0_r, Z.mod_small; done.
  - rewrite IH by (apply Z.mod_pos_bound; lia).
    unfold uint16_t_of_Z. rewrite Zplus_mod_idemp_l. f_equal. lia.
Qed.

Lemma map_lookup_seq (b : list Z) (lo n : nat) :
  (lo + n <= length b)%nat ->
  map (fun i => b !!! i) (seq lo n) = take n (drop lo b).
Proof.
  revert lo. induction n as [|n IH]; intros lo Hlen; simpl.
  - by rewrite take_0.
  - rewrite (drop_S b (b !!! lo) lo) by (apply list_lookup_lookup_total_lt; lia).
    simpl. f_equal. apply IH. lia.
Qed.

Lemma checksumLoop_sum b :
  (830 <= length b)%nat ->
  checksumLoop b = sumZ (take 814 (drop 16 b)) mod 2 ^ 16.
Proof.
  intros Hlen. unfold checksumLoop.
  rewrite checksum_fold by lia. rewrite map_lookup_seq by lia. done.
Qed.

Lemma getBuffer_take_830 ot : take 830 (getBuffer ot) = take 830 (getBufferBody ot).
Proof.
  unfold getBuffer, write16BE. by rewrite !take_insert_ge by lia.
Qed.

Lemma take_drop_prefix (b : list Z) (lo n m : nat) :
  (lo + n <= m)%nat -> take n (drop lo (take m b)) = take n (drop lo b).
Proof.
  intros H. apply list_eq. intros i.
  destruct (decide (i < n)%nat) as [Hi|Hi].
  - rewrite !lookup_take_lt, !lookup_drop by lia. apply lookup_take_lt. lia.
  - by rewrite !lookup_take_ge by lia.
Qed.

Lemma getBuffer_checksum ot :
  read16BE (getBuffer ot) 830 = sumZ (take 814 (drop 16 (getBuffer ot))) mod 2 ^ 16.
Proof.
  rewrite <- (take_drop_prefix (getBuffer ot) 16 814 830) by lia.
  rewrite getBuffer_take_830, take_drop_prefix by lia.
  rewrite <- checksumLoop_sum by (rewrite length_getBufferBody; lia).
  unfold getBuffer.
  rewrite read16BE_write16BE by (rewrite length_getBufferBody; lia).
  rewrite checksumLoop_sum by (rewrite length_getBufferBody; lia).
  unfold uint16_t_of_Z. apply Z.mod_mod. lia.
Qed.

(** ** The slice table *)

Lemma seq_split_at (i n : nat) :
  (i < n)%nat -> seq 0 n = seq 0 i ++ i :: seq (S i) (n - S i).
Proof.
  intros Hi. replace n with (i + S (n - S i))%nat at 1 by lia.
  by rewrite seq_app.
Qed.

(** Inside slot [i] the loop leaves what its turn [i] wrote. *)
Lemma writeSlots_read_slot sl b i pos :
  (i < 64)%nat -> (58 + i * 12 <= pos)%nat -> (pos + 4 <= 58 + i * 12 + 12)%nat ->
  read32BE (writeSlots sl b) pos
  = read32BE (writeSlot sl (fold_left (writeSlot sl) (seq 0 i) b) i) pos.
Proof.
  intros Hi Hlo Hhi. unfold writeSlots.
  rewrite (seq_split_at i 64), fold_left_app by done. simpl fold_left.
  apply read32BE_ext. intros k Hk. apply fold_left_lookup_frame.
  intros b' j Hj%in_seq. apply writeSlot_lookup_ne. lia.
Qed.

Lemma writeSlots_slot sl b i :
  (i < 64)%nat -> (i < length sl)%nat -> length b = 832%nat ->
  read32BE (writeSlots sl b) (58 + i * 12) = uint32_t_of_Z (start (sl !!! i))
  /\ read32BE (writeSlots sl b) (58 + i * 12 + 4) = uint32_t_of_Z (end_ (sl !!! i))
  /\ read32BE (writeSlots sl b) (58 + i * 12 + 8) = 0xFFFFFFFF.
Proof.
  intros Hi Hsl Hb.
  assert (Hlen : length (fold_left (writeSlot sl) (seq 0 i) b) = 832%nat).
  { rewrite length_fold_left; [done|]. apply length_writeSlot. }
  rewrite !(writeSlots_read_slot sl b i) by lia.
  set (B := fold_left (writeSlot sl) (seq 0 i) b) in *.
  unfold writeSlot. destruct (Nat.ltb_spec i (length sl)); [|lia].
  repeat split.
  - skip_writes. apply read32BE_write32BE. lia.
  - skip_writes. apply read32BE_write32BE. rewrite length_write32BE. lia.
  - rewrite read32BE_write32BE by (rewrite !length_write32BE; lia). done.
Qed.

Lemma getBuffer_slot ot i :
  (i < 64)%nat -> (i < length (slices ot))%nat ->
  read32BE (getBuffer ot) (58 + i * 12) = uint32_t_of_Z (start (slices ot !!! i))
  /\ read32BE (getBuffer ot) (58 + i * 12 + 4) = uint32_t_of_Z (end_ (slices ot !!! i))
  /\ read32BE (getBuffer ot) (58 + i * 12 + 8) = 0xFFFFFFFF.
Proof.
  intros Hi Hsl.
  rewrite !read32BE_getBuffer by lia. unfold getBufferBody.
  rewrite !(read32BE_write32BE_ne _ _ 826) by lia.
  apply writeSlots_slot; [done|done|solve_length].
Qed.

(** Slots past the slices held keep the zeros of the fresh buffer. *)
Lemma getBuffer_unused_zero ot k :
  (58 + 12 * Nat.min 64 (length (slices ot)) <= k < 826)%nat ->
  getBuffer ot !!! k = 0.
Proof.
  intros Hk. rewrite getBuffer_lookup_body by lia. unfold getBufferBody.
  rewrite write32BE_lookup_ne, writeSlots_lookup_ne by lia.
  rewrite !write32BE_lookup_ne by lia.
  rewrite list_lookup_total_insert_ne by lia.
  rewrite write16BE_lookup_ne, !write32BE_lookup_ne, !copyBytes_lookup_ne by lia.
  apply lookup_total_replicate_2. lia.
Qed.

(** ** [addSlice] and the 64-slice cap *)

Lemma addSlice_fields ot s e :
  tempo_val (addSlice ot s e) = tempo_val ot
  /\ trim_len (addSlice ot s e) = trim_len ot
  /\ trim_end (addSlice ot s e) = trim_end ot.
Proof. unfold addSlice. by destruct (length (slices ot) <? 64)%nat. Qed.

Lemma addSlice_slices ot s e :
  (length (slices ot) <= 64)%nat ->
  slices (addSlice ot s e) = take 64 (slices ot ++ [mkSlice s e]).
Proof.
  intros Hlen. unfold addSlice.
  destruct (Nat.ltb_spec (length (slices ot)) 64); simpl.
  - rewrite take_ge; [done|]. rewrite length_app. simpl. lia.
  - rewrite take_app_le by lia. rewrite take_ge by lia. done.
Qed.

Lemma addBoundaries_fields bs : forall ot,
  tempo_val (addBoundaries ot bs) = tempo_val ot
  /\ trim_len (addBoundaries ot bs) = trim_len ot
  /\ trim_end (addBoundaries ot bs) = trim_end ot.
Proof.
  unfold addBoundaries.
  induction bs as [|b bs IH]; intros ot; simpl; [done|].
  destruct (IH (addSlice ot (uint32_t_of_Z (fst b)) (uint32_t_of_Z (snd b))))
    as (-> & -> & ->).
  apply addSlice_fields.
Qed.

Lemma addBoundaries_slices bs : forall ot,
  (length (slices ot) <= 64)%nat ->
  slices (addBoundaries ot bs) = take 64 (slices ot ++ map toSlice bs).
Proof.
  unfold addBoundaries.
  induction bs as [|b bs IH]; intros ot Hlen; simpl.
  - rewrite app_nil_r, take_ge by lia. done.
  - rewrite IH.
    + rewrite addSlice_slices by done. fold (toSlice b).
      destruct (Nat.ltb_spec (length (slices ot)) 64).
      * rewrite (take_ge (slices ot ++ [toSlice b]))
          by (rewrite length_app; simpl; lia).
        by rewrite <- app_assoc.
      * rewrite (take_app_le (slices ot) [toSlice b]) by lia.
        rewrite (take_ge (slices ot)) by lia.
        by rewrite !take_app_le by lia.
    + rewrite addSlice_slices by done. rewrite length_take. lia.
Qed.

Lemma addBoundaries_new_slices bpm sampleRate totalFrames bs :
  slices (addBoundaries (OctatrackMetadata_new bpm sampleRate totalFrames) bs)
  = map toSlice (take 64 bs).
Proof.
  rewrite addBoundaries_slices by (rewrite slices_new; simpl; lia).
  rewrite slices_new. simpl.
  symmetry. apply (fmap_take toSlice).
Qed.

Lemma OctatrackMetadata_eq (a b : OctatrackMetadata) :
  tempo_val a = tempo_val b -> trim_len a = trim_len b ->
  trim_end a = trim_end b -> slices a = slices b -> a = b.
Proof. destruct a, b. simpl. by intros -> -> -> ->. Qed.

(** Boundaries after the 64th leave no trace in the object. *)
Lemma addBoundaries_take_64 bpm sampleRate totalFrames bs :
  addBoundaries (OctatrackMetadata_new bpm sampleRate totalFrames) bs
  = addBoundaries (OctatrackMetadata_new bpm sampleRate totalFrames) (take 64 bs).
Proof.
  apply OctatrackMetadata_eq.
  - by rewrite !(proj1 (addBoundaries_fields _ _)).
  - by rewrite !(proj1 (proj2 (addBoundaries_fields _ _))).
  - by rewrite !(proj2 (proj2 (addBoundaries_fields _ _))).
  - rewrite !addBoundaries_new_slices. by rewrite take_take.
Qed.

Lemma length_sliceBoundaries fPPQLength lengthFrames pos :
  length (sliceBoundaries fPPQLength lengthFrames pos) = length pos.
Proof. unfold sliceBoundaries. by rewrite length_map, length_seq. Qed.

Lemma fold_left_map_fuse {A B C} (f : A -> C -> A) (g : B -> C) (l : list B) :
  forall a, fold_left f (map g l) a = fold_left (fun a x => f a (g x)) l a.
Proof. induction l as [|x l IH]; intros a; simpl; [done|apply IH]. Qed.

(** The loop of [main] adds the boundaries of [sliceBoundaries], in order. *)
Lemma exportOT_encodeOT bpm fSampleRate fPPQLength lengthFrames pos :
  exportOT bpm fSampleRate fPPQLength lengthFrames pos
  = encodeOT bpm fSampleRate lengthFrames
      (sliceBoundaries fPPQLength lengthFrames pos).
Proof.
  unfold exportOT, encodeOT, octaLoop, addBoundaries, sliceBoundaries.
  by rewrite fold_left_map_fuse.
Qed.

Lemma encodeOT_take_64 bpm sampleRate totalFrames bs :
  encodeOT bpm sampleRate totalFrames bs
  = encodeOT bpm sampleRate totalFrames (take 64 bs).
Proof. unfold encodeOT. by rewrite addBoundaries_take_64. Qed.

Lemma encodeOT_slot bpm sampleRate totalFrames bs i s e :
  (i < 64)%nat -> bs !! i = Some (s, e) ->
  let buf := encodeOT bpm sampleRate totalFrames bs in
  read32BE buf (58 + i * 12) = uint32_t_of_Z s
  /\ read32BE buf (58 + i * 12 + 4) = uint32_t_of_Z e
  /\ read32BE buf (58 + i * 12 + 8) = 0xFFFFFFFF.
Proof.
  intros Hi Hbs buf. subst buf. unfold encodeOT.
  set (ot := addBoundaries _ bs).
  assert (Hsl : slices ot !! i = Some (toSlice (s, e))).
  { unfold ot. rewrite addBoundaries_new_slices.
    change (map toSlice (take 64 bs)) with (toSlice <$> take 64 bs).
    rewrite list_lookup_fmap, lookup_take_lt, Hbs by done. done. }
  pose proof (lookup_lt_Some _ _ _ Hsl) as Hlt.
  destruct (getBuffer_slot ot i Hi Hlt) as (H1 & H2 & H3).
  rewrite (list_lookup_total_correct _ _ _ Hsl) in H1, H2.
  simpl in H1, H2. unfold uint32_t_of_Z in *.
  rewrite Z.mod_mod in H1, H2 by lia. done.
Qed.

(** ** The encoder's buffer *)

(** C2.  For every render configuration and boundary list, the 16-bit value
    stored big-endian at offset 830 of the produced buffer is the sum of the
    bytes at offsets 16 to 829, each an unsigned 8-bit value, reduced
    modulo 65536. *)
Theorem checksum_roundtrip (bpm : double) (sampleRate totalFrames : Z) (bs : list (Z * Z)) :
  let buf := encodeOT bpm sampleRate totalFrames bs in
  Forall is_byte buf
  /\ read16BE buf 830 = sumZ (take 814 (drop 16 buf)) mod 65536.
Proof.
  intros buf. split.
  - apply Forall_byte_getBuffer.
  - apply getBuffer_checksum.
Qed.

(** C3.  With more than 64 slice markers the buffer is the one the encoder
    produces for the first 64 boundaries alone: slot [i] of the slice table
    holds boundary [i] for every [i < 64], in input order, the later
    boundaries change nothing, and the slice count at offset 826 is 64.
    [addSlice] and [getBuffer] have no error result. *)
Theorem cap_64_slices (bpm : double) (sampleRate fPPQLength lengthFrames : Z) (pos : list Z) :
  (64 < length pos)%nat ->
  let bs := sliceBoundaries fPPQLength lengthFrames pos in
  let buf := exportOT bpm sampleRate fPPQLength lengthFrames pos in
  buf = encodeOT bpm sampleRate lengthFrames (take 64 bs)
  /\ read32BE buf 826 = 64
  /\ forall i s e, (i < 64)%nat -> bs !! i = Some (s, e) ->
       read32BE buf (58 + i * 12) = uint32_t_of_Z s
       /\ read32BE buf (58 + i * 12 + 4) = uint32_t_of_Z e
       /\ read32BE buf (58 + i * 12 + 8) = 0xFFFFFFFF.
Proof.
  intros Hlen bs buf. subst buf. rewrite exportOT_encodeOT. fold bs.
  split; [apply encodeOT_take_64|]. split.
  - unfold encodeOT. rewrite getBuffer_slice_count, addBoundaries_new_slices.
    rewrite length_map, length_take_le
      by (unfold bs; rewrite length_sliceBoundaries; lia).
    done.
  - intros i s e Hi Hbs. by apply encodeOT_slot.
Qed.

Lemma cap_64_slices_witness :
  (64 < length (replicate 65 512))%nat
  /\ read32BE (exportOT (double_of_Z 120) 44100 1024 256 (replicate 65 512)) 826 = 64.
Proof.
  split.
  - apply Nat.ltb_lt. reflexivity.
  - refine (proj1 (proj2 (cap_64_slices (double_of_Z 120) 44100 1024 256 (replicate 65 512) _))).
    apply Nat.ltb_lt. reflexivity.
Defined.

(** C7.  For every render configuration and boundary list, of any length,
    the buffer has exactly 832 bytes, and the slots of the slice table past
    the slices supplied (at most 64 are held) keep the zeros the buffer was
    created with. *)
Theorem fixed_size_832 (bpm : double) (sampleRate totalFrames : Z) (bs : list (Z * Z)) :
  let buf := encodeOT bpm sampleRate totalFrames bs in
  length buf = 832%nat
  /\ forall k, (58 + 12 * Nat.min 64 (length bs) <= k < 826)%nat -> buf !!! k = 0.
Proof.
  intros buf. subst buf. unfold encodeOT. split.
  - apply length_getBuffer.
  - intros k Hk. apply getBuffer_unused_zero.
    rewrite addBoundaries_new_slices, length_map, length_take. lia.
Qed.

(** C10.  [addSlice] on an object that holds 64 slices changes nothing: the
    object after the call is the object before it, with the same slices in
    the same order and the same [tempo_val], [trim_len] and [trim_end]. *)
Theorem addSlice_at_capacity (ot : OctatrackMetadata) (s e : Z) :
  length (slices ot) = 64%nat ->
  addSlice ot s e = ot
  /\ slices (addSlice ot s e) = slices ot
  /\ tempo_val (addSlice ot s e) = tempo_val ot
  /\ trim_len (addSlice ot s e) = trim_len ot
  /\ trim_end (addSlice ot s e) = trim_end ot.
Proof.
  intros Hlen. unfold addSlice. rewrite Hlen. simpl. done.
Qed.

Lemma addSlice_at_capacity_witness :
  let ot := mkOctatrackMetadata 2880 25 88200 (replicate 64 (mkSlice 0 63)) in
  length (slices ot) = 64%nat /\ addSlice ot 64 127 = ot.
Proof.
  intros ot. split.
  - reflexivity.
  - refine (proj1 (addSlice_at_capacity ot 64 127 _)). reflexivity.
Defined.

(** ** The slice boundaries *)

Lemma sliceBoundaries_lookup fPPQLength lengthFrames pos i :
  (i < length pos)%nat ->
  sliceBoundaries fPPQLength lengthFrames pos !! i
  = Some (sliceStart fPPQLength lengthFrames pos i,
          sliceEnd fPPQLength lengthFrames pos i).
Proof.
  intros Hi. unfold sliceBoundaries.
  change (map ?f ?l) with (f <$> l).
  rewrite list_lookup_fmap, lookup_seq_lt by done. done.
Qed.

Lemma sliceEnd_last fPPQLength lengthFrames pos i :
  S i = length pos -> sliceEnd fPPQLength lengthFrames pos i = lengthFrames - 1.
Proof.
  intros Hi. unfold sliceEnd.
  destruct (Z.ltb_spec (Z.of_nat i) (Z.of_nat (length pos) - 1)); [lia|done].
Qed.

Lemma sliceEnd_inner fPPQLength lengthFrames pos i :
  (i + 1 < length pos)%nat ->
  sliceEnd fPPQLength lengthFrames pos i
  = Z.max 0 (rawEnd fPPQLength lengthFrames pos i).
Proof.
  intros Hi. unfold sliceEnd.
  destruct (Z.ltb_spec (Z.of_nat i) (Z.of_nat (length pos) - 1)); [done|lia].
Qed.

(** The end of a slice is computed from the very position its successor's
    start is computed from. *)
Lemma rawEnd_rawStart fPPQLength lengthFrames pos i :
  rawEnd fPPQLength lengthFrames pos i + 1
  = rawStart fPPQLength lengthFrames pos (i + 1).
Proof. unfold rawEnd, rawStart. lia. Qed.

(** C4.  For every non-empty marker list the last boundary ends at frame
    [totalFrames - 1]; this holds for every [totalFrames], positive or not. *)
Theorem last_boundary_end (fPPQLength totalFrames : Z) (pos : list Z) :
  pos <> [] ->
  exists s, last (sliceBoundaries fPPQLength totalFrames pos) = Some (s, totalFrames - 1).
Proof.
  intros Hpos. exists (sliceStart fPPQLength totalFrames pos (pred (length pos))).
  assert (Hlen : (0 < length pos)%nat) by (destruct pos; [done|simpl; lia]).
  rewrite last_lookup, length_sliceBoundaries.
  rewrite sliceBoundaries_lookup by lia.
  rewrite sliceEnd_last by lia. done.
Qed.

Lemma last_boundary_end_witness :
  [0; 512; 1024] <> []
  /\ exists s, last (sliceBoundaries 1024 88200 [0; 512; 1024]) = Some (s, 88200 - 1).
Proof.
  split.
  - discriminate.
  - apply (last_boundary_end 1024 88200 [0; 512; 1024]). discriminate.
Defined.

(** C5.  For every marker list and every index [i] before the last, when
    neither the end of boundary [i] nor the start of boundary [i+1] was
    clamped to zero (both raw values are non-negative), the end of boundary
    [i] plus one is the start of boundary [i+1]. *)
Theorem contiguity (fPPQLength totalFrames : Z) (pos : list Z) (i : nat) :
  (i + 1 < length pos)%nat ->
  0 <= rawEnd fPPQLength totalFrames pos i ->
  0 <= rawStart fPPQLength totalFrames pos (i + 1) ->
  exists bi bj,
    sliceBoundaries fPPQLength totalFrames pos !! i = Some bi
    /\ sliceBoundaries fPPQLength totalFrames pos !! (i + 1)%nat = Some bj
    /\ snd bi + 1 = fst bj.
Proof.
  intros Hi Hend Hstart.
  eexists _, _. rewrite !sliceBoundaries_lookup by lia.
  split; [done|]. split; [done|]. simpl.
  rewrite sliceEnd_inner by done. unfold sliceStart.
  rewrite <- rawEnd_rawStart in *. lia.
Qed.

Lemma contiguity_witness :
  (0 + 1 < length [512; 768; 1024])%nat
  /\ 0 <= rawEnd 1024 88200 [512; 768; 1024] 0
  /\ 0 <= rawStart 1024 88200 [512; 768; 1024] (0 + 1)
  /\ exists bi bj,
       sliceBoundaries 1024 88200 [512; 768; 1024] !! 0%nat = Some bi
       /\ sliceBoundaries 1024 88200 [512; 768; 1024] !! (0 + 1)%nat = Some bj
       /\ snd bi + 1 = fst bj.
Proof.
  assert (H1 : (0 + 1 < length [512; 768; 1024])%nat)
    by (apply Nat.ltb_lt; reflexivity).
  assert (H2 : 0 <= rawEnd 1024 88200 [512; 768; 1024] 0)
    by (apply Z.leb_le; vm_compute; reflexivity).
  assert (H3 : 0 <= rawStart 1024 88200 [512; 768; 1024] (0 + 1))
    by (apply Z.leb_le; vm_compute; reflexivity).
  split; [exact H1|]. split; [exact H2|]. split; [exact H3|].
  exact (contiguity 1024 88200 [512; 768; 1024] 0 H1 H2 H3).
Defined.

(** C6, as claimed, fails: with markers at positions 512 and 513 of a
    musical length of 1024 and 256 frames, both markers round to frame 128,
    and the first boundary is [(64, 63)]. *)
Lemma start_le_end_counterexample :
  sliceBoundaries 1024 256 [512; 513] !! 0%nat = Some (64, 63)
  /\ ~ (forall b, In b (sliceBoundaries 1024 256 [512; 513]) ->
          0 <= fst b /\ fst b <= snd b).
Proof.
  assert (H0 : sliceBoundaries 1024 256 [512; 513] = [(64, 63); (64, 255)])
    by (vm_compute; reflexivity).
  rewrite H0. split; [reflexivity|].
  intros H. destruct (H (64, 63)) as [_ Hle].
  - left. reflexivity.
  - simpl in Hle. lia.
Qed.

(** C6, amended.  Every boundary has a non-negative start, and a
    non-negative end when [totalFrames] is positive.  For a boundary other
    than the last, the start is at most the end exactly when its marker
    rounds to a frame of at most 64 or the next marker rounds to a strictly
    later frame than its own.  For the last boundary, the start is at most
    the end exactly when [totalFrames] is positive and its marker rounds to
    a frame of at most [totalFrames + 63]. *)
Theorem boundary_bounds (fPPQLength totalFrames : Z) (pos : list Z) (i : nat) (s e : Z) :
  sliceBoundaries fPPQLength totalFrames pos !! i = Some (s, e) ->
  0 <= s
  /\ (0 < totalFrames -> 0 <= e)
  /\ ((i + 1 < length pos)%nat ->
      (s <= e <->
       framePos fPPQLength totalFrames (pos !!! i) <= 64
       \/ framePos fPPQLength totalFrames (pos !!! i)
          < framePos fPPQLength totalFrames (pos !!! (i + 1)%nat)))
  /\ ((i + 1 = length pos)%nat ->
      (s <= e <->
       0 < totalFrames
       /\ framePos fPPQLength totalFrames (pos !!! i) <= totalFrames + 63)).
Proof.
  intros Hb.
  assert (Hi : (i < length pos)%nat).
  { apply lookup_lt_Some in Hb. by rewrite length_sliceBoundaries in Hb. }
  rewrite sliceBoundaries_lookup in Hb by done.
  injection Hb as <- <-.
  unfold sliceStart, rawStart, PREVIEW_LATENCY_COMPENSATION.
  split; [lia|]. split; [|split].
  - intros HN. destruct (Nat.ltb_spec (i + 1) (length pos)).
    + rewrite sliceEnd_inner by done. lia.
    + rewrite sliceEnd_last by lia. lia.
  - intros Hn. rewrite sliceEnd_inner by done.
    unfold rawEnd, PREVIEW_LATENCY_COMPENSATION. lia.
  - intros Hn. rewrite sliceEnd_last by lia. lia.
Qed.

Lemma boundary_bounds_witness :
  sliceBoundaries 1024 256 [512; 768] !! 0%nat = Some (64, 127)
  /\ 64 <= 127
  /\ sliceBoundaries 1024 256 [512; 768] !! 1%nat = Some (128, 255)
  /\ 128 <= 255.
Proof.
  assert (H0 : sliceBoundaries 1024 256 [512; 768] !! 0%nat = Some (64, 127))
    by (vm_compute; reflexivity).
  assert (H1 : sliceBoundaries 1024 256 [512; 768] !! 1%nat = Some (128, 255))
    by (vm_compute; reflexivity).
  assert (Hn : (0 + 1 < length [512; 768])%nat) by (apply Nat.ltb_lt; reflexivity).
  assert (Hl : (1 + 1 = length [512; 768])%nat) by reflexivity.
  assert (Hlt : framePos 1024 256 ([512; 768] !!! 0%nat)
                < framePos 1024 256 ([512; 768] !!! (0 + 1)%nat))
    by (apply Z.ltb_lt; vm_compute; reflexivity).
  assert (HN : 0 < 256) by reflexivity.
  assert (Hle : framePos 1024 256 ([512; 768] !!! 1%nat) <= 256 + 63)
    by (apply Z.leb_le; vm_compute; reflexivity).
  split; [exact H0|]. split.
  - exact (proj2 (proj1 (proj2 (proj2 (boundary_bounds 1024 256 [512; 768] 0 64 127 H0)))
                    Hn) (or_intror Hlt)).
  - split; [exact H1|].
    exact (proj2 (proj2 (proj2 (proj2 (boundary_bounds 1024 256 [512; 768] 1 128 255 H1)))
                    Hl) (conj HN Hle)).
Defined.

(** ** Binary64 arithmetic *)

Lemma digits2_pos_size (p : positive) : digits2_pos p = Pos.size p.
Proof. induction p as [p IH|p IH|]; simpl; congruence. Qed.

Lemma Zdigits2_log2 (z : Z) : 0 < z -> Zdigits2 z = Z.log2 z + 1.
Proof.
  destruct z as [|p|p]; try lia. intros _.
  destruct p as [p|p|]; simpl; rewrite ?digits2_pos_size; lia.
Qed.

Lemma Zdigits2_nonneg (z : Z) : 0 <= Zdigits2 z.
Proof. destruct z; simpl; lia. Qed.

Lemma Zdigits2_mono (a b : Z) : 0 <= a <= b -> Zdigits2 a <= Zdigits2 b.
Proof.
  intros [Ha Hab].
  destruct (Z.eq_dec a 0) as [->|Hne]; [apply Zdigits2_nonneg|].
  rewrite !Zdigits2_log2 by lia.
  pose proof (Z.log2_le_mono a b Hab). lia.
Qed.

Lemma Zdigits2_succ (a : Z) : 0 <= a -> Zdigits2 (a + 1) <= Zdigits2 a + 1.
Proof.
  intros Ha.
  destruct (Z.eq_dec a 0) as [->|Hne]; [simpl; lia|].
  rewrite !Zdigits2_log2 by lia.
  pose proof (Z.log2_succ_le a). unfold Z.succ in *. lia.
Qed.

Lemma Zdigits2_mul_pow2 (a n : Z) :
  0 < a -> 0 <= n -> Zdigits2 (a * 2 ^ n) = Zdigits2 a + n.
Proof.
  intros Ha Hn.
  assert (0 < a * 2 ^ n) by (pose proof (Z.pow_pos_nonneg 2 n); nia).
  rewrite !Zdigits2_log2 by lia.
  rewrite <- Z.shiftl_mul_pow2, Z.log2_shiftl by lia. lia.
Qed.

Lemma Zdigits2_below (a n : Z) : 0 < a < 2 ^ n -> Zdigits2 a <= n.
Proof.
  intros [H0 Hn]. rewrite Zdigits2_log2 by lia.
  assert (0 < n).
  { destruct (Z.ltb_spec 0 n); [done|].
    destruct (Z.eq_dec n 0) as [->|]; [simpl in Hn; lia|].
    rewrite Z.pow_neg_r in Hn by lia. lia. }
  pose proof (Z.log2_lt_pow2 a n H0). lia.
Qed.

(** *** Shifting the mantissa right *)

Lemma shr_1_digits (r : shr_record) :
  0 <= shr_m r ->
  0 <= shr_m (shr_1 r)
  /\ Zdigits2 (shr_m (shr_1 r)) = Z.max 0 (Zdigits2 (shr_m r) - 1).
Proof.
  destruct r as [m r s]. simpl.
  destruct m as [|[p|p|]|p]; simpl; intros H; lia.
Qed.

Lemma iter_pos_shr_1_digits (n : positive) : forall r,
  0 <= shr_m r ->
  0 <= shr_m (SpecFloat.iter_pos shr_1 n r)
  /\ Zdigits2 (shr_m (SpecFloat.iter_pos shr_1 n r))
     = Z.max 0 (Zdigits2 (shr_m r) - Zpos n).
Proof.
  induction n as [n IH|n IH|]; intros r Hr; cbn [SpecFloat.iter_pos].
  - destruct (shr_1_digits r Hr) as [H1 E1].
    destruct (IH _ H1) as [H2 E2].
    destruct (IH _ H2) as [H3 E3].
    split; [exact H3|]. rewrite E3, E2, E1. lia.
  - destruct (IH _ Hr) as [H2 E2].
    destruct (IH _ H2) as [H3 E3].
    split; [exact H3|]. rewrite E3, E2. lia.
  - apply shr_1_digits, Hr.
Qed.

Lemma shr_1_exact (a : Z) :
  0 <= a ->
  shr_1 {| shr_m := a * 2; shr_r := false; shr_s := false |}
  = {| shr_m := a; shr_r := false; shr_s := false |}.
Proof.
  intros Ha. rewrite Z.mul_comm. destruct a as [|p|p]; [reflexivity|reflexivity|lia].
Qed.

(** Bits that are zero are shifted out without a trace. *)
Lemma iter_pos_shr_1_exact (n : positive) : forall a,
  0 <= a ->
  SpecFloat.iter_pos shr_1 n
    {| shr_m := a * 2 ^ Zpos n; shr_r := false; shr_s := false |}
  = {| shr_m := a; shr_r := false; shr_s := false |}.
Proof.
  induction n as [n IH|n IH|]; intros a Ha; cbn [SpecFloat.iter_pos].
  - replace (a * 2 ^ Zpos n~1) with (a * 2 ^ Zpos n * 2 ^ Zpos n * 2).
    + rewrite shr_1_exact by (pose proof (Z.pow_pos_nonneg 2 (Zpos n)); nia).
      rewrite IH by (pose proof (Z.pow_pos_nonneg 2 (Zpos n)); nia).
      apply IH, Ha.
    + replace (Zpos n~1) with (Zpos n + Zpos n + 1) by lia.
      rewrite !Z.pow_add_r by lia. change (2 ^ 1) with 2. ring.
  - replace (a * 2 ^ Zpos n~0) with (a * 2 ^ Zpos n * 2 ^ Zpos n).
    + rewrite IH by (pose proof (Z.pow_pos_nonneg 2 (Zpos n)); nia).
      apply IH, Ha.
    + replace (Zpos n~0) with (Zpos n + Zpos n) by lia.
      rewrite Z.pow_add_r by lia. ring.
  - change (2 ^ 1) with 2. apply shr_1_exact, Ha.
Qed.

Lemma shr_m_record_of_loc (m : Z) (l : location) :
  shr_m (shr_record_of_loc m l) = m.
Proof. destruct l as [|[]]; reflexivity. Qed.

(** What [shr_fexp] does to the exponent and to the number of digits. *)
Lemma shr_fexp_cases (m e : Z) (l : location) :
  0 <= m ->
  let d := Zdigits2 m in
  let f := Z.max (d + e - 53) (-1074) in
  0 <= shr_m (fst (shr_fexp prec emax m e l))
  /\ ((f <= e /\ snd (shr_fexp prec emax m e l) = e
       /\ shr_m (fst (shr_fexp prec emax m e l)) = m)
      \/ (e < f /\ snd (shr_fexp prec emax m e l) = f
          /\ Zdigits2 (shr_m (fst (shr_fexp prec emax m e l)))
             = Z.max 0 (d - (f - e)))).
Proof.
  intros Hm d f. unfold shr_fexp, fexp, emin, prec, emax.
  change (3 - 1024 - 53) with (-1074). fold d. fold f.
  unfold shr. destruct (f - e) as [|p|p] eqn:E; simpl fst; simpl snd.
  - rewrite shr_m_record_of_loc. split; [exact Hm|]. left. lia.
  - destruct (iter_pos_shr_1_digits p (shr_record_of_loc m l)) as [H1 E1];
      [rewrite shr_m_record_of_loc; exact Hm|].
    rewrite shr_m_record_of_loc in E1. fold d in E1.
    split; [exact H1|]. right. rewrite E1. lia.
  - rewrite shr_m_record_of_loc. split; [exact Hm|]. left. lia.
Qed.

Lemma shr_fexp_noshift (m e : Z) :
  Z.max (Zdigits2 m + e - 53) (-1074) <= e ->
  shr_fexp prec emax m e loc_Exact
  = ({| shr_m := m; shr_r := false; shr_s := false |}, e).
Proof.
  intros Hf. unfold shr_fexp, fexp, emin, prec, emax.
  change (3 - 1024 - 53) with (-1074).
  unfold shr. destruct (_ - e) as [|p|p] eqn:E; [reflexivity|lia|reflexivity].
Qed.

Lemma shr_fexp_exact (a e f : Z) :
  0 <= a -> e < f ->
  Z.max (Zdigits2 (a * 2 ^ (f - e)) + e - 53) (-1074) = f ->
  shr_fexp prec emax (a * 2 ^ (f - e)) e loc_Exact
  = ({| shr_m := a; shr_r := false; shr_s := false |}, f).
Proof.
  intros Ha Hef Hf. unfold shr_fexp, fexp, emin, prec, emax.
  change (3 - 1024 - 53) with (-1074). rewrite Hf.
  unfold shr. destruct (f - e) as [|p|p] eqn:E; try lia.
  simpl shr_record_of_loc. rewrite iter_pos_shr_1_exact by exact Ha.
  f_equal. lia.
Qed.

Lemma round_nearest_even_bounds (m : Z) (l : location) :
  m <= round_nearest_even m l <= m + 1.
Proof. destruct l as [|[]]; simpl; try destruct (Z.even m); lia. Qed.

(** *** Rounding *)

(** No overflow: a mantissa and an exponent that stand for a number below
    [2^1023] round to a finite number or to zero. *)
Lemma binary_round_aux_finite (s : bool) (m e : Z) (l : location) :
  0 <= m -> e <= 971 -> Zdigits2 m + e <= 1023 ->
  zero_or_finite s (binary_round_aux prec emax s m e l).
Proof.
  intros Hm He Hd. unfold binary_round_aux.
  pose proof (shr_fexp_cases m e l Hm) as H1. cbv zeta in H1.
  destruct (shr_fexp prec emax m e l) as [r1 e1].
  simpl fst in H1; simpl snd in H1. destruct H1 as [Hr1 H1].
  set (m2 := round_nearest_even (shr_m r1) (loc_of_shr_record r1)).
  pose proof (round_nearest_even_bounds (shr_m r1) (loc_of_shr_record r1)) as Hb.
  fold m2 in Hb.
  assert (Hm2 : 0 <= m2) by lia.
  assert (Hd2 : Zdigits2 m2 <= Zdigits2 (shr_m r1) + 1).
  { etransitivity; [apply (Zdigits2_mono m2 (shr_m r1 + 1)); lia|].
    apply Zdigits2_succ, Hr1. }
  pose proof (Zdigits2_nonneg m) as Hdn.
  assert (He1 : e1 <= 971 /\ Zdigits2 m2 + e1 <= 1024).
  { destruct H1 as [(Hf & -> & Em)|(Hf & -> & Ed)].
    - rewrite Em in Hd2. lia.
    - rewrite Ed in Hd2. lia. }
  pose proof (shr_fexp_cases m2 e1 loc_Exact Hm2) as H2. cbv zeta in H2.
  destruct (shr_fexp prec emax m2 e1 loc_Exact) as [r2 e2].
  simpl fst in H2; simpl snd in H2. destruct H2 as [Hr2 H2].
  assert (He2 : e2 <= 971) by (destruct H2 as [(_ & -> & _)|(_ & -> & _)]; lia).
  destruct (shr_m r2) as [|p|p]; [constructor| |lia].
  unfold emax, prec. change (1024 - 53) with 971.
  destruct (Z.leb_spec e2 971); [constructor|lia].
Qed.

(** A mantissa that needs no shift is kept as it is. *)
Lemma binary_round_aux_noshift (s : bool) (m : positive) (e : Z) :
  Z.max (Zpos (digits2_pos m) + e - 53) (-1074) <= e -> e <= 971 ->
  binary_round_aux prec emax s (Zpos m) e loc_Exact = S754_finite s m e.
Proof.
  intros Hc He. unfold binary_round_aux.
  rewrite shr_fexp_noshift by exact Hc. simpl shr_m.
  simpl loc_of_shr_record. simpl round_nearest_even.
  rewrite shr_fexp_noshift by exact Hc. simpl shr_m.
  unfold emax, prec. change (1024 - 53) with 971.
  destruct (Z.leb_spec e 971); [reflexivity|lia].
Qed.

Lemma truncZ_represents (s : bool) (m : positive) (e V : Z) :
  represents m e V -> truncZ (S754_finite s m e) = Some (cond_Zopp s V).
Proof.
  unfold represents, truncZ. intros H. do 2 f_equal.
  destruct (Z.ltb_spec e 0).
  - rewrite <- (Z.opp_involutive e) at 1.
    rewrite Z.shiftl_opp_r, Z.shiftr_div_pow2, H by lia.
    apply Z.div_mul. pose proof (Z.pow_pos_nonneg 2 (- e)). lia.
  - rewrite Z.shiftl_mul_pow2 by lia. lia.
Qed.

(** Rounding is exact on an integer below [2^53]. *)
Lemma binary_round_aux_exact (s : bool) (m : positive) (e V : Z) :
  0 < V < 2 ^ 53 -> represents m e V ->
  exists m' e',
    binary_round_aux prec emax s (Zpos m) e loc_Exact = S754_finite s m' e'
    /\ represents m' e' V.
Proof.
  intros HV Hrep.
  pose proof (Zdigits2_below V 53 HV) as HdV.
  pose proof (Zdigits2_log2 V ltac:(lia)) as HlV.
  pose proof (Z.log2_nonneg V) as HnV.
  assert (Hdm : 1 <= Zdigits2 (Zpos m)) by (simpl; lia).
  unfold represents in Hrep. destruct (Z.ltb_spec e 0) as [Hneg|Hpos].
  - assert (Hd : Zdigits2 (Zpos m) = Zdigits2 V - e).
    { rewrite Hrep, Zdigits2_mul_pow2 by lia. lia. }
    set (f := Z.max (Zdigits2 V - 53) (-1074)).
    destruct (Z.le_gt_cases f e) as [Hfe|Hfe].
    + exists m, e. split.
      * apply binary_round_aux_noshift; [|lia].
        change (Zpos (digits2_pos m)) with (Zdigits2 (Zpos m)). rewrite Hd.
        unfold f in Hfe. lia.
      * unfold represents. destruct (Z.ltb_spec e 0); [exact Hrep|lia].
    + assert (Hm : Zpos m = V * 2 ^ (- f) * 2 ^ (f - e)).
      { rewrite Hrep, <- Z.mul_assoc, <- Z.pow_add_r by (unfold f; lia).
        do 2 f_equal. lia. }
      assert (Ha : 0 < V * 2 ^ (- f)).
      { pose proof (Z.pow_pos_nonneg 2 (- f)). unfold f in *. nia. }
      destruct (V * 2 ^ (- f)) as [|a|a] eqn:Ea; try lia.
      exists a, f. split.
      * unfold binary_round_aux. rewrite Hm.
        rewrite shr_fexp_exact; [|lia|exact Hfe|].
        2:{ rewrite <- Hm, Hd. unfold f. lia. }
        simpl shr_m. simpl loc_of_shr_record. simpl round_nearest_even.
        rewrite shr_fexp_noshift.
        2:{ rewrite <- Ea. destruct (Z.eq_dec f 0) as [Hf0|Hf0].
            - rewrite Hf0. simpl Z.opp. rewrite Z.pow_0_r, Z.mul_1_r.
              unfold f in Hf0. lia.
            - rewrite Zdigits2_mul_pow2 by (unfold f in *; lia).
              unfold f. lia. }
        simpl shr_m. unfold emax, prec. change (1024 - 53) with 971.
        destruct (Z.leb_spec f 971); [reflexivity|unfold f in *; lia].
      * unfold represents. destruct (Z.ltb_spec f 0) as [Hf|Hf].
        -- symmetry. exact Ea.
        -- assert (f = 0) by (unfold f in *; lia).
           replace f with 0 in * by lia. simpl in Ea. lia.
  - assert (Hd : Zdigits2 (Zpos m) + e = Zdigits2 V).
    { rewrite Hrep, Zdigits2_mul_pow2 by lia. lia. }
    exists m, e. split.
    + apply binary_round_aux_noshift; [|lia].
      change (Zpos (digits2_pos m)) with (Zdigits2 (Zpos m)). lia.
    + unfold represents. destruct (Z.ltb_spec e 0); [lia|exact Hrep].
Qed.

(** *** Conversions of integers *)

Lemma digits2_pos_iter_xO (k p : positive) :
  Zpos (digits2_pos (Pos.iter xO p k)) = Zpos (digits2_pos p) + Zpos k.
Proof.
  induction k as [|k IH] using Pos.peano_ind.
  - simpl. lia.
  - rewrite Pos.iter_succ. simpl digits2_pos. lia.
Qed.

Lemma Zpos_iter_xO (k p : positive) :
  Zpos (Pos.iter xO p k) = Zpos p * 2 ^ Zpos k.
Proof.
  induction k as [|k IH] using Pos.peano_ind.
  - simpl. lia.
  - rewrite Pos.iter_succ, Pos2Z.inj_xO, IH, Pos2Z.inj_succ, Z.pow_succ_r by lia.
    lia.
Qed.

(** [(double)z] is exact for [0 < z < 2^53]: a mantissa of 53 digits that
    stands for [z]. *)
Lemma double_of_Z_pos (z : Z) :
  0 < z < 2 ^ 53 ->
  exists m e, double_of_Z z = S754_finite false m e
    /\ Zpos (digits2_pos m) = 53 /\ e = Zdigits2 z - 53 /\ represents m e z.
Proof.
  intros [H0 H53]. destruct z as [|p|p]; try lia.
  assert (Hd : 1 <= Zpos (digits2_pos p) <= 53).
  { split; [lia|]. apply (Zdigits2_below (Zpos p) 53). lia. }
  unfold double_of_Z, double_lit, binary_normalize, binary_round, shl_align,
    fexp, emin, prec, emax.
  change (3 - 1024 - 53) with (-1074).
  rewrite Z.add_0_r, Z.sub_0_r.
  replace (Z.max (Zpos (digits2_pos p) - 53) (-1074))
    with (Zpos (digits2_pos p) - 53) by lia.
  simpl Zdigits2.
  destruct (Zpos (digits2_pos p) - 53) as [|k|k] eqn:E; try lia.
  - exists p, 0. split; [|split; [lia|split; [lia|]]].
    + apply binary_round_aux_noshift; lia.
    + unfold represents. simpl. lia.
  - exists (Pos.iter xO p k), (Zneg k).
    pose proof (digits2_pos_iter_xO k p) as Hk.
    split; [|split; [lia|split; [lia|]]].
    + apply binary_round_aux_noshift; lia.
    + unfold represents. simpl Z.ltb. cbv iota. rewrite Zpos_iter_xO. reflexivity.
Qed.

(** *** Division *)

Lemma ddiv_finite (m1 m2 : positive) (e1 e2 : Z) :
  e1 - e2 <= 971 -> Zdigits2 (Zpos m1) + e1 - e2 <= 1023 ->
  zero_or_finite false (ddiv (S754_finite false m1 e1) (S754_finite false m2 e2)).
Proof.
  intros He Hd. unfold ddiv, SFdiv, SFdiv_core_binary.
  set (e' := Z.min _ _).
  assert (He' : e' <= e1 - e2) by (unfold e'; lia).
  set (s := e1 - e2 - e').
  assert (Hs : 0 <= s) by (unfold s; lia).
  set (m' := match s with
             | Z0 => Zpos m1 | Zpos _ => Z.shiftl (Zpos m1) s | Zneg _ => 0
             end).
  assert (Hm' : m' = Zpos m1 * 2 ^ s).
  { unfold m'. destruct s; rewrite ?Z.shiftl_mul_pow2 by lia; simpl; lia. }
  pose proof (Z_div_mod m' (Zpos m2) eq_refl) as Hdiv.
  destruct (Z.div_eucl m' (Zpos m2)) as [q r]. destruct Hdiv as [Hq Hr].
  assert (Hpos : 0 < m') by (pose proof (Z.pow_pos_nonneg 2 s); nia).
  assert (Hq0 : 0 <= q) by nia.
  assert (Hqm : q <= m') by nia.
  simpl xorb. apply binary_round_aux_finite; [exact Hq0|lia|].
  pose proof (Zdigits2_mono q m' (conj Hq0 Hqm)) as Hmono.
  rewrite Hm', Zdigits2_mul_pow2 in Hmono by lia.
  unfold s in Hmono. lia.
Qed.

(** The quotient of two integers of [int] size, the divisor positive, is a
    non-negative finite [double]. *)
Lemma ddiv_of_Z_finite (a b : Z) :
  0 <= a < 2 ^ 53 -> 0 < b < 2 ^ 53 ->
  zero_or_finite false (ddiv (double_of_Z a) (double_of_Z b)).
Proof.
  intros Ha Hb.
  destruct (double_of_Z_pos b Hb) as (m2 & e2 & -> & Hd2 & He2 & _).
  pose proof (Zdigits2_log2 b ltac:(lia)) as Hlb.
  pose proof (Z.log2_nonneg b) as Hnb.
  destruct (Z.eq_dec a 0) as [->|Hne].
  - change (double_of_Z 0) with (S754_zero false). simpl. constructor.
  - destruct (double_of_Z_pos a ltac:(lia)) as (m1 & e1 & -> & Hd1 & He1 & _).
    pose proof (Zdigits2_below a 53 ltac:(lia)) as Hla.
    apply ddiv_finite; simpl Zdigits2; lia.
Qed.

(** ** Values and conversions *)

Lemma Qfloor_unique (y : Q) (n : Z) :
  (inject_Z n <= y)%Q -> (y < inject_Z (n + 1))%Q -> Qfloor y = n.
Proof.
  intros Hlo Hhi.
  pose proof (Qfloor_le y) as H1. pose proof (Qlt_floor y) as H2.
  assert (Qfloor y < n + 1).
  { rewrite Zlt_Qlt. eapply Qle_lt_trans; eassumption. }
  assert (n < Qfloor y + 1).
  { rewrite Zlt_Qlt. eapply Qle_lt_trans; eassumption. }
  lia.
Qed.

Lemma Qfloor_nonneg (x : Q) : (0 <= x)%Q -> 0 <= Qfloor x.
Proof.
  intros H. change 0 with (Qfloor 0). by apply Qfloor_resp_le.
Qed.

Lemma roundQ_nonneg (x : Q) : (0 <= x)%Q -> roundQ x = Qfloor (x + (1 # 2)).
Proof.
  intros H. unfold roundQ. apply Qle_bool_iff in H. by rewrite H.
Qed.

Lemma valueQ_finite_pos (m : positive) (e : Z) :
  (0 < valueQ (S754_finite false m e))%Q.
Proof.
  unfold valueQ. destruct (e <? 0) eqn:He.
  - reflexivity.
  - apply Z.ltb_ge in He. rewrite <- (Zlt_Qlt 0).
    pose proof (Z.pow_pos_nonneg 2 e). lia.
Qed.

Lemma valueQ_finite_neg (m : positive) (e : Z) :
  (valueQ (S754_finite true m e) < 0)%Q.
Proof.
  pose proof (valueQ_finite_pos m e) as H. unfold valueQ in *.
  destruct (e <? 0); lra.
Qed.

Lemma valueQ_zero_or_finite (x : double) :
  zero_or_finite false x -> (0 <= valueQ x)%Q.
Proof.
  intros [|m e]; [done|]. apply Qlt_le_weak, valueQ_finite_pos.
Qed.

Lemma Qfloor_valueQ (m : positive) (e : Z) :
  Qfloor (valueQ (S754_finite false m e)) = Z.shiftl (Zpos m) e.
Proof.
  unfold valueQ. destruct (Z.ltb_spec e 0) as [He|He].
  - assert (Hp : 0 < 2 ^ (- e)) by (apply Z.pow_pos_nonneg; lia).
    unfold Qfloor. rewrite Z2Pos.id by exact Hp.
    rewrite <- (Z.opp_involutive e) at 2.
    rewrite Z.shiftl_opp_r, Z.shiftr_div_pow2 by lia. reflexivity.
  - rewrite Qfloor_Z, Z.shiftl_mul_pow2 by lia. reflexivity.
Qed.

(** The integer part of a finite non-negative [double] is the floor of its
    value. *)
Lemma truncZ_floor (x : double) :
  is_finite x = true -> (0 <= valueQ x)%Q -> truncZ x = Some (Qfloor (valueQ x)).
Proof.
  destruct x as [s|s| |s m e]; try discriminate; intros _ Hx.
  - reflexivity.
  - destruct s.
    + pose proof (valueQ_finite_neg m e). lra.
    + rewrite Qfloor_valueQ. reflexivity.
Qed.

Lemma uint32_t_of_double_floor (x : double) :
  is_finite x = true -> (0 <= valueQ x)%Q -> (valueQ x < inject_Z (2 ^ 32))%Q ->
  uint32_t_of_double x = Qfloor (valueQ x).
Proof.
  intros Hf Hlo Hhi. unfold uint32_t_of_double, uint32_t_of_Z.
  rewrite truncZ_floor by done. apply Z.mod_small. split.
  - by apply Qfloor_nonneg.
  - rewrite Zlt_Qlt. eapply Qle_lt_trans; [apply Qfloor_le|done].
Qed.

Lemma int_of_double_range (x : double) :
  INT_MIN <= int_of_double x <= INT_MAX.
Proof.
  unfold int_of_double. destruct (truncZ x) as [z|]; [|done].
  destruct (Z.leb_spec INT_MIN z); destruct (Z.leb_spec z INT_MAX); simpl;
    solve [done | unfold INT_MIN, INT_MAX in *; lia].
Qed.

Lemma uint32_t_of_double_range (x : double) :
  0 <= uint32_t_of_double x < 2 ^ 32.
Proof.
  unfold uint32_t_of_double, uint32_t_of_Z. destruct (truncZ x); [|lia].
  apply Z.mod_pos_bound. lia.
Qed.

(** A product of integers below [2^53] is exact. *)
Lemma represents_mul (m1 m2 : positive) (e1 e2 V1 V2 : Z) :
  represents m1 e1 V1 -> represents m2 e2 V2 ->
  represents (m1 * m2) (e1 + e2) (V1 * V2).
Proof.
  unfold represents. rewrite Pos2Z.inj_mul.
  assert (Hsplit : forall a b, 0 <= a -> 0 <= b -> 2 ^ (a + b) = 2 ^ a * 2 ^ b)
    by (intros; apply Z.pow_add_r; lia).
  destruct (Z.ltb_spec e1 0) as [H1|H1]; destruct (Z.ltb_spec e2 0) as [H2|H2];
    destruct (Z.ltb_spec (e1 + e2) 0) as [H|H]; intros -> ->; try lia.
  - replace (- (e1 + e2)) with (- e1 + - e2) by lia.
    rewrite Hsplit by lia. ring.
  - replace (- e1) with (- (e1 + e2) + e2) by lia.
    rewrite Hsplit by lia. ring.
  - replace e2 with (- e1 + (e1 + e2)) at 1 by lia.
    rewrite Hsplit by lia. ring.
  - replace (- e2) with (- (e1 + e2) + e1) by lia.
    rewrite Hsplit by lia. ring.
  - replace e1 with (- e2 + (e1 + e2)) at 1 by lia.
    rewrite Hsplit by lia. ring.
  - rewrite Hsplit by lia. ring.
Qed.

Lemma dmul_exact (m1 m2 : positive) (e1 e2 V1 V2 : Z) :
  represents m1 e1 V1 -> represents m2 e2 V2 -> 0 < V1 * V2 < 2 ^ 53 ->
  exists m e,
    dmul (S754_finite false m1 e1) (S754_finite false m2 e2) = S754_finite false m e
    /\ represents m e (V1 * V2).
Proof.
  intros H1 H2 HV. unfold dmul, SFmul. simpl xorb.
  apply binary_round_aux_exact; [exact HV|by apply represents_mul].
Qed.

(** [(uint32_t)(floor(x) * 25.0)] for a finite non-negative [x]. *)
Lemma floor_times_25 (x : double) :
  is_finite x = true -> (0 <= valueQ x)%Q -> Qfloor (valueQ x) * 25 < 2 ^ 32 ->
  uint32_t_of_double (dmul (floor x) (double_of_Z 25)) = Qfloor (valueQ x) * 25.
Proof.
  intros Hf Hx Hfit.
  assert (H0 : 0 <= Qfloor (valueQ x)) by (by apply Qfloor_nonneg).
  assert (Hsmall : uint32_t_of_Z (Qfloor (valueQ x) * 25) = Qfloor (valueQ x) * 25)
    by (apply Z.mod_small; lia).
  assert (Hzero : forall s, uint32_t_of_double (dmul (S754_zero s) (double_of_Z 25)) = 0)
    by (intros []; reflexivity).
  destruct x as [s|s| |s m e]; try discriminate.
  - cbn [floor]. rewrite (Hzero s). reflexivity.
  - destruct s; [pose proof (valueQ_finite_neg m e); lra|].
    rewrite Qfloor_valueQ in *.
    set (B := Z.shiftl (Zpos m) e) in *.
    assert (Hcase : B = 0 \/ (0 < B /\ exists m' e',
              floor (S754_finite false m e) = S754_finite false m' e'
              /\ represents m' e' B)).
    { unfold floor. destruct (Z.leb_spec 0 e) as [He|He].
      - right. assert (HB : B = Zpos m * 2 ^ e)
          by (unfold B; rewrite Z.shiftl_mul_pow2 by lia; reflexivity).
        split; [pose proof (Z.pow_pos_nonneg 2 e); lia|].
        exists m, e. split; [reflexivity|].
        unfold represents. destruct (Z.ltb_spec e 0); [lia|exact HB].
      - simpl cond_Zopp. fold B.
        destruct (Z.eq_dec B 0) as [HB|HB]; [by left|]. right.
        split; [lia|].
        destruct (double_of_Z_pos B ltac:(lia)) as (m' & e' & Hd & _ & _ & Hrep).
        exists m', e'. split; [|exact Hrep].
        destruct B; [lia|exact Hd|lia]. }
    destruct Hcase as [HB|(HB & m' & e' & -> & Hrep)].
    + rewrite HB. unfold floor.
      destruct (Z.leb_spec 0 e) as [He|He].
      * exfalso. unfold B in HB. rewrite Z.shiftl_mul_pow2 in HB by lia.
        pose proof (Z.pow_pos_nonneg 2 e). lia.
      * simpl cond_Zopp. fold B. rewrite HB. apply Hzero.
    + destruct (double_of_Z_pos 25 ltac:(lia)) as (m25 & e25 & -> & _ & _ & H25).
      destruct (dmul_exact m' m25 e' e25 B 25 Hrep H25 ltac:(lia))
        as (m'' & e'' & -> & Hrep'').
      unfold uint32_t_of_double.
      rewrite (truncZ_represents false m'' e'' _ Hrep''). exact Hsmall.
Qed.

(** ** The two ends of the musical length *)

(** [x / x] is [1.0]. *)
Lemma ddiv_self (m : positive) (e : Z) :
  ddiv (S754_finite false m e) (S754_finite false m e)
  = S754_finite false 4503599627370496 (-52).
Proof.
  unfold ddiv, SFdiv, SFdiv_core_binary. rewrite !Z.sub_diag.
  change (Z.min (fexp prec emax 0) 0) with (-53). change (0 - -53) with 53.
  cbv iota. rewrite Z.shiftl_mul_pow2 by lia.
  assert (Hdiv : Z.div_eucl (Zpos m * 2 ^ 53) (Zpos m) = (2 ^ 53, 0)).
  { generalize (2 ^ 53). intros P.
    pose proof (Z_div_mod (Zpos m * P) (Zpos m) eq_refl) as H.
    destruct (Z.div_eucl (Zpos m * P) (Zpos m)) as [q r].
    destruct H as [Hq Hr].
    assert (q = P) by nia. subst q. f_equal. lia. }
  rewrite Hdiv.
  assert (Hloc : new_location (Zpos m) 0 = loc_Exact)
    by (unfold new_location; destruct (Z.even (Zpos m)); reflexivity).
  rewrite Hloc. reflexivity.
Qed.

(** [round] of a [double] that is a positive integer below [2^53]. *)
Lemma round_represents (m : positive) (e N : Z) :
  represents m e N -> 0 < N < 2 ^ 53 ->
  truncZ (round (S754_finite false m e)) = Some N.
Proof.
  intros Hrep HN. unfold round. destruct (Z.leb_spec 0 e) as [He|He].
  - by apply (truncZ_represents false).
  - assert (Hz : Z.shiftl (Zpos m + 2 ^ (- e - 1)) e = N).
    { unfold represents in Hrep. destruct (Z.ltb_spec e 0); [|lia].
      rewrite <- (Z.opp_involutive e) at 2.
      rewrite Z.shiftl_opp_r, Z.shiftr_div_pow2, Hrep by lia.
      assert (Hp : 2 ^ (- e) = 2 * 2 ^ (- e - 1)).
      { rewrite <- Z.pow_succ_r by lia. f_equal. lia. }
      pose proof (Z.pow_pos_nonneg 2 (- e - 1)) as Hpos.
      symmetry. apply (Z.div_unique _ _ _ (2 ^ (- e - 1))); lia. }
    rewrite Hz. destruct N as [|p|p]; try lia. simpl cond_Zopp.
    destruct (double_of_Z_pos (Zpos p) HN) as (m' & e' & -> & _ & _ & Hrep').
    by apply (truncZ_represents false).
Qed.

Lemma int_of_double_truncZ (x : double) (z : Z) :
  truncZ x = Some z -> INT_MIN <= z <= INT_MAX -> int_of_double x = z.
Proof.
  intros Hx [Hlo Hhi]. unfold int_of_double. rewrite Hx.
  apply Z.leb_le in Hlo, Hhi. by rewrite Hlo, Hhi.
Qed.

(** A marker at position 0 is frame 0. *)
Lemma framePos_0 fPPQLength lengthFrames :
  0 < fPPQLength <= INT_MAX -> 0 <= lengthFrames <= INT_MAX ->
  framePos fPPQLength lengthFrames 0 = 0.
Proof.
  unfold INT_MAX. intros HL HN. unfold framePos.
  destruct (double_of_Z_pos fPPQLength ltac:(lia)) as (mL & eL & -> & _).
  change (double_of_Z 0) with (S754_zero false).
  destruct (Z.eq_dec lengthFrames 0) as [->|Hne]; [reflexivity|].
  destruct (double_of_Z_pos lengthFrames ltac:(lia)) as (mN & eN & -> & _).
  reflexivity.
Qed.

(** A marker at the full musical length is frame [lengthFrames]. *)
Lemma framePos_full fPPQLength lengthFrames :
  0 < fPPQLength <= INT_MAX -> 0 <= lengthFrames <= INT_MAX ->
  framePos fPPQLength lengthFrames fPPQLength = lengthFrames.
Proof.
  intros HL HN. unfold framePos.
  assert (HL' : 0 < fPPQLength < 2 ^ 53) by (unfold INT_MAX in HL; lia).
  destruct (double_of_Z_pos fPPQLength HL') as (mL & eL & -> & _).
  rewrite ddiv_self.
  destruct (Z.eq_dec lengthFrames 0) as [->|Hne]; [reflexivity|].
  assert (HN' : 0 < lengthFrames < 2 ^ 53) by (unfold INT_MAX in HN; lia).
  destruct (double_of_Z_pos lengthFrames HN') as (mN & eN & -> & _ & _ & HrepN).
  destruct (dmul_exact 4503599627370496 mN (-52) eN 1 lengthFrames)
    as (m & e & -> & Hrep); [reflexivity|exact HrepN|lia|].
  rewrite Z.mul_1_l in Hrep.
  apply int_of_double_truncZ.
  - by apply round_represents.
  - unfold INT_MIN. lia.
Qed.

(** ** Rounding to the nearest integer, ties to even *)

Lemma roundHalfEven_near (x : Q) :
  (x - (1 # 2) <= inject_Z (roundHalfEven x) <= x + (1 # 2))%Q.
Proof.
  unfold roundHalfEven.
  pose proof (Qfloor_le x) as Hlo. pose proof (Qlt_floor x) as Hhi.
  rewrite inject_Z_plus in Hhi. change (inject_Z 1) with 1%Q in Hhi.
  destruct (Qcompare_spec (x - inject_Z (Qfloor x)) (1 # 2)) as [Heq|Hlt|Hgt].
  - destruct (Z.even (Qfloor x)).
    + lra.
    + rewrite inject_Z_plus. change (inject_Z 1) with 1%Q. lra.
  - lra.
  - rewrite inject_Z_plus. change (inject_Z 1) with 1%Q. lra.
Qed.

Lemma roundHalfEven_nonneg (x : Q) : (0 <= x)%Q -> 0 <= roundHalfEven x.
Proof.
  intros Hx. pose proof (Qfloor_nonneg x Hx) as Hf. unfold roundHalfEven.
  destruct (x - inject_Z (Qfloor x) ?= 1 # 2)%Q; [destruct (Z.even _)|..]; lia.
Qed.


(** ** The value of a [double] *)

Lemma pow2_pos (e : Z) : (0 < 2 ^ e)%Q.
Proof. apply Qpower_0_lt. reflexivity. Qed.

Lemma pow2_add (a b : Z) : (2 ^ (a + b) == 2 ^ a * 2 ^ b)%Q.
Proof. apply Qpower_plus. discriminate. Qed.

Lemma pow2_inject (n : Z) : 0 <= n -> (2 ^ n == inject_Z (2 ^ n))%Q.
Proof. intros Hn. rewrite Zpower_Qpower by exact Hn. reflexivity. Qed.

Lemma pow2_le (a b : Z) : a <= b -> (2 ^ a <= 2 ^ b)%Q.
Proof. intros H. apply Qpower_le_compat_l; [exact H|discriminate]. Qed.

Lemma pow2_lt (a b : Z) : a < b -> (2 ^ a < 2 ^ b)%Q.
Proof. intros H. apply Qpower_lt_compat_l; [exact H|reflexivity]. Qed.

Lemma pow2_lt_inv (a b : Z) : (2 ^ a < 2 ^ b)%Q -> a < b.
Proof. intros H. apply (Qpower_lt_compat_l_inv 2); [exact H|reflexivity]. Qed.

Lemma pow2_opp (a : Z) : (2 ^ (- a) == / 2 ^ a)%Q.
Proof. apply Qpower_opp. Qed.

Lemma pow2_sub (a b : Z) : (2 ^ (a - b) == 2 ^ a / 2 ^ b)%Q.
Proof.
  unfold Z.sub. rewrite pow2_add, pow2_opp. reflexivity.
Qed.

(** The value of a finite [double]. *)
Lemma valueQ_finite (m : positive) (e : Z) :
  (valueQ (S754_finite false m e) == inject_Z (Zpos m) * 2 ^ e)%Q.
Proof.
  unfold valueQ. destruct (Z.ltb_spec e 0) as [He|He].
  - assert (Hp : 0 < 2 ^ (- e)) by (apply Z.pow_pos_nonneg; lia).
    rewrite Qmake_Qdiv, Z2Pos.id by exact Hp.
    rewrite <- (Z.opp_involutive e) at 2.
    rewrite pow2_opp, pow2_inject by lia. reflexivity.
  - rewrite inject_Z_mult, pow2_inject by lia. reflexivity.
Qed.

Lemma represents_value (m : positive) (e V : Z) :
  represents m e V -> (valueQ (S754_finite false m e) == inject_Z V)%Q.
Proof.
  unfold represents. rewrite valueQ_finite.
  destruct (Z.ltb_spec e 0) as [He|He]; intros H.
  - rewrite H, inject_Z_mult, <- pow2_inject by lia.
    rewrite <- Qmult_assoc, <- pow2_add.
    replace (- e + e) with 0 by lia. simpl. ring.
  - rewrite H, inject_Z_mult, <- pow2_inject by lia. reflexivity.
Qed.

(** [(double)z] stands for [z]. *)
Lemma valueQ_double_of_Z (z : Z) :
  0 <= z < 2 ^ 53 -> (valueQ (double_of_Z z) == inject_Z z)%Q.
Proof.
  intros Hz. destruct (Z.eq_dec z 0) as [->|Hne]; [reflexivity|].
  destruct (double_of_Z_pos z ltac:(lia)) as (m & e & -> & _ & _ & Hrep).
  by apply represents_value.
Qed.

(** ** Shifting, in terms of the number shifted *)

Lemma inbetween_comp (m : Z) (l : location) (y y' : Q) :
  (y == y')%Q -> inbetween m l y -> inbetween m l y'.
Proof.
  intros Hy. destruct l as [|[]]; simpl; intros H; lra.
Qed.

Lemma inbetween_record_of_loc (m : Z) (l : location) (y : Q) :
  inbetween m l y ->
  inbetween (shr_m (shr_record_of_loc m l))
            (loc_of_shr_record (shr_record_of_loc m l)) y.
Proof. destruct l as [|[]]; simpl; done. Qed.

Lemma shr_1_spec (m : Z) (rb sb : bool) :
  0 <= m ->
  shr_1 {| shr_m := m; shr_r := rb; shr_s := sb |}
  = {| shr_m := m / 2; shr_r := Z.odd m; shr_s := rb || sb |}.
Proof.
  intros Hm. destruct m as [|p|p]; [reflexivity| |lia].
  assert (Hdiv : Zpos p / 2 = match p with xH => 0 | xO q | xI q => Zpos q end).
  { destruct p as [q|q|].
    - symmetry. apply (Z.div_unique _ _ _ 1); lia.
    - symmetry. apply (Z.div_unique _ _ _ 0); lia.
    - reflexivity. }
  rewrite Hdiv. destruct p; reflexivity.
Qed.

Lemma shr_1_inbetween (r : shr_record) (y : Q) :
  0 <= shr_m r ->
  inbetween (shr_m r) (loc_of_shr_record r) y ->
  0 <= shr_m (shr_1 r)
  /\ inbetween (shr_m (shr_1 r)) (loc_of_shr_record (shr_1 r)) (y / 2).
Proof.
  destruct r as [m rb sb]. simpl shr_m at 1 2. intros Hm Hy.
  rewrite shr_1_spec by exact Hm. simpl shr_m.
  split; [apply Z.div_pos; lia|].
  assert (Hm2 : (inject_Z m == 2 * inject_Z (m / 2)
                 + (if Z.odd m then 1 else 0))%Q).
  { pose proof (Z.div2_odd m) as H. rewrite Z.div2_div in H.
    rewrite H at 1. rewrite inject_Z_plus, inject_Z_mult.
    destruct (Z.odd m); reflexivity. }
  apply (inbetween_comp _ _ (y * (1 # 2))); [field|].
  revert Hm2.
  destruct (Z.odd m), rb, sb; simpl in *; intros Hm2; lra.
Qed.

Lemma iter_pos_shr_1_inbetween (n : positive) : forall (r : shr_record) (y : Q),
  0 <= shr_m r ->
  inbetween (shr_m r) (loc_of_shr_record r) y ->
  0 <= shr_m (SpecFloat.iter_pos shr_1 n r)
  /\ inbetween (shr_m (SpecFloat.iter_pos shr_1 n r))
               (loc_of_shr_record (SpecFloat.iter_pos shr_1 n r))
               (y / 2 ^ Zpos n).
Proof.
  induction n as [n IH|n IH|]; intros r y Hr Hy; cbn [SpecFloat.iter_pos].
  - destruct (shr_1_inbetween r y Hr Hy) as [H1 I1].
    destruct (IH _ _ H1 I1) as [H2 I2].
    destruct (IH _ _ H2 I2) as [H3 I3].
    split; [exact H3|]. eapply inbetween_comp; [|exact I3].
    replace (Zpos n~1) with (1 + Zpos n + Zpos n) by lia.
    rewrite !pow2_add. pose proof (pow2_pos (Zpos n)). change (2 ^ 1)%Q with 2%Q.
    field. lra.
  - destruct (IH _ _ Hr Hy) as [H2 I2].
    destruct (IH _ _ H2 I2) as [H3 I3].
    split; [exact H3|]. eapply inbetween_comp; [|exact I3].
    replace (Zpos n~0) with (Zpos n + Zpos n) by lia.
    rewrite !pow2_add. pose proof (pow2_pos (Zpos n)). field. lra.
  - apply shr_1_inbetween; done.
Qed.

(** ** Rounding to nearest, ties to even *)

Lemma roundHalfEven_comp (x y : Q) :
  (x == y)%Q -> roundHalfEven x = roundHalfEven y.
Proof.
  intros H. unfold roundHalfEven.
  rewrite (Qfloor_comp x y H).
  assert (Hc : (x - inject_Z (Qfloor y) ?= 1 # 2)%Q
               = (y - inject_Z (Qfloor y) ?= 1 # 2)%Q).
  { apply Qcompare_comp; [|reflexivity]. rewrite H. reflexivity. }
  rewrite Hc. reflexivity.
Qed.

Lemma roundHalfEven_cases (x : Q) :
  let n := Qfloor x in
  ((x - inject_Z n < 1 # 2)%Q /\ roundHalfEven x = n)
  \/ ((x - inject_Z n == 1 # 2)%Q
      /\ roundHalfEven x = if Z.even n then n else n + 1)
  \/ ((1 # 2 < x - inject_Z n)%Q /\ roundHalfEven x = n + 1).
Proof.
  intros n. unfold roundHalfEven. fold n.
  destruct (Qcompare_spec (x - inject_Z n) (1 # 2)) as [H|H|H]; auto.
Qed.

Lemma round_nearest_even_inbetween (m : Z) (l : location) (y : Q) :
  inbetween m l y -> round_nearest_even m l = roundHalfEven y.
Proof.
  intros Hy.
  assert (Hfl : Qfloor y = m).
  { apply Qfloor_unique; rewrite ?inject_Z_plus; change (inject_Z 1) with 1%Q;
      destruct l as [|[]]; simpl in Hy; lra. }
  destruct (roundHalfEven_cases y) as [(H & ->)|[(H & ->)|(H & ->)]];
    rewrite Hfl in *; destruct l as [|[]]; simpl in *; try reflexivity; lra.
Qed.

Lemma roundHalfEven_Z (n : Z) : roundHalfEven (inject_Z n) = n.
Proof.
  rewrite <- (round_nearest_even_inbetween n loc_Exact (inject_Z n)); simpl; done.
Qed.

Lemma roundHalfEven_mono (x y : Q) :
  (x <= y)%Q -> roundHalfEven x <= roundHalfEven y.
Proof.
  intros Hxy.
  pose proof (Qfloor_resp_le x y Hxy) as Hfl.
  pose proof (Qfloor_le x) as Hx1. pose proof (Qlt_floor x) as Hx2.
  pose proof (Qfloor_le y) as Hy1. pose proof (Qlt_floor y) as Hy2.
  rewrite inject_Z_plus in Hx2, Hy2. change (inject_Z 1) with 1%Q in Hx2, Hy2.
  destruct (Z.eq_dec (Qfloor x) (Qfloor y)) as [Heq|Hne].
  - destruct (roundHalfEven_cases x) as [(Hx & ->)|[(Hx & ->)|(Hx & ->)]];
    destruct (roundHalfEven_cases y) as [(Hy & ->)|[(Hy & ->)|(Hy & ->)]];
      rewrite <- ?Heq in *; try destruct (Z.even (Qfloor x)); try lia; lra.
  - assert (Hlt : Qfloor x + 1 <= Qfloor y) by lia.
    destruct (roundHalfEven_cases x) as [(Hx & ->)|[(Hx & ->)|(Hx & ->)]];
    destruct (roundHalfEven_cases y) as [(Hy & ->)|[(Hy & ->)|(Hy & ->)]];
      try destruct (Z.even (Qfloor x)); try destruct (Z.even (Qfloor y)); lia.
Qed.

Lemma roundHalfEven_le_Z (x : Q) (n : Z) :
  (x <= inject_Z n)%Q -> roundHalfEven x <= n.
Proof.
  intros H. rewrite <- (roundHalfEven_Z n). by apply roundHalfEven_mono.
Qed.

Lemma roundHalfEven_ge_Z (x : Q) (n : Z) :
  (inject_Z n <= x)%Q -> n <= roundHalfEven x.
Proof.
  intros H. rewrite <- (roundHalfEven_Z n) at 1. by apply roundHalfEven_mono.
Qed.

(** ** The value [binary_round_aux] returns *)

Lemma Zdigits2_bound (m k : Z) : 0 <= m -> 0 <= k -> Zdigits2 m <= k -> m < 2 ^ k.
Proof.
  intros Hm Hk Hd. destruct (Z.eq_dec m 0) as [->|Hne].
  - apply Z.pow_pos_nonneg; lia.
  - rewrite Zdigits2_log2 in Hd by lia.
    apply Z.log2_lt_pow2; lia.
Qed.

(** The first shift of [binary_round_aux]: by [n] digits, to a mantissa of
    at most 53 digits. *)
Lemma shr_fexp_inbetween (mx ex : Z) (lx : location) (y : Q) :
  0 <= mx -> inbetween mx lx y ->
  let g := Z.max (Zdigits2 mx + ex - 53) (-1074) in
  let n := Z.max 0 (g - ex) in
  let r1 := fst (shr_fexp prec emax mx ex lx) in
  snd (shr_fexp prec emax mx ex lx) = ex + n
  /\ 0 <= shr_m r1 < 2 ^ 53
  /\ inbetween (shr_m r1) (loc_of_shr_record r1) (y / 2 ^ n).
Proof.
  intros Hm Hy g n r1. subst r1.
  pose proof (Zdigits2_nonneg mx) as Hd0.
  unfold shr_fexp, fexp, emin, prec, emax. change (3 - 1024 - 53) with (-1074).
  fold g. unfold shr.
  pose proof (inbetween_record_of_loc mx lx y Hy) as Hrec.
  destruct (g - ex) as [|p|p] eqn:E; simpl fst; simpl snd.
  - assert (Hn : n = 0) by (unfold n; lia). rewrite Hn.
    rewrite shr_m_record_of_loc in *.
    split; [lia|]. split.
    + split; [exact Hm|]. apply Zdigits2_bound; [exact Hm|lia|unfold g in E; lia].
    + eapply inbetween_comp; [|exact Hrec]. simpl. field.
  - assert (Hn : n = Zpos p) by (unfold n; lia). rewrite Hn.
    destruct (iter_pos_shr_1_inbetween p (shr_record_of_loc mx lx) y)
      as [H1 I1]; [rewrite shr_m_record_of_loc; exact Hm|exact Hrec|].
    destruct (iter_pos_shr_1_digits p (shr_record_of_loc mx lx)) as [_ D1];
      [rewrite shr_m_record_of_loc; exact Hm|].
    rewrite shr_m_record_of_loc in D1.
    split; [lia|]. split; [|exact I1].
    split; [exact H1|]. apply Zdigits2_bound; [exact H1|lia|].
    rewrite D1. unfold g in E. lia.
  - assert (Hn : n = 0) by (unfold n; lia). rewrite Hn.
    rewrite shr_m_record_of_loc in *.
    split; [lia|]. split.
    + split; [exact Hm|]. apply Zdigits2_bound; [exact Hm|lia|unfold g in E; lia].
    + eapply inbetween_comp; [|exact Hrec]. simpl. field.
Qed.

(** What [binary_round_aux] returns: the number [y * 2^ex] rounded to the
    nearest multiple of [2^(ex + n)], ties to even, when that does not
    overflow. *)
Lemma binary_round_aux_value (s : bool) (mx ex : Z) (lx : location) (y : Q) :
  0 <= mx -> inbetween mx lx y ->
  let g := Z.max (Zdigits2 mx + ex - 53) (-1074) in
  let n := Z.max 0 (g - ex) in
  ex + n <= 970 ->
  let R := roundHalfEven (y / 2 ^ n) in
  (R = 0 /\ binary_round_aux prec emax s mx ex lx = S754_zero s)
  \/ (exists m e, binary_round_aux prec emax s mx ex lx = S754_finite s m e
        /\ (inject_Z (Zpos m) * 2 ^ e == inject_Z R * 2 ^ (ex + n))%Q).
Proof.
  intros Hm Hy g n Hex R. unfold binary_round_aux.
  destruct (shr_fexp_inbetween mx ex lx y Hm Hy) as (He1 & Hr1 & I1).
  fold g in He1, I1. fold n in He1, I1.
  destruct (shr_fexp prec emax mx ex lx) as [r1 e1].
  simpl fst in *. simpl snd in *.
  rewrite (round_nearest_even_inbetween _ _ _ I1). fold R.
  pose proof (round_nearest_even_bounds (shr_m r1) (loc_of_shr_record r1)) as Hb.
  rewrite (round_nearest_even_inbetween _ _ _ I1) in Hb. fold R in Hb.
  assert (Hg : -1074 <= e1) by (unfold n, g in *; lia).
  assert (HR : 0 <= R <= 2 ^ 53) by lia.
  destruct (Z.eq_dec R (2 ^ 53)) as [HR53|HR53].
  - right. rewrite HR53.
    assert (Hsh : shr_fexp prec emax (2 ^ 53) e1 loc_Exact
                  = ({| shr_m := 4503599627370496; shr_r := false; shr_s := false |},
                     e1 + 1)).
    { pose proof (shr_fexp_exact 4503599627370496 e1 (e1 + 1)) as H.
      replace (e1 + 1 - e1) with 1 in H by lia.
      apply H; [lia|lia|].
      change (Zdigits2 (4503599627370496 * 2 ^ 1)) with 54. lia. }
    rewrite Hsh. simpl shr_m. unfold emax, prec. change (1024 - 53) with 971.
    destruct (Z.leb_spec (e1 + 1) 971); [|lia].
    exists 4503599627370496%positive, (e1 + 1). split; [reflexivity|].
    rewrite He1, pow2_add. change (2 ^ 1)%Q with 2%Q.
    change (inject_Z (2 ^ 53)) with (inject_Z 4503599627370496 * 2)%Q. ring.
  - assert (HR' : 0 <= R < 2 ^ 53) by lia.
    rewrite shr_fexp_noshift.
    2:{ destruct (Z.eq_dec R 0) as [->|HR0]; [simpl; lia|].
        pose proof (Zdigits2_below R 53 ltac:(lia)). lia. }
    simpl shr_m. destruct R as [|p|p] eqn:ER; [left; done| |lia].
    right. unfold emax, prec. change (1024 - 53) with 971.
    destruct (Z.leb_spec e1 971); [|lia].
    exists p, e1. split; [reflexivity|]. rewrite He1. reflexivity.
Qed.

Lemma Zdigits2_spec (m : Z) :
  0 < m -> 2 ^ (Zdigits2 m - 1) <= m < 2 ^ Zdigits2 m.
Proof.
  intros Hm. rewrite Zdigits2_log2 by exact Hm.
  replace (Z.log2 m + 1 - 1) with (Z.log2 m) by lia.
  apply Z.log2_spec, Hm.
Qed.

Lemma RN_comp (x x' : Q) (g : Z) : (x == x')%Q -> (RN x g == RN x' g)%Q.
Proof.
  intros H. unfold RN.
  rewrite (roundHalfEven_comp (x / 2 ^ g) (x' / 2 ^ g)); [reflexivity|].
  rewrite H. reflexivity.
Qed.

(** A multiple of [2^g] is left as it is. *)
Lemma RN_multiple (z g : Z) : (RN (inject_Z z * 2 ^ g) g == inject_Z z * 2 ^ g)%Q.
Proof.
  unfold RN. pose proof (pow2_pos g) as Hp.
  rewrite (roundHalfEven_comp _ (inject_Z z)); [|field; lra].
  rewrite roundHalfEven_Z. reflexivity.
Qed.

Lemma RN_coarser (x : Q) (z g g' : Z) :
  g' <= g -> (x == inject_Z z * 2 ^ g)%Q -> (RN x g' == x)%Q.
Proof.
  intros Hg Hx.
  assert (Hx' : (x == inject_Z (z * 2 ^ (g - g')) * 2 ^ g')%Q).
  { rewrite Hx, inject_Z_mult, <- pow2_inject by lia.
    rewrite <- Qmult_assoc, <- pow2_add.
    replace (g - g' + g') with g by lia. reflexivity. }
  rewrite (RN_comp _ _ _ Hx'), RN_multiple, <- Hx'. reflexivity.
Qed.

(** The rounding of [binary_round_aux], in terms of the number rounded. *)
Lemma round_value (s : bool) (mx ex : Z) (lx : location) (y : Q) :
  0 < mx -> inbetween mx lx y ->
  let X := (y * 2 ^ ex)%Q in
  let k := Zdigits2 mx + ex - 1 in
  binade X k
  /\ (ex <= 970 -> k <= 1022 ->
      lx = loc_Exact \/ ex <= Z.max (k - 52) (-1074) ->
      (binary_round_aux prec emax s mx ex lx = S754_zero s /\ (fl X k == 0)%Q)
      \/ (exists m e, binary_round_aux prec emax s mx ex lx = S754_finite s m e
            /\ (inject_Z (Zpos m) * 2 ^ e == fl X k)%Q)).
Proof.
  intros Hm Hy X k.
  pose proof (Zdigits2_spec mx Hm) as [Hd1 Hd2].
  pose proof (Zdigits2_nonneg mx) as Hd0.
  assert (Hd : 1 <= Zdigits2 mx).
  { destruct (Z.le_gt_cases 1 (Zdigits2 mx)); [done|].
    replace (Zdigits2 mx) with 0 in Hd2 by lia. simpl in Hd2. lia. }
  pose proof (pow2_pos ex) as Hpe.
  assert (Hylo : (inject_Z mx <= y)%Q /\ (y < inject_Z mx + 1)%Q)
    by (destruct lx as [|[]]; simpl in Hy; lra).
  assert (Hbin : binade X k).
  { unfold binade, X, k.
    replace (Zdigits2 mx + ex - 1) with (Zdigits2 mx - 1 + ex) by lia.
    replace (Zdigits2 mx - 1 + ex + 1) with (Zdigits2 mx + ex) by lia.
    rewrite !pow2_add.
    rewrite (pow2_inject (Zdigits2 mx - 1)), (pow2_inject (Zdigits2 mx)) by lia.
    rewrite Zle_Qle in Hd1.
    assert (Hd2' : (inject_Z mx + 1 <= inject_Z (2 ^ Zdigits2 mx))%Q).
    { change 1%Q with (inject_Z 1). rewrite <- inject_Z_plus, <- Zle_Qle. lia. }
    set (A := inject_Z (2 ^ (Zdigits2 mx - 1))) in *.
    set (B := inject_Z (2 ^ Zdigits2 mx)) in *.
    set (E := (2 ^ ex)%Q) in *. clearbody A B E.
    split.
    - apply Qmult_le_compat_r; lra.
    - apply Qmult_lt_compat_r; lra. }
  split; [exact Hbin|]. intros Hex Hk Hcase.
  pose proof (binary_round_aux_value s mx ex lx y ltac:(lia) Hy) as Hv.
  cbv zeta in Hv.
  replace (Zdigits2 mx + ex - 53) with (k - 52) in Hv by (unfold k; lia).
  set (g := Z.max (k - 52) (-1074)) in *.
  set (n := Z.max 0 (g - ex)) in *.
  specialize (Hv ltac:(unfold n, g; lia)).
  assert (Hfl : (inject_Z (roundHalfEven (y / 2 ^ n)) * 2 ^ (ex + n) == fl X k)%Q).
  { unfold fl. fold g. destruct (Z.le_gt_cases ex g) as [Hge|Hlt].
    - assert (Hn : ex + n = g) by (unfold n; lia). rewrite Hn. unfold RN.
      rewrite (roundHalfEven_comp (X / 2 ^ g) (y / 2 ^ n)); [reflexivity|].
      unfold X. rewrite <- Hn, pow2_add.
      pose proof (pow2_pos n). field. lra.
    - assert (Hn : n = 0) by (unfold n; lia).
      destruct Hcase as [->|Hc]; [|lia]. simpl in Hy.
      rewrite Hn, Z.add_0_r.
      rewrite (roundHalfEven_comp _ (inject_Z mx)) by (rewrite Hy; simpl; field).
      rewrite roundHalfEven_Z.
      assert (HX : (X == inject_Z mx * 2 ^ ex)%Q) by (unfold X; rewrite Hy; reflexivity).
      rewrite (RN_coarser X mx ex g ltac:(lia) HX). rewrite HX. reflexivity. }
  destruct Hv as [(HR & ->)|(m & e & -> & Hme)].
  - left. split; [reflexivity|]. rewrite <- Hfl, HR. ring.
  - right. exists m, e. split; [reflexivity|]. rewrite Hme. exact Hfl.
Qed.

(** ** Multiplication *)

Lemma dmul_value (m1 m2 : positive) (e1 e2 : Z) :
  let x := S754_finite false m1 e1 in
  let y := S754_finite false m2 e2 in
  let P := (valueQ x * valueQ y)%Q in
  let k := Zdigits2 (Zpos (m1 * m2)) + (e1 + e2) - 1 in
  binade P k
  /\ (e1 + e2 <= 970 -> k <= 1022 ->
      zero_or_finite false (dmul x y) /\ (valueQ (dmul x y) == fl P k)%Q).
Proof.
  intros x y P k.
  assert (HP : (P == inject_Z (Zpos (m1 * m2)) * 2 ^ (e1 + e2))%Q).
  { unfold P, x, y. rewrite !valueQ_finite, Pos2Z.inj_mul, inject_Z_mult, pow2_add.
    ring. }
  destruct (round_value false (Zpos (m1 * m2)) (e1 + e2) loc_Exact
              (inject_Z (Zpos (m1 * m2))) ltac:(lia) ltac:(simpl; reflexivity))
    as [Hbin Hval].
  fold k in Hbin, Hval.
  assert (Hbin' : binade P k).
  { unfold binade in *. rewrite HP. exact Hbin. }
  split; [exact Hbin'|]. intros He Hk.
  specialize (Hval He Hk (or_introl eq_refl)).
  unfold dmul, x, y, SFmul. simpl xorb.
  assert (Hfl : (fl (inject_Z (Zpos (m1 * m2)) * 2 ^ (e1 + e2)) k == fl P k)%Q)
    by (apply RN_comp; rewrite HP; reflexivity).
  destruct Hval as [(-> & H0)|(m & e & -> & Hme)].
  - split; [constructor|]. rewrite <- Hfl, H0. reflexivity.
  - split; [constructor|]. rewrite valueQ_finite, Hme. exact Hfl.
Qed.

(** ** Division *)

(** The location [SFdiv_core_binary] gives to a quotient with remainder. *)
Lemma new_location_inbetween (m2 q r : Z) :
  0 < m2 -> 0 <= r < m2 ->
  inbetween q (new_location m2 r) (inject_Z (m2 * q + r) / inject_Z m2).
Proof.
  intros Hm2 Hr.
  assert (Hb : (0 < inject_Z m2)%Q) by (rewrite <- (Zlt_Qlt 0); exact Hm2).
  assert (Hy : (inject_Z (m2 * q + r) / inject_Z m2
                == inject_Z q + inject_Z r / inject_Z m2)%Q).
  { rewrite inject_Z_plus, inject_Z_mult. field. lra. }
  apply (inbetween_comp _ _ _ _ (Qeq_sym _ _ Hy)).
  assert (Hfrac : forall c : Z,
            (inject_Z r / inject_Z m2 ?= 1 # 2)%Q = (2 * r ?= m2)).
  { intros _. unfold Qcompare, Qdiv, Qmult, Qinv. simpl.
    destruct m2 as [|p|p]; try lia. simpl. f_equal; lia. }
  assert (Hlt1 : (inject_Z r / inject_Z m2 < 1)%Q).
  { apply Qlt_shift_div_r; [exact Hb|]. rewrite Qmult_1_l, <- Zlt_Qlt. lia. }
  assert (Hge0 : r <> 0 -> (0 < inject_Z r / inject_Z m2)%Q).
  { intros Hr0. apply Qlt_shift_div_l; [exact Hb|].
    rewrite Qmult_0_l, <- (Zlt_Qlt 0). lia. }
  specialize (Hfrac 0).
  assert (Hexact : r = 0 -> (inject_Z q + inject_Z r / inject_Z m2 == inject_Z q)%Q).
  { intros ->. unfold Qdiv. rewrite Qmult_0_l. ring. }
  set (f := (inject_Z r / inject_Z m2)%Q) in *. clearbody f.
  unfold new_location.
  destruct (Z.even m2) eqn:Hev; unfold new_location_even, new_location_odd;
    (destruct (Z.eqb_spec r 0) as [Hr0|Hr0]; [exact (Hexact Hr0)|]);
    specialize (Hge0 Hr0).
  - destruct (Z.compare_spec (2 * r) m2) as [Hc|Hc|Hc]; simpl.
    + apply Qeq_alt in Hfrac. lra.
    + apply Qlt_alt in Hfrac. lra.
    + apply Qgt_alt in Hfrac. lra.
  - assert (Hodd : 2 * r <> m2).
    { intros <-. rewrite Z.even_mul in Hev. discriminate. }
    destruct (Z.compare_spec (2 * r + 1) m2) as [Hc|Hc|Hc]; simpl.
    + assert (Hc' : (2 * r ?= m2) = Lt) by (apply Z.compare_lt_iff; lia).
      rewrite Hc' in Hfrac. apply Qlt_alt in Hfrac. lra.
    + assert (Hc' : (2 * r ?= m2) = Lt) by (apply Z.compare_lt_iff; lia).
      rewrite Hc' in Hfrac. apply Qlt_alt in Hfrac. lra.
    + assert (Hc' : (2 * r ?= m2) = Gt) by (apply Z.compare_gt_iff; lia).
      rewrite Hc' in Hfrac. apply Qgt_alt in Hfrac. lra.
Qed.

Lemma ddiv_value (m1 m2 : positive) (e1 e2 : Z) :
  let x := S754_finite false m1 e1 in
  let y := S754_finite false m2 e2 in
  let X := (valueQ x / valueQ y)%Q in
  -1021 <= Zdigits2 (Zpos m1) + e1 - (Zdigits2 (Zpos m2) + e2) ->
  exists k, binade X k
    /\ (k <= 1022 ->
        zero_or_finite false (ddiv x y) /\ (valueQ (ddiv x y) == fl X k)%Q).
Proof.
  intros x y X HD.
  pose proof (Zdigits2_spec (Zpos m1) ltac:(lia)) as [Hd1 Hd1'].
  pose proof (Zdigits2_spec (Zpos m2) ltac:(lia)) as [Hd2 Hd2'].
  assert (Hd1p : 1 <= Zdigits2 (Zpos m1)) by (simpl; lia).
  assert (Hd2p : 1 <= Zdigits2 (Zpos m2)) by (simpl; lia).
  unfold ddiv, x, y, SFdiv, SFdiv_core_binary.
  unfold fexp, emin. change (3 - emax - prec) with (-1074).
  set (d1 := Zdigits2 (Zpos m1)) in *. set (d2 := Zdigits2 (Zpos m2)) in *.
  set (D := d1 + e1 - (d2 + e2)) in *. change (D - prec) with (D - 53).
  replace (Z.max (D - 53) (-1074)) with (D - 53) by lia.
  set (e' := Z.min (D - 53) (e1 - e2)).
  set (s := e1 - e2 - e').
  assert (Hs : 53 - d1 + d2 <= s) by (unfold s, e', D; lia).
  assert (Hs0 : 0 <= s) by (unfold s, e'; lia).
  set (m' := match s with
             | Z0 => Zpos m1 | Zpos _ => Z.shiftl (Zpos m1) s | Zneg _ => 0
             end).
  assert (Hm' : m' = Zpos m1 * 2 ^ s).
  { unfold m'. destruct s; rewrite ?Z.shiftl_mul_pow2 by lia; simpl; lia. }
  clearbody m'.
  pose proof (Z_div_mod m' (Zpos m2) eq_refl) as Hdiv.
  destruct (Z.div_eucl m' (Zpos m2)) as [q r]. destruct Hdiv as [Hq Hr].
  assert (Hq52 : 2 ^ 52 <= q).
  { assert (H1 : 2 ^ (d1 - 1) * 2 ^ s <= m').
    { rewrite Hm'. apply Z.mul_le_mono_nonneg_r; [|exact Hd1].
      apply Z.pow_nonneg. lia. }
    assert (H2 : 2 ^ 52 * 2 ^ d2 <= 2 ^ (d1 - 1) * 2 ^ s).
    { rewrite <- !Z.pow_add_r by lia. apply Z.pow_le_mono_r; lia. }
    assert (H3 : 2 ^ 52 * Zpos m2 < 2 ^ 52 * 2 ^ d2) by lia.
    nia. }
  assert (Hdq : 53 <= Zdigits2 q).
  { destruct (Z.le_gt_cases 53 (Zdigits2 q)) as [|Hlt]; [done|].
    pose proof (Zdigits2_bound q 52 ltac:(lia) ltac:(lia) ltac:(lia)). lia. }
  destruct (round_value false q e' (new_location (Zpos m2) r)
              (inject_Z (Zpos m2 * q + r) / inject_Z (Zpos m2))
              ltac:(lia) (new_location_inbetween (Zpos m2) q r ltac:(lia) Hr))
    as [Hbin Hval].
  set (k := Zdigits2 q + e' - 1) in *.
  assert (HX : (inject_Z (Zpos m2 * q + r) / inject_Z (Zpos m2) * 2 ^ e' == X)%Q).
  { rewrite <- Hq, Hm'. unfold X, x, y. rewrite !valueQ_finite.
    rewrite inject_Z_mult, <- pow2_inject by lia.
    assert (He1 : (2 ^ e1 == 2 ^ s * 2 ^ e' * 2 ^ e2)%Q).
    { rewrite <- !pow2_add. replace (s + e' + e2) with e1 by (unfold s; lia).
      reflexivity. }
    rewrite He1.
    pose proof (pow2_pos e2). pose proof (pow2_pos s). pose proof (pow2_pos e').
    assert (0 < inject_Z (Zpos m2))%Q by (rewrite <- (Zlt_Qlt 0); lia).
    set (A := (2 ^ e2)%Q) in *. set (B := (2 ^ s)%Q) in *.
    set (C := (2 ^ e')%Q) in *. clearbody A B C.
    field. split; lra. }
  exists k. split.
  - unfold binade in *. rewrite <- HX. exact Hbin.
  - intros Hk. simpl xorb.
    assert (He970 : e' <= 970) by (unfold k in Hk; lia).
    assert (Heg : e' <= Z.max (k - 52) (-1074)) by (unfold k; lia).
    specialize (Hval He970 Hk (or_intror Heg)).
    assert (Hfl : (fl (inject_Z (Zpos m2 * q + r) / inject_Z (Zpos m2) * 2 ^ e') k
                   == fl X k)%Q) by (apply RN_comp; exact HX).
    rewrite <- Hq in Hval.
    destruct Hval as [(-> & H0)|(m & e & -> & Hme)].
    + split; [constructor|]. rewrite <- Hfl, <- Hq, H0. reflexivity.
    + split; [constructor|]. rewrite valueQ_finite, Hme, <- Hfl, <- Hq. reflexivity.
Qed.

(** ** Rounding to binary64 as a function of the number rounded *)

Lemma binade_mono (x x' : Q) (k k' : Z) :
  (x <= x')%Q -> binade x k -> binade x' k' -> k <= k'.
Proof.
  intros Hxx [Hlo _] [_ Hhi'].
  destruct (Z.le_gt_cases k k') as [|Hlt]; [done|].
  pose proof (pow2_le (k' + 1) k ltac:(lia)). lra.
Qed.

Lemma binade_pos (x : Q) (k : Z) : binade x k -> (0 < x)%Q.
Proof. intros [Hlo _]. pose proof (pow2_pos k). lra. Qed.

Lemma binade_lt (x : Q) (k K : Z) : binade x k -> (x < 2 ^ K)%Q -> k < K.
Proof.
  intros [Hlo _] Hx. apply pow2_lt_inv. lra.
Qed.

Lemma binade_ge (x : Q) (k K : Z) : binade x k -> (2 ^ K <= x)%Q -> K <= k.
Proof.
  intros [_ Hhi] Hx.
  assert (K < k + 1) by (apply pow2_lt_inv; lra). lia.
Qed.

Lemma Qdiv_pow2_le (x y : Q) (g : Z) : (x <= y)%Q -> (x / 2 ^ g <= y / 2 ^ g)%Q.
Proof.
  intros H. pose proof (pow2_pos g) as Hp.
  apply Qmult_le_compat_r; [exact H|].
  apply Qlt_le_weak, Qinv_lt_0_compat, Hp.
Qed.

Lemma RN_mono (x y : Q) (g : Z) : (x <= y)%Q -> (RN x g <= RN y g)%Q.
Proof.
  intros H. unfold RN. pose proof (pow2_pos g) as Hp.
  apply Qmult_le_compat_r; [|lra].
  rewrite <- Zle_Qle. apply roundHalfEven_mono, Qdiv_pow2_le, H.
Qed.

Lemma RN_le_multiple (x : Q) (z g : Z) :
  (x <= inject_Z z * 2 ^ g)%Q -> (RN x g <= inject_Z z * 2 ^ g)%Q.
Proof.
  intros H. rewrite <- (RN_multiple z g). by apply RN_mono.
Qed.

Lemma RN_ge_multiple (x : Q) (z g : Z) :
  (inject_Z z * 2 ^ g <= x)%Q -> (inject_Z z * 2 ^ g <= RN x g)%Q.
Proof.
  intros H. rewrite <- (RN_multiple z g) at 1. by apply RN_mono.
Qed.

Lemma pow2_multiple (a g : Z) :
  g <= a -> (2 ^ a == inject_Z (2 ^ (a - g)) * 2 ^ g)%Q.
Proof.
  intros H. rewrite <- pow2_inject, <- pow2_add by lia.
  replace (a - g + g) with a by lia. reflexivity.
Qed.

(** A rounded number stays in the closure of its binade. *)
Lemma fl_binade (x : Q) (k : Z) :
  -1074 <= k -> binade x k -> (2 ^ k <= fl x k <= 2 ^ (k + 1))%Q.
Proof.
  intros Hk [Hlo Hhi]. unfold fl. set (g := Z.max (k - 52) (-1074)).
  assert (Hg : g <= k) by (unfold g; lia).
  split.
  - rewrite (pow2_multiple k g Hg). apply RN_ge_multiple.
    rewrite <- (pow2_multiple k g Hg). exact Hlo.
  - rewrite (pow2_multiple (k + 1) g ltac:(lia)). apply RN_le_multiple.
    rewrite <- (pow2_multiple (k + 1) g ltac:(lia)). lra.
Qed.

(** Rounding to binary64 is monotone. *)
Lemma fl_mono (x x' : Q) (k k' : Z) :
  -1074 <= k -> (x <= x')%Q -> binade x k -> binade x' k' ->
  (fl x k <= fl x' k')%Q.
Proof.
  intros Hk Hxx Hb Hb'.
  pose proof (binade_mono x x' k k' Hxx Hb Hb') as Hkk.
  destruct (Z.eq_dec k k') as [<-|Hne].
  - unfold fl. by apply RN_mono.
  - pose proof (fl_binade x k Hk Hb) as [_ H1].
    pose proof (fl_binade x' k' ltac:(lia) Hb') as [H2 _].
    pose proof (pow2_le (k + 1) k' ltac:(lia)). lra.
Qed.

(** A number with a mantissa below [2^53] is left as it is. *)
Lemma fl_exact (x : Q) (k z e : Z) :
  binade x k -> 0 < z < 2 ^ 53 -> -1074 <= e ->
  (x == inject_Z z * 2 ^ e)%Q -> (fl x k == x)%Q.
Proof.
  intros Hb Hz He Hx. unfold fl.
  apply (RN_coarser x z e); [|exact Hx].
  assert (Hlt : (x < 2 ^ (53 + e))%Q).
  { rewrite Hx, pow2_add, (pow2_inject 53) by lia. pose proof (pow2_pos e).
    apply Qmult_lt_compat_r; [lra|]. rewrite <- Zlt_Qlt. lia. }
  pose proof (binade_lt x k (53 + e) Hb Hlt). lia.
Qed.

(** Rounding to binary64 moves a number of the normal range by at most
    [2^-53] of its size. *)
Lemma fl_error (x : Q) (k : Z) :
  -1022 <= k -> binade x k ->
  (x - x * (1 # 2 ^ 53) <= fl x k <= x + x * (1 # 2 ^ 53))%Q.
Proof.
  intros Hk [Hlo Hhi]. unfold fl.
  replace (Z.max (k - 52) (-1074)) with (k - 52) by lia.
  unfold RN. pose proof (pow2_pos (k - 52)) as Hp.
  pose proof (roundHalfEven_near (x / 2 ^ (k - 52))) as [Hn1 Hn2].
  set (R := inject_Z (roundHalfEven (x / 2 ^ (k - 52)))) in *. clearbody R.
  assert (Hx : (x == x / 2 ^ (k - 52) * 2 ^ (k - 52))%Q) by (field; lra).
  assert (Hhalf : ((1 # 2) * 2 ^ (k - 52) <= x * (1 # 2 ^ 53))%Q).
  { assert (Hk2 : (2 ^ k == 2 ^ 52 * 2 ^ (k - 52))%Q).
    { rewrite <- pow2_add. replace (52 + (k - 52)) with k by lia. reflexivity. }
    rewrite Hk2 in Hlo. change (2 ^ 52)%Q with (inject_Z (2 ^ 52)) in Hlo.
    set (P := (2 ^ (k - 52))%Q) in *. clearbody P.
    change (inject_Z (2 ^ 52)) with (4503599627370496 # 1)%Q in Hlo.
    change (1 # 2 ^ 53)%Q with (1 # 9007199254740992)%Q. lra. }
  set (t := (x / 2 ^ (k - 52))%Q) in *. clearbody t.
  set (P := (2 ^ (k - 52))%Q) in *. clearbody P.
  split.
  - assert ((t - (1 # 2)) * P <= R * P)%Q by (apply Qmult_le_compat_r; lra). lra.
  - assert (R * P <= (t + (1 # 2)) * P)%Q by (apply Qmult_le_compat_r; lra). lra.
Qed.

(** ** The frame of a marker *)

Lemma finite_exp_lt (m : positive) (e K : Z) :
  (inject_Z (Zpos m) * 2 ^ e < 2 ^ K)%Q -> e < K.
Proof.
  intros H. apply pow2_lt_inv. pose proof (pow2_pos e) as Hp.
  assert (H1 : (1 <= inject_Z (Zpos m))%Q).
  { change 1%Q with (inject_Z 1). rewrite <- Zle_Qle. lia. }
  assert (H2 : (1 * 2 ^ e <= inject_Z (Zpos m) * 2 ^ e)%Q)
    by (apply Qmult_le_compat_r; lra).
  lra.
Qed.

Lemma inject_Z_pos (z : Z) : 0 < z -> (0 < inject_Z z)%Q.
Proof. intros H. by rewrite <- (Zlt_Qlt 0). Qed.

Lemma inject_Z_lt_pow2 (z n : Z) : 0 <= n -> z < 2 ^ n -> (inject_Z z < 2 ^ n)%Q.
Proof. intros Hn H. rewrite pow2_inject by exact Hn. by rewrite <- Zlt_Qlt. Qed.

(** The quotient of two positive integers below [2^53]. *)
Lemma ddiv_Z_value (p L : Z) :
  0 < p < 2 ^ 53 -> 0 < L < 2 ^ 53 ->
  let X := (inject_Z p / inject_Z L)%Q in
  exists k, binade X k /\ -53 <= k < 53
    /\ zero_or_finite false (ddiv (double_of_Z p) (double_of_Z L))
    /\ (valueQ (ddiv (double_of_Z p) (double_of_Z L)) == fl X k)%Q.
Proof.
  intros Hp HL X.
  destruct (double_of_Z_pos p Hp) as (m1 & e1 & -> & Hd1 & He1 & Hr1).
  destruct (double_of_Z_pos L HL) as (m2 & e2 & -> & Hd2 & He2 & Hr2).
  pose proof (Zdigits2_below p 53 Hp) as Hdp.
  pose proof (Zdigits2_below L 53 HL) as HdL.
  pose proof (Zdigits2_spec p ltac:(lia)) as [_ Hp2].
  pose proof (Zdigits2_spec L ltac:(lia)) as [_ HL2].
  pose proof (Zdigits2_nonneg p). pose proof (Zdigits2_nonneg L).
  destruct (ddiv_value m1 m2 e1 e2) as (k & Hbin & Hval);
    [simpl Zdigits2; lia|].
  pose proof (represents_value _ _ _ Hr1) as Hv1.
  pose proof (represents_value _ _ _ Hr2) as Hv2.
  pose proof (inject_Z_pos p ltac:(lia)) as Hp0.
  pose proof (inject_Z_pos L ltac:(lia)) as HL0.
  assert (HX : (valueQ (S754_finite false m1 e1) / valueQ (S754_finite false m2 e2)
                == X)%Q) by (unfold X; rewrite Hv1, Hv2; reflexivity).
  assert (Hbin' : binade X k).
  { unfold binade in *. rewrite <- HX. exact Hbin. }
  pose proof (inject_Z_lt_pow2 p 53 ltac:(lia) ltac:(lia)) as Hp53.
  pose proof (inject_Z_lt_pow2 L 53 ltac:(lia) ltac:(lia)) as HL53.
  assert (H1p : (1 <= inject_Z p)%Q).
  { change 1%Q with (inject_Z 1). rewrite <- Zle_Qle. lia. }
  assert (H1L : (1 <= inject_Z L)%Q).
  { change 1%Q with (inject_Z 1). rewrite <- Zle_Qle. lia. }
  assert (Hhi : (X < 2 ^ 53)%Q).
  { unfold X. apply Qlt_shift_div_r; [exact HL0|].
    set (P := (2 ^ 53)%Q) in *. assert (0 < P)%Q by apply pow2_pos.
    clearbody P. nra. }
  assert (Hlo : (2 ^ (-53) <= X)%Q).
  { unfold X. apply Qle_shift_div_l; [exact HL0|].
    assert (Hq : (2 ^ (-53) * 2 ^ 53 == 1)%Q) by (rewrite <- pow2_add; reflexivity).
    assert (Hm : (2 ^ (-53) * inject_Z L <= 2 ^ (-53) * 2 ^ 53)%Q).
    { pose proof (pow2_pos (-53)). apply Qmult_le_l; lra. }
    lra. }
  exists k. split; [exact Hbin'|]. split.
  - pose proof (binade_lt X k 53 Hbin' Hhi).
    pose proof (binade_ge X k (-53) Hbin' Hlo). lia.
  - pose proof (binade_lt X k 53 Hbin' Hhi) as Hk.
    destruct (Hval ltac:(lia)) as [Hz Hv]. split; [exact Hz|].
    rewrite Hv. apply RN_comp, HX.
Qed.

(** The quotient grows with the dividend. *)
Lemma ddiv_Z_mono (p p' L : Z) :
  0 <= p <= p' -> p' < 2 ^ 53 -> 0 < L < 2 ^ 53 ->
  (valueQ (ddiv (double_of_Z p) (double_of_Z L))
   <= valueQ (ddiv (double_of_Z p') (double_of_Z L)))%Q.
Proof.
  intros Hp Hp' HL.
  destruct (Z.eq_dec p 0) as [->|Hp0].
  - destruct (double_of_Z_pos L HL) as (m2 & e2 & EL & _).
    assert (Hz : ddiv (double_of_Z 0) (double_of_Z L) = S754_zero false)
      by (rewrite EL; reflexivity).
    rewrite Hz. apply valueQ_zero_or_finite, ddiv_of_Z_finite; lia.
  - destruct (ddiv_Z_value p L ltac:(lia) HL) as (k & Hb & Hk & _ & ->).
    destruct (ddiv_Z_value p' L ltac:(lia) HL) as (k' & Hb' & Hk' & _ & ->).
    apply fl_mono; [lia| |exact Hb|exact Hb'].
    pose proof (inject_Z_pos L ltac:(lia)) as HL0.
    apply Qmult_le_compat_r.
    + rewrite <- Zle_Qle. lia.
    + apply Qlt_le_weak, Qinv_lt_0_compat, HL0.
Qed.

Lemma ddiv_Z_le_1 (p L : Z) :
  0 <= p <= L -> 0 < L < 2 ^ 53 ->
  (valueQ (ddiv (double_of_Z p) (double_of_Z L)) <= 1)%Q.
Proof.
  intros Hp HL.
  pose proof (ddiv_Z_mono p L L ltac:(lia) ltac:(lia) HL) as H.
  destruct (double_of_Z_pos L HL) as (m & e & EL & _).
  rewrite EL in H at 2 3. rewrite ddiv_self in H.
  change (valueQ (S754_finite false 4503599627370496 (-52))) with
    (4503599627370496 # 4503599627370496)%Q in H.
  assert (E1 : (4503599627370496 # 4503599627370496 == 1)%Q) by reflexivity.
  lra.
Qed.

(** The value of the quotient when it is not zero. *)
Lemma ddiv_Z_ge (p L : Z) :
  0 < p < 2 ^ 53 -> 0 < L < 2 ^ 53 ->
  (2 ^ (-53) <= valueQ (ddiv (double_of_Z p) (double_of_Z L)))%Q.
Proof.
  intros Hp HL.
  destruct (ddiv_Z_value p L Hp HL) as (k & Hb & Hk & _ & ->).
  pose proof (fl_binade _ k ltac:(lia) Hb) as [H _].
  pose proof (pow2_le (-53) k ltac:(lia)). lra.
Qed.

(** The product of a [double] of [[2^-53, 2^53]] and a positive integer
    below [2^53]. *)
Lemma dmul_Z_value (ma : positive) (ea N : Z) :
  let a := S754_finite false ma ea in
  (2 ^ (-53) <= valueQ a <= 2 ^ 53)%Q -> 0 < N < 2 ^ 53 ->
  let P := (valueQ a * inject_Z N)%Q in
  exists k, binade P k /\ -53 <= k < 106
    /\ zero_or_finite false (dmul a (double_of_Z N))
    /\ (valueQ (dmul a (double_of_Z N)) == fl P k)%Q.
Proof.
  intros a Ha HN P. subst a.
  set (a := S754_finite false ma ea) in *.
  destruct (double_of_Z_pos N HN) as (mN & eN & -> & _ & _ & HrN).
  pose proof (represents_value _ _ _ HrN) as HvN.
  pose proof (inject_Z_pos N ltac:(lia)) as HN0.
  pose proof (inject_Z_lt_pow2 N 53 ltac:(lia) ltac:(lia)) as HN53.
  assert (H1N : (1 <= inject_Z N)%Q).
  { change 1%Q with (inject_Z 1). rewrite <- Zle_Qle. lia. }
  destruct (dmul_value ma mN ea eN) as [Hbin Hval].
  set (k := Zdigits2 (Zpos (ma * mN)) + (ea + eN) - 1) in *.
  assert (HP : (valueQ (S754_finite false ma ea) * valueQ (S754_finite false mN eN)
                == P)%Q) by (unfold P, a; rewrite HvN; reflexivity).
  assert (Hbin' : binade P k).
  { unfold binade in *. rewrite <- HP. exact Hbin. }
  assert (Hea : ea < 54).
  { apply (finite_exp_lt ma). rewrite <- valueQ_finite. fold a.
    pose proof (pow2_lt 53 54 ltac:(lia)). lra. }
  assert (HeN : eN < 53).
  { apply (finite_exp_lt mN). rewrite <- valueQ_finite, HvN. exact HN53. }
  assert (Hhi : (P < 2 ^ 106)%Q).
  { unfold P. change 106 with (53 + 53). rewrite pow2_add.
    set (Q53 := (2 ^ 53)%Q) in *. set (v := valueQ a) in *.
    assert (0 < Q53)%Q by apply pow2_pos.
    pose proof (pow2_pos (-53)). clearbody Q53 v. nra. }
  assert (Hlo : (2 ^ (-53) <= P)%Q).
  { unfold P. set (q := (2 ^ (-53))%Q) in *. assert (0 < q)%Q by apply pow2_pos.
    set (v := valueQ a) in *. clearbody q v. nra. }
  pose proof (binade_lt P k 106 Hbin' Hhi).
  pose proof (binade_ge P k (-53) Hbin' Hlo).
  exists k. split; [exact Hbin'|]. split; [lia|].
  destruct (Hval ltac:(lia) ltac:(lia)) as [Hz Hv]. split; [exact Hz|].
  fold a in Hv. rewrite Hv. apply RN_comp, HP.
Qed.

Lemma unit_bound (v : Q) (q : Q) :
  (q <= v <= 1)%Q -> (q <= v <= 2 ^ 53)%Q.
Proof.
  intros [H1 H2]. split; [exact H1|].
  change (2 ^ 53)%Q with (inject_Z (2 ^ 53)).
  change (inject_Z (2 ^ 53)) with (9007199254740992 # 1)%Q. lra.
Qed.

Lemma ddiv_Z_unit (p L : Z) :
  0 <= p <= L -> 0 < L < 2 ^ 53 ->
  unit_fraction (ddiv (double_of_Z p) (double_of_Z L)).
Proof.
  intros Hp HL.
  pose proof (ddiv_of_Z_finite p L ltac:(lia) HL) as Hz.
  pose proof (ddiv_Z_le_1 p L Hp HL) as H1.
  destruct (Z.eq_dec p 0) as [->|Hp0].
  - left. destruct (double_of_Z_pos L HL) as (m2 & e2 & -> & _). reflexivity.
  - pose proof (ddiv_Z_ge p L ltac:(lia) HL) as H2.
    destruct Hz as [|m e].
    + change (valueQ (S754_zero false)) with 0%Q in H2.
      pose proof (pow2_pos (-53)). lra.
    + right. exists m, e. split; [reflexivity|]. split; assumption.
Qed.

Lemma dmul_unit_zof (a : double) (N : Z) :
  unit_fraction a -> 0 <= N < 2 ^ 53 ->
  zero_or_finite false (dmul a (double_of_Z N)).
Proof.
  intros Ha HN. destruct (Z.eq_dec N 0) as [->|HN0].
  - destruct Ha as [->|(m & e & -> & _)]; constructor.
  - destruct Ha as [->|(m & e & -> & Hv)].
    + destruct (double_of_Z_pos N ltac:(lia)) as (mN & eN & -> & _). constructor.
    + destruct (dmul_Z_value m e N (unit_bound _ _ Hv) ltac:(lia)) as (k & _ & _ & Hz & _).
      exact Hz.
Qed.

(** The product grows with the first factor. *)
Lemma dmul_Z_mono (a a' : double) (N : Z) :
  unit_fraction a -> unit_fraction a' -> (valueQ a <= valueQ a')%Q ->
  0 <= N < 2 ^ 53 ->
  (valueQ (dmul a (double_of_Z N)) <= valueQ (dmul a' (double_of_Z N)))%Q.
Proof.
  intros Ha Ha' Hle HN.
  pose proof (dmul_unit_zof a' N Ha' HN) as Hz'.
  destruct (Z.eq_dec N 0) as [->|HN0].
  - destruct Ha as [->|(m & e & -> & _)];
      destruct Ha' as [->|(m' & e' & -> & _)]; simpl; lra.
  - destruct Ha as [->|(m & e & -> & Hv)].
    + destruct (double_of_Z_pos N ltac:(lia)) as (mN & eN & EN & _).
      rewrite EN at 1. simpl dmul.
      change (valueQ (S754_zero false)) with 0%Q.
      apply valueQ_zero_or_finite, Hz'.
    + destruct Ha' as [->|(m' & e' & -> & Hv')].
      * change (valueQ (S754_zero false)) with 0%Q in Hle.
        pose proof (pow2_pos (-53)). lra.
      * destruct (dmul_Z_value m e N (unit_bound _ _ Hv) ltac:(lia)) as (k & Hb & Hk & _ & ->).
        destruct (dmul_Z_value m' e' N (unit_bound _ _ Hv') ltac:(lia)) as (k' & Hb' & Hk' & _ & ->).
        apply fl_mono; [lia| |exact Hb|exact Hb'].
        pose proof (inject_Z_pos N ltac:(lia)).
        apply Qmult_le_compat_r; lra.
Qed.

Lemma Qfloor_plus_half (z : Z) : Qfloor (inject_Z z + (1 # 2)) = z.
Proof.
  apply Qfloor_unique; rewrite ?inject_Z_plus; change (inject_Z 1) with 1%Q; lra.
Qed.

(** [(int)round(b)] before the range check: the nearest integer of the
    value of [b]. *)
Lemma truncZ_round_value (b : double) :
  zero_or_finite false b -> (valueQ b < 2 ^ 52)%Q ->
  truncZ (round b) = Some (Qfloor (valueQ b + (1 # 2))).
Proof.
  intros [|m e] Hb; [reflexivity|].
  assert (Hv0 : (0 <= valueQ (S754_finite false m e))%Q)
    by apply Qlt_le_weak, valueQ_finite_pos.
  unfold round. destruct (Z.leb_spec 0 e) as [He|He].
  - unfold truncZ, valueQ. destruct (Z.ltb_spec e 0); [lia|].
    simpl cond_Zopp. rewrite Qfloor_plus_half, Z.shiftl_mul_pow2 by lia.
    reflexivity.
  - assert (Hp : 0 < 2 ^ (- e)) by (apply Z.pow_pos_nonneg; lia).
    assert (Hp1 : 0 < 2 ^ (- e - 1)) by (apply Z.pow_pos_nonneg; lia).
    assert (Hpp : 2 ^ (- e) = 2 * 2 ^ (- e - 1)).
    { rewrite <- Z.pow_succ_r by lia. f_equal. lia. }
    assert (Hz : Z.shiftl (Zpos m + 2 ^ (- e - 1)) e
                 = Qfloor (valueQ (S754_finite false m e) + (1 # 2))).
    { rewrite <- (Z.opp_involutive e) at 2.
      rewrite Z.shiftl_opp_r, Z.shiftr_div_pow2, Zdiv_Qdiv by lia.
      apply Qfloor_comp. unfold valueQ.
      destruct (Z.ltb_spec e 0); [|lia].
      rewrite Qmake_Qdiv, Z2Pos.id by exact Hp.
      rewrite inject_Z_plus, Hpp, (inject_Z_mult 2).
      assert (0 < inject_Z (2 ^ (- e - 1)))%Q by (by apply inject_Z_pos).
      set (A := inject_Z (2 ^ (- e - 1))) in *. clearbody A.
      change (inject_Z 2) with 2%Q. field. lra. }
    rewrite Hz.
    set (z := Qfloor (valueQ (S754_finite false m e) + (1 # 2))) in *.
    assert (Hz0 : 0 <= z) by (apply Qfloor_nonneg; lra).
    assert (Hz53 : z < 2 ^ 53).
    { rewrite Zlt_Qlt. eapply Qle_lt_trans; [apply Qfloor_le|].
      change (inject_Z (2 ^ 53)) with (2 * 2 ^ 52)%Q.
      pose proof (pow2_pos 52). lra. }
    destruct z as [|q|q] eqn:Ez; [reflexivity| |lia].
    simpl cond_Zopp.
    destruct (double_of_Z_pos (Zpos q) ltac:(lia)) as (m' & e' & -> & _ & _ & Hrep).
    by apply (truncZ_represents false).
Qed.

Lemma unit_fraction_one : unit_fraction (S754_finite false 4503599627370496 (-52)).
Proof.
  right. eexists _, _. split; [reflexivity|]. split.
  - apply Qle_bool_iff. vm_compute. reflexivity.
  - apply Qle_bool_iff. vm_compute. reflexivity.
Qed.

Lemma dmul_one_value (N : Z) :
  0 <= N < 2 ^ 53 ->
  (valueQ (dmul (S754_finite false 4503599627370496 (-52)) (double_of_Z N))
   == inject_Z N)%Q.
Proof.
  intros HN. destruct (Z.eq_dec N 0) as [->|HN0]; [reflexivity|].
  destruct (double_of_Z_pos N ltac:(lia)) as (mN & eN & -> & _ & _ & HrepN).
  destruct (dmul_exact 4503599627370496 mN (-52) eN 1 N)
    as (m & e & -> & Hrep); [reflexivity|exact HrepN|lia|].
  rewrite Z.mul_1_l in Hrep. by apply represents_value.
Qed.

(** The frame of a marker within the musical length: the nearest integer
    of the binary64 product, between 0 and [lengthFrames]. *)
Lemma framePos_value (fPPQLength lengthFrames p : Z) :
  0 < fPPQLength <= INT_MAX -> 0 <= lengthFrames <= INT_MAX ->
  0 <= p <= fPPQLength ->
  let b := dmul (ddiv (double_of_Z p) (double_of_Z fPPQLength))
                (double_of_Z lengthFrames) in
  framePos fPPQLength lengthFrames p = Qfloor (valueQ b + (1 # 2))
  /\ 0 <= framePos fPPQLength lengthFrames p <= lengthFrames.
Proof.
  intros HL HN Hp b. unfold INT_MAX in HL, HN.
  pose proof (ddiv_Z_unit p fPPQLength Hp ltac:(lia)) as Ha.
  pose proof (ddiv_Z_le_1 p fPPQLength Hp ltac:(lia)) as Ha1.
  pose proof (dmul_unit_zof _ lengthFrames Ha ltac:(lia)) as Hb.
  fold b in Hb.
  assert (HbN : (valueQ b <= inject_Z lengthFrames)%Q).
  { rewrite <- (dmul_one_value lengthFrames) by lia.
    apply dmul_Z_mono; [exact Ha|apply unit_fraction_one| |lia].
    change (valueQ (S754_finite false 4503599627370496 (-52))) with
      (4503599627370496 # 4503599627370496)%Q.
    assert (E1 : (4503599627370496 # 4503599627370496 == 1)%Q) by reflexivity.
    lra. }
  pose proof (valueQ_zero_or_finite b Hb) as Hb0.
  assert (HN52 : (inject_Z lengthFrames < 2 ^ 52)%Q)
    by (apply inject_Z_lt_pow2; lia).
  pose proof (truncZ_round_value b Hb ltac:(lra)) as Htr.
  set (z := Qfloor (valueQ b + (1 # 2))) in *.
  assert (Hz : 0 <= z <= lengthFrames).
  { split; [apply Qfloor_nonneg; lra|].
    rewrite <- (Qfloor_plus_half lengthFrames).
    apply Qfloor_resp_le. lra. }
  assert (Hfp : framePos fPPQLength lengthFrames p = z).
  { unfold framePos. fold b. apply int_of_double_truncZ; [exact Htr|].
    unfold INT_MIN, INT_MAX. lia. }
  rewrite Hfp. split; [reflexivity|exact Hz].
Qed.

(** A later marker never gets an earlier frame. *)
Lemma framePos_mono (fPPQLength lengthFrames p q : Z) :
  0 < fPPQLength <= INT_MAX -> 0 <= lengthFrames <= INT_MAX ->
  0 <= p -> p <= q -> q <= fPPQLength ->
  framePos fPPQLength lengthFrames p <= framePos fPPQLength lengthFrames q.
Proof.
  intros HL HN Hp Hpq Hq.
  destruct (framePos_value fPPQLength lengthFrames p HL HN ltac:(lia)) as [-> _].
  destruct (framePos_value fPPQLength lengthFrames q HL HN ltac:(lia)) as [-> _].
  unfold INT_MAX in *.
  apply Qfloor_resp_le.
  assert (valueQ (dmul (ddiv (double_of_Z p) (double_of_Z fPPQLength))
                       (double_of_Z lengthFrames))
          <= valueQ (dmul (ddiv (double_of_Z q) (double_of_Z fPPQLength))
                          (double_of_Z lengthFrames)))%Q; [|lra].
  apply dmul_Z_mono; [apply ddiv_Z_unit; lia|apply ddiv_Z_unit; lia| |lia].
  apply ddiv_Z_mono; lia.
Qed.


(** ** The fields the constructor derives *)

Lemma encodeOT_fields bpm sampleRate totalFrames bs :
  let ot := OctatrackMetadata_new bpm sampleRate totalFrames in
  let buf := encodeOT bpm sampleRate totalFrames bs in
  read32BE buf 23 = uint32_t_of_Z (tempo_val ot)
  /\ read32BE buf 27 = uint32_t_of_Z (trim_len ot)
  /\ read32BE buf 31 = uint32_t_of_Z (trim_len ot)
  /\ read32BE buf 50 = uint32_t_of_Z (trim_end ot).
Proof.
  intros ot buf. subst buf. unfold encodeOT. fold ot.
  rewrite getBuffer_tempo, getBuffer_trim_len_27, getBuffer_trim_len_31,
    getBuffer_trim_end.
  destruct (addBoundaries_fields bs ot) as (-> & -> & ->). done.
Qed.

(** C1, as claimed, fails: [bpm = 120.03125] is a binary64 number and the
    binary64 product [bpm * 24.0] is [2880.75], exactly; the tempo field
    holds 2880 and rounding gives 2881. *)
Lemma tempo_round_counterexample :
  let bpm := double_lit 3841 (-5) in
  (valueQ bpm == 3841 # 32)%Q
  /\ (valueQ (dmul bpm (double_of_Z 24)) == 11523 # 4)%Q
  /\ read32BE (encodeOT bpm 44100 88200 []) 23 = 2880
  /\ roundQ (valueQ bpm * 24) = 2881
  /\ read32BE (encodeOT bpm 44100 88200 []) 23 <> roundQ (valueQ bpm * 24).
Proof. vm_compute. repeat split. discriminate. Qed.

(** The binary64 product can itself be the rounded one: for the [double]
    [8502889921467733 * 2^-46], just below [120 + 5/6], the real product
    with 24 is below 2900, the binary64 product is 2900, and the tempo
    field holds 2900. *)
Example tempo_binary64_product :
  let bpm := double_lit 8502889921467733 (-46) in
  (valueQ bpm * 24 < 2900)%Q
  /\ (valueQ (dmul bpm (double_of_Z 24)) == 2900)%Q
  /\ read32BE (encodeOT bpm 44100 88200 []) 23 = 2900.
Proof. vm_compute. repeat split. Qed.

(** C1, amended.  Let [p] be the binary64 product [bpm * 24.0].  When [p]
    is finite, non-negative and below [2^32], the tempo field is [p]
    truncated toward zero, that is the floor of [p], also for non-integer
    [bpm]; it is [p] rounded to the nearest integer exactly when the
    fractional part of [p] is below one half. *)
Theorem tempo_truncated (bpm : double) (sampleRate totalFrames : Z) (bs : list (Z * Z)) :
  let p := dmul bpm (double_of_Z 24) in
  is_finite p = true -> (0 <= valueQ p)%Q -> (valueQ p < inject_Z (2 ^ 32))%Q ->
  let buf := encodeOT bpm sampleRate totalFrames bs in
  read32BE buf 23 = Qfloor (valueQ p)
  /\ (read32BE buf 23 = roundQ (valueQ p)
      <-> (valueQ p < inject_Z (Qfloor (valueQ p)) + (1 # 2))%Q).
Proof.
  intros p Hfin Hlo Hhi buf.
  assert (Hfield : read32BE buf 23 = Qfloor (valueQ p)).
  { subst buf.
    rewrite (proj1 (encodeOT_fields bpm sampleRate totalFrames bs)).
    rewrite tempo_val_new. fold p.
    rewrite uint32_t_of_double_floor by done.
    apply Z.mod_small. split.
    - by apply Qfloor_nonneg.
    - rewrite Zlt_Qlt. eapply Qle_lt_trans; [apply Qfloor_le|done]. }
  split; [done|]. rewrite Hfield, roundQ_nonneg by done.
  set (x := valueQ p) in *.
  pose proof (Qfloor_le x) as Hfl.
  split.
  - intros Heq. pose proof (Qlt_floor (x + (1 # 2))) as Hlt.
    rewrite <- Heq, inject_Z_plus in Hlt. change (inject_Z 1) with 1%Q in Hlt. lra.
  - intros Hfrac. symmetry. apply Qfloor_unique.
    + lra.
    + rewrite inject_Z_plus. change (inject_Z 1) with 1%Q. lra.
Qed.

Lemma tempo_truncated_witness :
  let bpm := double_lit 3841 (-5) in
  let p := dmul bpm (double_of_Z 24) in
  is_finite p = true /\ (0 <= valueQ p)%Q /\ (valueQ p < inject_Z (2 ^ 32))%Q
  /\ read32BE (encodeOT bpm 44100 88200 []) 23 = Qfloor (valueQ p)
  /\ Qfloor (valueQ p) = 2880
  /\ roundQ (valueQ p) = 2881.
Proof.
  intros bpm p.
  assert (H1 : is_finite p = true) by (vm_compute; reflexivity).
  assert (H2 : (0 <= valueQ p)%Q) by (vm_compute; discriminate).
  assert (H3 : (valueQ p < inject_Z (2 ^ 32))%Q) by (vm_compute; reflexivity).
  split; [exact H1|]. split; [exact H2|]. split; [exact H3|].
  split; [exact (proj1 (tempo_truncated bpm 44100 88200 [] H1 H2 H3))|].
  split; vm_compute; reflexivity.
Defined.


(** The binary64 quotient can also differ from the real one: for the
    [double] nearest to 76.8, 48000 Hz and 225000 frames the real quotient
    is below [3/2] and rounds to 1 bar; the binary64 quotient is [3/2], the
    constructor gets 2 bars from it, and the trim length stored is 50. *)
Example trim_len_binary64_quotient :
  let bpm := double_lit 5404319552844595 (-46) in
  let real := ((valueQ bpm * inject_Z 225000) / (inject_Z 48000 * 240))%Q in
  bpm = ddiv (double_of_Z 768) (double_of_Z 10)
  /\ (real < 3 # 2)%Q /\ roundQ real = 1
  /\ read32BE (encodeOT bpm 48000 225000 []) 27 = 50.
Proof. vm_compute. repeat split. Qed.



(** ** Decimal digits *)

Lemma digitChar_code (d : Z) :
  0 <= d < 10 -> nat_of_ascii (digitChar d) = (48 + Z.to_nat d)%nat.
Proof.
  intros Hd. unfold digitChar. apply nat_ascii_embedding. lia.
Qed.

Lemma digitChar_isDigit (d : Z) : 0 <= d < 10 -> isDigit (digitChar d).
Proof. intros Hd. unfold isDigit. rewrite digitChar_code by done. lia. Qed.

Lemma mod_10_digit (n : Z) : 0 <= n mod 10 < 10.
Proof. apply Z.mod_pos_bound. lia. Qed.

Lemma digitsValue_snoc (l : list ascii) (c : ascii) :
  digitsValue (l ++ [c]) = digitsValue l * 10 + (Z.of_nat (nat_of_ascii c) - 48).
Proof. unfold digitsValue. by rewrite fold_left_app. Qed.

Lemma digitsValue_snoc_digit (l : list ascii) (d : Z) :
  0 <= d < 10 -> digitsValue (l ++ [digitChar d]) = digitsValue l * 10 + d.
Proof.
  intros Hd. rewrite digitsValue_snoc, digitChar_code by done. lia.
Qed.

Lemma digitsValue_app (l1 l2 : list ascii) :
  digitsValue (l1 ++ l2)
  = digitsValue l1 * 10 ^ Z.of_nat (length l2) + digitsValue l2.
Proof.
  induction l2 as [|c l2 IH] using rev_ind.
  - rewrite app_nil_r. simpl. unfold digitsValue at 3. simpl. lia.
  - rewrite app_assoc, !digitsValue_snoc, IH, length_app. simpl.
    rewrite Nat2Z.inj_add, Z.pow_add_r by lia. simpl Z.of_nat. lia.
Qed.

Lemma length_fixedDigits (k : nat) : forall n, length (fixedDigits k n) = k.
Proof.
  induction k as [|k IH]; intros n; simpl; [done|].
  rewrite length_app, IH. simpl. lia.
Qed.

Lemma fixedDigits_isDigit (k : nat) : forall n, Forall isDigit (fixedDigits k n).
Proof.
  induction k as [|k IH]; intros n; simpl; [constructor|].
  apply Forall_app. split; [apply IH|].
  constructor; [|constructor]. apply digitChar_isDigit, mod_10_digit.
Qed.

Lemma digitsValue_fixedDigits (k : nat) : forall n,
  digitsValue (fixedDigits k n) = n mod 10 ^ Z.of_nat k.
Proof.
  induction k as [|k IH]; intros n.
  - simpl. by rewrite Z.mod_1_r.
  - cbn [fixedDigits]. rewrite digitsValue_snoc_digit by apply mod_10_digit.
    rewrite IH, Nat2Z.inj_succ, Z.pow_succ_r by lia.
    rewrite (Z.rem_mul_r n 10 (10 ^ Z.of_nat k)) by lia. lia.
Qed.

Lemma decimalFuel_spec (fuel : nat) : forall n,
  0 <= n < 2 ^ Z.of_nat (S fuel) ->
  decimalFuel fuel n <> []
  /\ Forall isDigit (decimalFuel fuel n)
  /\ digitsValue (decimalFuel fuel n) = n.
Proof.
  assert (Hone : forall n, [digitChar (n mod 10)] <> []
            /\ Forall isDigit [digitChar (n mod 10)]
            /\ digitsValue [digitChar (n mod 10)] = n mod 10).
  { intros n. split; [done|]. split.
    - constructor; [|constructor]. apply digitChar_isDigit, mod_10_digit.
    - apply (digitsValue_snoc_digit [] (n mod 10)), mod_10_digit. }
  induction fuel as [|fuel IH]; intros n Hn.
  - cbn [decimalFuel]. destruct (Hone n) as (H1 & H2 & H3).
    repeat split; try done. rewrite H3. apply Z.mod_small.
    change (2 ^ Z.of_nat 1) with 2 in Hn. lia.
  - cbn [decimalFuel]. destruct (Z.ltb_spec n 10) as [Hlt|Hge].
    + destruct (Hone n) as (H1 & H2 & H3).
      repeat split; try done. rewrite H3. apply Z.mod_small. lia.
    + assert (Hrec : 0 <= n / 10 < 2 ^ Z.of_nat (S fuel)).
      { rewrite Nat2Z.inj_succ, Z.pow_succ_r in Hn by lia.
        split; [apply Z.div_pos; lia|].
        apply Z.div_lt_upper_bound; lia. }
      destruct (IH _ Hrec) as (H1 & H2 & H3). repeat split.
      * intros Hnil. by apply app_eq_nil in Hnil as [_ ?].
      * apply Forall_app. split; [done|].
        constructor; [|constructor]. apply digitChar_isDigit, mod_10_digit.
      * rewrite digitsValue_snoc_digit, H3 by apply mod_10_digit.
        pose proof (Z.div_mod n 10). lia.
Qed.

Lemma decimal_spec (n : Z) :
  0 <= n ->
  decimal n <> [] /\ Forall isDigit (decimal n) /\ digitsValue (decimal n) = n.
Proof.
  intros Hn. unfold decimal. apply decimalFuel_spec.
  destruct (Z.eq_dec n 0) as [->|Hne]; [done|].
  split; [done|].
  rewrite Nat2Z.inj_succ, Z2Nat.id by apply Z.log2_nonneg.
  apply Z.log2_spec. lia.
Qed.

(** ** Fixed notation *)

(** The text of a [double] that is zero or finite with a clear sign bit. *)
Lemma formatFixed6_nonneg (x : double) :
  zero_or_finite false x ->
  let n := roundHalfEven (valueQ x * 1000000) in
  formatFixed6 x = decimal (n / 1000000) ++ chars "." ++ fixedDigits 6 (n mod 1000000)
  /\ 0 <= n
  /\ digitsValue (decimal (n / 1000000) ++ fixedDigits 6 (n mod 1000000)) = n.
Proof.
  intros Hx n.
  pose proof (valueQ_zero_or_finite x Hx) as Hv.
  assert (Hn : 0 <= n) by (apply roundHalfEven_nonneg; lra).
  split; [|split; [done|]].
  - destruct Hx as [|m e]; reflexivity.
  - rewrite digitsValue_app, length_fixedDigits, digitsValue_fixedDigits.
    destruct (decimal_spec (n / 1000000)) as (_ & _ & ->);
      [apply Z.div_pos; lia|].
    change (10 ^ Z.of_nat 6) with 1000000.
    rewrite Z.mod_mod by lia. pose proof (Z.div_mod n 1000000). lia.
Qed.

Lemma isDigit_not_n (c : ascii) : isDigit c -> c <> "n"%char.
Proof.
  intros Hc ->. unfold isDigit in Hc.
  change (nat_of_ascii "n") with 110%nat in Hc. lia.
Qed.

Lemma Forall_isDigit_not_n (l : list ascii) :
  Forall isDigit l -> ~ In "n"%char l.
Proof.
  intros Hl Hin. rewrite Forall_forall in Hl.
  apply (isDigit_not_n "n"); [|done]. apply Hl. by apply list_elem_of_In.
Qed.

Lemma occursIn_end_has_n (l : list ascii) :
  occursIn (chars "end") l -> In "n"%char l.
Proof.
  intros (l1 & l2 & ->). apply in_app_iff. right.
  apply in_app_iff. left. simpl. tauto.
Qed.

Lemma framePos_int fPPQLength lengthFrames p :
  INT_MIN <= framePos fPPQLength lengthFrames p <= INT_MAX.
Proof. apply int_of_double_range. Qed.

(** [start] is a non-negative [int]. *)
Lemma sliceStart_range fPPQLength lengthFrames pos i :
  0 <= sliceStart fPPQLength lengthFrames pos i <= INT_MAX.
Proof.
  unfold sliceStart, rawStart, PREVIEW_LATENCY_COMPENSATION.
  pose proof (framePos_int fPPQLength lengthFrames (pos !!! i)).
  unfold INT_MAX in *. lia.
Qed.

Lemma starts_of_boundaries fPPQLength lengthFrames pos :
  map fst (sliceBoundaries fPPQLength lengthFrames pos)
  = map (sliceStart fPPQLength lengthFrames pos) (seq 0 (length pos)).
Proof. unfold sliceBoundaries. rewrite map_map. done. Qed.

(** [(double)start/info.fSampleRate] is never an infinity, a NaN or
    negative. *)
Lemma start_seconds_finite (fSampleRate s : Z) :
  0 < fSampleRate <= INT_MAX -> 0 <= s <= INT_MAX ->
  zero_or_finite false (ddiv (double_of_Z s) (double_of_Z fSampleRate)).
Proof.
  unfold INT_MAX. intros Hsr Hs. apply ddiv_of_Z_finite; lia.
Qed.

(** ** The seconds of a start frame *)

(** The binary64 quotient [(double)start/info.fSampleRate] is within
    [2^-53] of its size of the real quotient. *)
Lemma start_seconds_error (fSampleRate s : Z) :
  0 < fSampleRate <= INT_MAX -> 0 <= s <= INT_MAX ->
  let x := (inject_Z s / inject_Z fSampleRate)%Q in
  let seconds := valueQ (ddiv (double_of_Z s) (double_of_Z fSampleRate)) in
  (x - x * (1 # 2 ^ 53) <= seconds <= x + x * (1 # 2 ^ 53))%Q.
Proof.
  unfold INT_MAX. intros Hsr Hs. cbv zeta.
  destruct (Z.eq_dec s 0) as [->|Hs0].
  - destruct (double_of_Z_pos fSampleRate ltac:(lia)) as (m & e & -> & _).
    change (valueQ (ddiv (double_of_Z 0) (S754_finite false m e))) with 0%Q.
    unfold Qdiv. rewrite !Qmult_0_l. lra.
  - destruct (ddiv_Z_value s fSampleRate ltac:(lia) ltac:(lia))
      as (k & Hb & Hk & _ & ->).
    apply fl_error; [lia|exact Hb].
Qed.

(** The six-digit text of the binary64 quotient is also a nearest
    multiple of [10^-6] of the real quotient. *)
Lemma start_seconds_nearest (fSampleRate s n : Z) :
  0 < fSampleRate <= INT_MAX -> 0 <= s <= INT_MAX ->
  let x := (inject_Z s / inject_Z fSampleRate)%Q in
  let seconds := valueQ (ddiv (double_of_Z s) (double_of_Z fSampleRate)) in
  (seconds * 1000000 - (1 # 2) <= inject_Z n <= seconds * 1000000 + (1 # 2))%Q ->
  (x * 1000000 - (1 # 2) <= inject_Z n <= x * 1000000 + (1 # 2))%Q.
Proof.
  intros Hsr Hs x seconds Hn.
  pose proof (start_seconds_error fSampleRate s Hsr Hs) as He.
  cbv zeta in He. fold x in He. fold seconds in He.
  unfold INT_MAX in *.
  assert (Hr : (0 < inject_Z fSampleRate)%Q) by (apply inject_Z_pos; lia).
  assert (Hxs : (x * inject_Z fSampleRate == inject_Z s)%Q)
    by (unfold x; field; lra).
  assert (Hs31 : (inject_Z s <= 2147483647)%Q).
  { change 2147483647%Q with (inject_Z 2147483647). rewrite <- Zle_Qle. lia. }
  assert (Hs0 : (0 <= inject_Z s)%Q) by (rewrite <- (Zle_Qle 0); lia).
  assert (Hx0 : (0 <= x)%Q).
  { unfold x. apply Qle_shift_div_l; [exact Hr|]. lra. }
  change (1 # 2 ^ 53)%Q with (1 # 9007199254740992)%Q in He.
  (* twice the sample rate times the distance is an integer *)
  set (D := 2 * fSampleRate * n - 2 * s * 1000000).
  assert (HD : (inject_Z D == 2 * inject_Z fSampleRate * inject_Z n
                               - 2 * (x * inject_Z fSampleRate) * 1000000)%Q).
  { unfold D. rewrite Hxs.
    unfold Z.sub. rewrite inject_Z_plus, inject_Z_opp, !inject_Z_mult.
    change (inject_Z 2) with 2%Q. change (inject_Z 1000000) with 1000000%Q. ring. }
  assert (Hup : D <= fSampleRate).
  { assert (H : D < fSampleRate + 1); [|lia].
    rewrite Zlt_Qlt, inject_Z_plus, HD. change (inject_Z 1) with 1%Q.
    set (r := inject_Z fSampleRate) in *. set (N := inject_Z n) in *.
    set (S := inject_Z s) in *. clearbody r N S seconds.
    assert (H1 : (r * N <= r * (seconds * 1000000 + (1 # 2)))%Q)
      by (apply Qmult_le_l; lra).
    assert (H2 : (r * seconds <= r * (x + x * (1 # 9007199254740992)))%Q)
      by (apply Qmult_le_l; lra).
    nra. }
  assert (Hlow : - fSampleRate <= D).
  { assert (H : - fSampleRate - 1 < D); [|lia].
    rewrite Zlt_Qlt. unfold Z.sub at 1.
    rewrite inject_Z_plus, !inject_Z_opp, HD. change (inject_Z 1) with 1%Q.
    set (r := inject_Z fSampleRate) in *. set (N := inject_Z n) in *.
    set (S := inject_Z s) in *. clearbody r N S seconds.
    assert (H1 : (r * (seconds * 1000000 - (1 # 2)) <= r * N)%Q)
      by (apply Qmult_le_l; lra).
    assert (H2 : (r * (x - x * (1 # 9007199254740992)) <= r * seconds)%Q)
      by (apply Qmult_le_l; lra).
    nra. }
  rewrite Zle_Qle in Hup, Hlow. rewrite inject_Z_opp in Hlow.
  rewrite HD in Hup, Hlow.
  set (r := inject_Z fSampleRate) in *. set (N := inject_Z n) in *.
  clearbody r N seconds.
  split.
  - apply (Qmult_le_l _ _ (2 * r)); [lra|]. lra.
  - apply (Qmult_le_l _ _ (2 * r)); [lra|]. lra.
Qed.

(** The shape of one slice element. *)
Lemma sliceElement_shape (fSampleRate s : Z) :
  0 < fSampleRate <= INT_MAX -> 0 <= s <= INT_MAX ->
  let seconds := valueQ (ddiv (double_of_Z s) (double_of_Z fSampleRate)) in
  let x := (inject_Z s / inject_Z fSampleRate)%Q in
  exists ip fp,
    sliceElement fSampleRate s
    = chars "       <slice start=" ++ [dquote] ++ ip ++ chars "." ++ fp
      ++ [dquote] ++ chars " />" ++ [newline]
    /\ ip <> [] /\ Forall isDigit ip /\ Forall isDigit fp /\ length fp = 6%nat
    /\ (seconds * 1000000 - (1 # 2)
        <= inject_Z (digitsValue (ip ++ fp))
        <= seconds * 1000000 + (1 # 2))%Q
    /\ (x * 1000000 - (1 # 2)
        <= inject_Z (digitsValue (ip ++ fp))
        <= x * 1000000 + (1 # 2))%Q.
Proof.
  intros Hsr Hs seconds x.
  pose proof (start_seconds_finite fSampleRate s Hsr Hs) as Hfin.
  destruct (formatFixed6_nonneg _ Hfin) as (Hfmt & Hn & Hval).
  fold seconds in Hfmt, Hn, Hval.
  set (n := roundHalfEven (seconds * 1000000)) in *.
  exists (decimal (n / 1000000)), (fixedDigits 6 (n mod 1000000)).
  destruct (decimal_spec (n / 1000000)) as (Hne & Hdig & _);
    [apply Z.div_pos; lia|].
  split.
  { unfold sliceElement. rewrite Hfmt. by rewrite <- !app_assoc. }
  split; [done|]. split; [done|].
  split; [apply fixedDigits_isDigit|].
  split; [apply length_fixedDigits|].
  rewrite Hval.
  pose proof (roundHalfEven_near (seconds * 1000000)) as Hnear. fold n in Hnear.
  split; [exact Hnear|].
  exact (start_seconds_nearest fSampleRate s n Hsr Hs Hnear).
Qed.

Lemma sliceElement_no_end (fSampleRate s : Z) :
  0 < fSampleRate <= INT_MAX -> 0 <= s <= INT_MAX ->
  ~ occursIn (chars "end") (sliceElement fSampleRate s).
Proof.
  intros Hsr Hs Hocc%occursIn_end_has_n.
  destruct (sliceElement_shape fSampleRate s Hsr Hs)
    as (ip & fp & Heq & _ & Hip & Hfp & _).
  rewrite Heq in Hocc.
  repeat (apply in_app_iff in Hocc as [Hocc|Hocc]).
  - simpl in Hocc. intuition discriminate.
  - simpl in Hocc. intuition discriminate.
  - by apply (Forall_isDigit_not_n ip).
  - simpl in Hocc. intuition discriminate.
  - by apply (Forall_isDigit_not_n fp).
  - simpl in Hocc. intuition discriminate.
  - simpl in Hocc. intuition discriminate.
  - simpl in Hocc. intuition discriminate.
Qed.

(** ** The XML document *)

(** C9.  For every marker list, of any length, and every sample rate that
    is a positive [int], the document holds, between its opening and
    closing lines, exactly one slice element per boundary, in order.  The
    [start] attribute of each is the boundary's start frame divided by the
    sample rate in fixed notation: no sign, a non-empty run of digits, a
    point and exactly six digits.  They denote the multiple of [10^-6]
    nearest to the binary64 quotient that is printed, and it is also a
    multiple of [10^-6] nearest to the quotient on the real numbers.  No
    element mentions an end. *)
Theorem xml_slice_elements (baseName : string)
    (fSampleRate fPPQLength lengthFrames : Z) (pos : list Z) :
  0 < fSampleRate <= INT_MAX ->
  let starts := map fst (sliceBoundaries fPPQLength lengthFrames pos) in
  exportXML baseName fSampleRate fPPQLength lengthFrames pos
  = xmlProlog ++ xmlOpen baseName
    ++ concat (map (sliceElement fSampleRate) starts) ++ xmlClose
  /\ length (map (sliceElement fSampleRate) starts) = length pos
  /\ forall s, In s starts ->
       let seconds := valueQ (ddiv (double_of_Z s) (double_of_Z fSampleRate)) in
       let x := (inject_Z s / inject_Z fSampleRate)%Q in
       (exists ip fp,
          sliceElement fSampleRate s
          = chars "       <slice start=" ++ [dquote] ++ ip ++ chars "." ++ fp
            ++ [dquote] ++ chars " />" ++ [newline]
          /\ ip <> [] /\ Forall isDigit ip /\ Forall isDigit fp
          /\ length fp = 6%nat
          /\ (seconds * 1000000 - (1 # 2)
              <= inject_Z (digitsValue (ip ++ fp))
              <= seconds * 1000000 + (1 # 2))%Q
          /\ (x * 1000000 - (1 # 2)
              <= inject_Z (digitsValue (ip ++ fp))
              <= x * 1000000 + (1 # 2))%Q)
       /\ ~ occursIn (chars "end") (sliceElement fSampleRate s).
Proof.
  intros Hsr starts.
  assert (Hstarts : starts
    = map (sliceStart fPPQLength lengthFrames pos) (seq 0 (length pos)))
    by apply starts_of_boundaries.
  split; [|split].
  - unfold exportXML. by rewrite Hstarts, map_map.
  - by rewrite Hstarts, !length_map, length_seq.
  - intros s Hin. rewrite Hstarts in Hin.
    apply in_map_iff in Hin as (i & <- & _).
    pose proof (sliceStart_range fPPQLength lengthFrames pos i) as Hs.
    split.
    + by apply sliceElement_shape.
    + by apply sliceElement_no_end.
Qed.

Lemma xml_slice_elements_witness :
  0 < 48000 <= INT_MAX
  /\ length (map (sliceElement 48000) (map fst (sliceBoundaries 1024 1024 [67])))
     = length [67]
  /\ (let seconds := valueQ (ddiv (double_of_Z 3) (double_of_Z 48000)) in
      let x := (inject_Z 3 / inject_Z 48000)%Q in
      exists ip fp,
        sliceElement 48000 3
        = chars "       <slice start=" ++ [dquote] ++ ip ++ chars "." ++ fp
          ++ [dquote] ++ chars " />" ++ [newline]
        /\ ip <> [] /\ Forall isDigit ip /\ Forall isDigit fp
        /\ length fp = 6%nat
        /\ (seconds * 1000000 - (1 # 2)
            <= inject_Z (digitsValue (ip ++ fp))
            <= seconds * 1000000 + (1 # 2))%Q
        /\ (x * 1000000 - (1 # 2)
            <= inject_Z (digitsValue (ip ++ fp))
            <= x * 1000000 + (1 # 2))%Q).
Proof.
  assert (H : 0 < 48000 <= INT_MAX) by (split; [reflexivity|discriminate]).
  assert (Hin : In 3 (map fst (sliceBoundaries 1024 1024 [67])))
    by (vm_compute; left; reflexivity).
  split; [exact H|]. split.
  - exact (proj1 (proj2 (xml_slice_elements "foo" 48000 1024 1024 [67] H))).
  - exact (proj1 (proj2 (proj2 (xml_slice_elements "foo" 48000 1024 1024 [67] H))
                    3 Hin)).
Defined.

Example exportXML_demo :
  exportXML "foo" 44100 1024 88200 [0; 512; 1024]
  = xmlProlog ++ xmlOpen "foo"
    ++ chars "       <slice start=" ++ [dquote] ++ chars "0.000000" ++ [dquote]
    ++ chars " />" ++ [newline]
    ++ chars "       <slice start=" ++ [dquote] ++ chars "0.998549" ++ [dquote]
    ++ chars " />" ++ [newline]
    ++ chars "       <slice start=" ++ [dquote] ++ chars "1.998549" ++ [dquote]
    ++ chars " />" ++ [newline]
    ++ xmlClose.
Proof. vm_compute. reflexivity. Qed.

(** Start frame 3 at 48000 Hz: [3/48000] is half-way between two multiples
    of [10^-6], the [double] nearest to it lies above it, and the text is
    the upper one. *)
Example sliceElement_tie :
  sliceStart 1024 1024 [67] 0 = 3
  /\ sliceElement 48000 3
     = chars "       <slice start=" ++ [dquote] ++ chars "0.000063" ++ [dquote]
       ++ chars " />" ++ [newline]
  /\ (3 # 48000 < valueQ (ddiv (double_of_Z 3) (double_of_Z 48000)))%Q.
Proof. vm_compute. repeat split. Qed.

(** * Further properties *)

(** ** The constant part of the layout *)

Lemma take_ext_lookup (b b' : list Z) (n : nat) :
  length b' = length b ->
  (forall k, (k < n)%nat -> b' !!! k = b !!! k) ->
  take n b' = take n b.
Proof.
  intros Hlen H. apply list_eq. intros k.
  destruct (decide (k < n)%nat) as [Hk|Hk].
  - rewrite !lookup_take_lt by done.
    destruct (decide (k < length b)%nat) as [Hkb|Hkb].
    + rewrite !list_lookup_lookup_total_lt by lia. f_equal. by apply H.
    + by rewrite !lookup_ge_None_2 by lia.
  - by rewrite !lookup_take_ge by lia.
Qed.

Lemma read16BE_ext b b' pos :
  (forall k, (pos <= k < pos + 2)%nat -> b' !!! k = b !!! k) ->
  read16BE b' pos = read16BE b pos.
Proof. intros H. unfold read16BE. rewrite !H by lia. done.
Qed.

Lemma write16BE_lookup_hi b pos v :
  (pos + 1 < length b)%nat ->
  write16BE b pos v !!! pos = Z.land (Z.shiftr v 8) 0xFF.
Proof.
  intros H. unfold write16BE.
  rewrite list_lookup_total_insert_ne by lia.
  apply list_lookup_total_insert_eq. lia.
Qed.

Lemma write16BE_lookup_lo b pos v :
  (pos + 1 < length b)%nat ->
  write16BE b pos v !!! (pos + 1)%nat = Z.land v 0xFF.
Proof.
  intros H. unfold write16BE.
  apply list_lookup_total_insert_eq. rewrite length_insert. lia.
Qed.

(** Looking a byte up through the writes that do not reach it. *)
Ltac skip_lookup :=
  repeat first
    [ rewrite write32BE_lookup_ne by lia
    | rewrite write16BE_lookup_ne by lia
    | rewrite writeSlots_lookup_ne by lia
    | rewrite list_lookup_total_insert_ne by lia ].

(** X1.  Whatever the object holds, the buffer starts with the 16 header
    bytes and the 7 bytes that follow them, the four reserved words at 35,
    39, 46 and 54 are zero, the 16-bit word at 43 is 48 and the byte at 45
    is [0xFF]. *)
Theorem constant_layout (ot : OctatrackMetadata) :
  take 23 (getBuffer ot) = header ++ unknown
  /\ read32BE (getBuffer ot) 35 = 0 /\ read32BE (getBuffer ot) 39 = 0
  /\ read16BE (getBuffer ot) 43 = 48 /\ getBuffer ot !!! 45%nat = 0xFF
  /\ read32BE (getBuffer ot) 46 = 0 /\ read32BE (getBuffer ot) 54 = 0.
Proof.
  split.
  { transitivity (take 23 (copyBytes unknown 16 7
                             (copyBytes header 0 16 (replicate 832 0)))).
    - apply take_ext_lookup.
      + rewrite length_getBuffer. solve_length.
      + intros k Hk. rewrite getBuffer_lookup_body by lia.
        unfold getBufferBody. by skip_lookup.
    - vm_compute. reflexivity. }
  repeat split.
  - rewrite read32BE_getBuffer by lia. unfold getBufferBody.
    skip_writes. rewrite read32BE_write32BE by solve_length. done.
  - rewrite read32BE_getBuffer by lia. unfold getBufferBody.
    skip_writes. rewrite read32BE_write32BE by solve_length. done.
  - rewrite (read16BE_ext (getBufferBody ot))
      by (intros; apply getBuffer_lookup_body; lia).
    unfold getBufferBody, read16BE. skip_lookup.
    rewrite write16BE_lookup_hi, write16BE_lookup_lo by solve_length. done.
  - rewrite getBuffer_lookup_body by lia. unfold getBufferBody.
    skip_lookup. apply list_lookup_total_insert_eq. solve_length.
  - rewrite read32BE_getBuffer by lia. unfold getBufferBody.
    skip_writes. rewrite read32BE_write32BE by solve_length. done.
  - rewrite read32BE_getBuffer by lia. unfold getBufferBody.
    skip_writes. rewrite read32BE_write32BE by solve_length. done.
Qed.

(** ** Decoding the buffer *)

Lemma uint32_small z : is_uint32 z -> uint32_t_of_Z z = z.
Proof. intros H. apply Z.mod_small, H. Qed.

Lemma uint32_t_of_Z_range z : is_uint32 (uint32_t_of_Z z).
Proof. apply Z.mod_pos_bound. lia. Qed.

Lemma map_lookup_total_seq {A} `{!Inhabited A} (l : list A) :
  map (fun i => l !!! i) (seq 0 (length l)) = l.
Proof.
  apply list_eq. intros i. change (map ?f ?l) with (f <$> l).
  rewrite list_lookup_fmap.
  destruct (decide (i < length l)%nat) as [Hi|Hi].
  - rewrite lookup_seq_lt by done. simpl.
    by rewrite list_lookup_lookup_total_lt.
  - rewrite lookup_seq_ge, lookup_ge_None_2 by lia. done.
Qed.

Lemma wellFormed_new bpm sampleRate totalFrames :
  wellFormed (OctatrackMetadata_new bpm sampleRate totalFrames).
Proof.
  unfold wellFormed.
  rewrite tempo_val_new, trim_len_new, trim_end_new, slices_new.
  split; [apply uint32_t_of_double_range|].
  split; [apply uint32_t_of_double_range|].
  split; [apply uint32_t_of_Z_range|]. split; [simpl; lia|constructor].
Qed.

Lemma wellFormed_addSlice ot s e :
  wellFormed ot -> is_uint32 s -> is_uint32 e -> wellFormed (addSlice ot s e).
Proof.
  intros (Htempo & Hlen & Hend & Hn & Hsl) Hs He.
  unfold wellFormed.
  destruct (addSlice_fields ot s e) as (-> & -> & ->).
  rewrite addSlice_slices by done.
  split; [done|]. split; [done|]. split; [done|]. split.
  - rewrite length_take. lia.
  - apply Forall_take, Forall_app. split; [done|].
    constructor; [done|constructor].
Qed.

Lemma wellFormed_addBoundaries bs : forall ot,
  wellFormed ot -> wellFormed (addBoundaries ot bs).
Proof.
  unfold addBoundaries.
  induction bs as [|b bs IH]; intros ot Hot; simpl; [done|].
  apply IH, wellFormed_addSlice; [done|apply uint32_t_of_Z_range..].
Qed.

(** X2.  Reading the fields, the slice count and that many slots back from
    the buffer of a well-formed object gives the object again: the buffer
    loses nothing of it. *)
Theorem decode_getBuffer (ot : OctatrackMetadata) :
  wellFormed ot -> decodeOT (getBuffer ot) = ot.
Proof.
  intros (Htempo & Hlen & Hend & Hn & Hsl).
  apply OctatrackMetadata_eq; unfold decodeOT;
    cbn [tempo_val trim_len trim_end slices].
  - rewrite getBuffer_tempo. by apply uint32_small.
  - rewrite getBuffer_trim_len_27. by apply uint32_small.
  - rewrite getBuffer_trim_end. by apply uint32_small.
  - rewrite getBuffer_slice_count, uint32_small, Nat2Z.id
      by (unfold is_uint32; lia).
    rewrite <- (map_lookup_total_seq (slices ot)) at 2.
    apply map_ext_in. intros i Hi%in_seq.
    destruct (getBuffer_slot ot i) as (Hs & He & _); [lia|lia|].
    unfold readSlice. rewrite Hs, He.
    assert (Hr : is_uint32 (start (slices ot !!! i))
                 /\ is_uint32 (end_ (slices ot !!! i))).
    { apply (Forall_lookup_total_1 _ _ i) in Hsl; [done|lia]. }
    destruct Hr as [Hr1 Hr2]. rewrite !uint32_small by done.
    by destruct (slices ot !!! i).
Qed.

Lemma decode_getBuffer_witness :
  let ot := mkOctatrackMetadata 2880 25 88200 [mkSlice 0 44035; mkSlice 44036 88199] in
  wellFormed ot /\ decodeOT (getBuffer ot) = ot.
Proof.
  intros ot.
  assert (H : wellFormed ot).
  { unfold wellFormed, is_uint32. simpl.
    repeat split; try lia; repeat constructor; simpl; lia. }
  split; [exact H|]. exact (decode_getBuffer ot H).
Defined.

(** X3.  Well-formedness is an invariant of the class: the constructor
    establishes it for every input, [addSlice] with [uint32_t] arguments
    keeps it, and so the object [main] has after any number of [addSlice]
    calls is well-formed. *)
Theorem wellFormed_invariant (bpm : double) (sampleRate totalFrames : Z) (bs : list (Z * Z)) :
  wellFormed (OctatrackMetadata_new bpm sampleRate totalFrames)
  /\ (forall ot s e, wellFormed ot ->
        wellFormed (addSlice ot (uint32_t_of_Z s) (uint32_t_of_Z e)))
  /\ wellFormed (addBoundaries (OctatrackMetadata_new bpm sampleRate totalFrames) bs).
Proof.
  split; [apply wellFormed_new|]. split.
  - intros ot s e Hot.
    apply wellFormed_addSlice; [done|apply uint32_t_of_Z_range..].
  - apply wellFormed_addBoundaries, wellFormed_new.
Qed.

(** X4.  For every boundary list, of any length, the slice count at offset
    826 is the smaller of 64 and the number of boundaries, and each of the
    first 64 boundaries is in its slot, followed by the loop marker
    [0xFFFFFFFF]. *)
Theorem slice_table (bpm : double) (sampleRate totalFrames : Z) (bs : list (Z * Z)) :
  let buf := encodeOT bpm sampleRate totalFrames bs in
  read32BE buf 826 = Z.of_nat (Nat.min 64 (length bs))
  /\ forall i s e, (i < 64)%nat -> bs !! i = Some (s, e) ->
       read32BE buf (58 + i * 12) = uint32_t_of_Z s
       /\ read32BE buf (58 + i * 12 + 4) = uint32_t_of_Z e
       /\ read32BE buf (58 + i * 12 + 8) = 0xFFFFFFFF.
Proof.
  intros buf. split.
  - subst buf. unfold encodeOT.
    rewrite getBuffer_slice_count, addBoundaries_new_slices.
    rewrite length_map, length_take. apply Z.mod_small. lia.
  - intros i s e Hi Hbs. by apply encodeOT_slot.
Qed.

(** X5.  [write32BE] and [write16BE] keep the length of the vector and every
    byte outside the positions they write, and the bytes written read back
    as the value modulo [2^32], resp. [2^16]. *)
Theorem write_read_BE (b : list Z) (pos : nat) (v : Z) :
  (pos + 3 < length b)%nat ->
  length (write32BE b pos v) = length b
  /\ read32BE (write32BE b pos v) pos = v mod 2 ^ 32
  /\ (forall k, (k < pos \/ pos + 4 <= k)%nat -> write32BE b pos v !!! k = b !!! k)
  /\ length (write16BE b pos v) = length b
  /\ read16BE (write16BE b pos v) pos = v mod 2 ^ 16
  /\ (forall k, (k < pos \/ pos + 2 <= k)%nat -> write16BE b pos v !!! k = b !!! k).
Proof.
  intros Hpos. repeat split.
  - apply length_write32BE.
  - by apply read32BE_write32BE.
  - intros k Hk. by apply write32BE_lookup_ne.
  - apply length_write16BE.
  - apply read16BE_write16BE. lia.
  - intros k Hk. by apply write16BE_lookup_ne.
Qed.

Lemma write_read_BE_witness :
  (2 + 3 < length (replicate 8 0))%nat
  /\ read32BE (write32BE (replicate 8 0) 2 88200) 2 = 88200 mod 2 ^ 32.
Proof.
  assert (H : (2 + 3 < length (replicate 8 0))%nat)
    by (apply Nat.ltb_lt; reflexivity).
  split; [exact H|].
  exact (proj1 (proj2 (write_read_BE (replicate 8 0) 2 88200 H))).
Defined.

(** ** Frame positions *)

(** X6.  For a musical length that is a positive [int], a frame count that
    is a non-negative [int] and markers within the musical length, a later
    marker never rounds to an earlier frame, in binary64 as the program
    computes it; position 0 is frame 0, the full musical length is frame
    [lengthFrames], and every position between them lands between these
    two frames. *)
Theorem framePos_monotone (fPPQLength lengthFrames p q : Z) :
  0 < fPPQLength <= INT_MAX -> 0 <= lengthFrames <= INT_MAX ->
  0 <= p -> p <= q -> q <= fPPQLength ->
  framePos fPPQLength lengthFrames p <= framePos fPPQLength lengthFrames q
  /\ framePos fPPQLength lengthFrames 0 = 0
  /\ framePos fPPQLength lengthFrames fPPQLength = lengthFrames
  /\ 0 <= framePos fPPQLength lengthFrames p
  /\ framePos fPPQLength lengthFrames q <= lengthFrames.
Proof.
  intros HL HN Hp Hpq Hq.
  split; [by apply framePos_mono|].
  split; [by apply framePos_0|]. split; [by apply framePos_full|].
  split.
  - apply (framePos_value fPPQLength lengthFrames p HL HN). lia.
  - apply (framePos_value fPPQLength lengthFrames q HL HN). lia.
Qed.

Lemma framePos_monotone_witness :
  0 < 61440 <= INT_MAX /\ 0 <= 88200 <= INT_MAX
  /\ 0 <= 2816 /\ 2816 <= 2817 /\ 2817 <= 61440
  /\ framePos 61440 88200 2816 <= framePos 61440 88200 2817.
Proof.
  assert (H1 : 0 < 61440 <= INT_MAX) by (split; [reflexivity|discriminate]).
  assert (H2 : 0 <= 88200 <= INT_MAX) by (split; discriminate).
  assert (H3 : 0 <= 2816) by discriminate.
  assert (H4 : 2816 <= 2817) by discriminate.
  assert (H5 : 2817 <= 61440) by discriminate.
  split; [exact H1|]. split; [exact H2|]. split; [exact H3|].
  split; [exact H4|]. split; [exact H5|].
  exact (proj1 (framePos_monotone 61440 88200 2816 2817 H1 H2 H3 H4 H5)).
Defined.

(** ** Neighbouring slices *)

(** X7.  Clamped or not, the end of a slice is the frame before the start
    of the next slice or, when that start was clamped to zero, frame zero
    itself: between two slices no frame is left out, and they share a frame
    only when both meet at zero. *)
Theorem no_gap_between_slices (fPPQLength totalFrames : Z) (pos : list Z) (i : nat) :
  (i + 1 < length pos)%nat ->
  exists bi bj,
    sliceBoundaries fPPQLength totalFrames pos !! i = Some bi
    /\ sliceBoundaries fPPQLength totalFrames pos !! (i + 1)%nat = Some bj
    /\ snd bi <= fst bj <= snd bi + 1
    /\ (snd bi = fst bj -> fst bj = 0).
Proof.
  intros Hi. eexists _, _. rewrite !sliceBoundaries_lookup by lia.
  split; [done|]. split; [done|]. simpl.
  rewrite sliceEnd_inner by done. unfold sliceStart.
  pose proof (rawEnd_rawStart fPPQLength totalFrames pos i). lia.
Qed.

Lemma no_gap_between_slices_witness :
  (0 + 1 < length [0; 16; 1024])%nat
  /\ exists bi bj,
       sliceBoundaries 1024 88200 [0; 16; 1024] !! 0%nat = Some bi
       /\ sliceBoundaries 1024 88200 [0; 16; 1024] !! (0 + 1)%nat = Some bj
       /\ snd bi <= fst bj <= snd bi + 1
       /\ (snd bi = fst bj -> fst bj = 0).
Proof.
  assert (H : (0 + 1 < length [0; 16; 1024])%nat)
    by (apply Nat.ltb_lt; reflexivity).
  split; [exact H|].
  exact (no_gap_between_slices 1024 88200 [0; 16; 1024] 0 H).
Defined.

Lemma framePos_within fPPQLength lengthFrames (pos : list Z) i :
  0 < fPPQLength <= INT_MAX -> 0 <= lengthFrames <= INT_MAX ->
  Forall (fun p => 0 <= p <= fPPQLength) pos -> (i < length pos)%nat ->
  0 <= framePos fPPQLength lengthFrames (pos !!! i) <= lengthFrames.
Proof.
  intros HL HN Hpos Hi.
  apply (Forall_lookup_total_1 _ _ i) in Hpos; [|done].
  cbv beta in Hpos.
  apply (framePos_value fPPQLength lengthFrames (pos !!! i) HL HN Hpos).
Qed.

Lemma sliceBoundary_range fPPQLength lengthFrames (pos : list Z) i :
  0 < fPPQLength <= INT_MAX -> 0 < lengthFrames <= INT_MAX ->
  Forall (fun p => 0 <= p <= fPPQLength) pos -> (i < length pos)%nat ->
  0 <= sliceStart fPPQLength lengthFrames pos i <= lengthFrames - 1
  /\ 0 <= sliceEnd fPPQLength lengthFrames pos i <= lengthFrames - 1.
Proof.
  intros HL HN Hpos Hi.
  pose proof (framePos_within fPPQLength lengthFrames pos i HL
                ltac:(lia) Hpos Hi) as Hr.
  unfold sliceStart, rawStart, PREVIEW_LATENCY_COMPENSATION.
  split; [lia|].
  destruct (decide (i + 1 < length pos)%nat) as [Hn|Hn].
  - rewrite sliceEnd_inner by done.
    unfold rawEnd, PREVIEW_LATENCY_COMPENSATION.
    pose proof (framePos_within fPPQLength lengthFrames pos (i + 1) HL
                  ltac:(lia) Hpos Hn). lia.
  - rewrite sliceEnd_last by lia. lia.
Qed.

(** X8.  With a musical length and a frame count that are positive [int]
    values and every marker within the musical length, the start and the
    end of every boundary are frames of the render: both lie between 0 and
    [totalFrames - 1]. *)
Theorem boundaries_within_render (fPPQLength totalFrames : Z) (pos : list Z) :
  0 < fPPQLength <= INT_MAX -> 0 < totalFrames <= INT_MAX ->
  Forall (fun p => 0 <= p <= fPPQLength) pos ->
  Forall (fun b => 0 <= fst b <= totalFrames - 1 /\ 0 <= snd b <= totalFrames - 1)
         (sliceBoundaries fPPQLength totalFrames pos).
Proof.
  intros HL HN Hpos. apply Forall_lookup. intros i b Hb.
  assert (Hi : (i < length pos)%nat).
  { apply lookup_lt_Some in Hb. by rewrite length_sliceBoundaries in Hb. }
  rewrite sliceBoundaries_lookup in Hb by done. injection Hb as <-.
  simpl. by apply sliceBoundary_range.
Qed.

Lemma boundaries_within_render_witness :
  0 < 61440 <= INT_MAX /\ 0 < 88200 <= INT_MAX
  /\ Forall (fun p => 0 <= p <= 61440) [0; 2816; 61440]
  /\ Forall (fun b => 0 <= fst b <= 88200 - 1 /\ 0 <= snd b <= 88200 - 1)
            (sliceBoundaries 61440 88200 [0; 2816; 61440]).
Proof.
  assert (H1 : 0 < 61440 <= INT_MAX) by (split; [reflexivity|discriminate]).
  assert (H2 : 0 < 88200 <= INT_MAX) by (split; [reflexivity|discriminate]).
  assert (H3 : Forall (fun p => 0 <= p <= 61440) [0; 2816; 61440])
    by (repeat constructor; discriminate).
  split; [exact H1|]. split; [exact H2|]. split; [exact H3|].
  exact (boundaries_within_render 61440 88200 [0; 2816; 61440] H1 H2 H3).
Defined.

(** X9.  When two neighbouring markers lie within the musical length, the
    later one not before the earlier one, the start of the later slice is
    not before the start of the earlier one, and the earlier slice starts
    at most one frame after its end: it may be empty but never runs
    backwards by more. *)
Theorem sorted_markers_sorted_starts (fPPQLength totalFrames : Z) (pos : list Z) (i : nat) :
  0 < fPPQLength <= INT_MAX -> 0 <= totalFrames <= INT_MAX ->
  (i + 1 < length pos)%nat ->
  0 <= pos !!! i -> pos !!! i <= pos !!! (i + 1)%nat ->
  pos !!! (i + 1)%nat <= fPPQLength ->
  sliceStart fPPQLength totalFrames pos i
  <= sliceStart fPPQLength totalFrames pos (i + 1)
  /\ sliceStart fPPQLength totalFrames pos i
     <= sliceEnd fPPQLength totalFrames pos i + 1.
Proof.
  intros HL HN Hi H0 Hle HL'.
  pose proof (framePos_mono fPPQLength totalFrames _ _ HL HN H0 Hle HL') as Hf.
  rewrite sliceEnd_inner by done.
  unfold sliceStart, rawStart, rawEnd, PREVIEW_LATENCY_COMPENSATION. lia.
Qed.

Lemma sorted_markers_sorted_starts_witness :
  0 < 1024 <= INT_MAX /\ 0 <= 256 <= INT_MAX /\ (0 + 1 < length [512; 513])%nat
  /\ 0 <= [512; 513] !!! 0%nat
  /\ [512; 513] !!! 0%nat <= [512; 513] !!! (0 + 1)%nat
  /\ [512; 513] !!! (0 + 1)%nat <= 1024
  /\ sliceStart 1024 256 [512; 513] 0 <= sliceStart 1024 256 [512; 513] (0 + 1).
Proof.
  assert (H1 : 0 < 1024 <= INT_MAX) by (split; [reflexivity|discriminate]).
  assert (H2 : 0 <= 256 <= INT_MAX) by (split; discriminate).
  assert (H3 : (0 + 1 < length [512; 513])%nat) by (apply Nat.ltb_lt; reflexivity).
  assert (H4 : 0 <= [512; 513] !!! 0%nat) by discriminate.
  assert (H5 : [512; 513] !!! 0%nat <= [512; 513] !!! (0 + 1)%nat) by discriminate.
  assert (H6 : [512; 513] !!! (0 + 1)%nat <= 1024) by discriminate.
  split; [exact H1|]. split; [exact H2|]. split; [exact H3|]. split; [exact H4|].
  split; [exact H5|]. split; [exact H6|].
  exact (proj1 (sorted_markers_sorted_starts 1024 256 [512; 513] 0 H1 H2 H3 H4 H5 H6)).
Defined.

(** ** The table [main] writes *)

Lemma sliceEnd_range fPPQLength lengthFrames pos i :
  0 < lengthFrames <= INT_MAX ->
  0 <= sliceEnd fPPQLength lengthFrames pos i <= INT_MAX.
Proof.
  intros HN. unfold sliceEnd.
  destruct (Z.of_nat i <? Z.of_nat (length pos) - 1); [|lia].
  unfold rawEnd, PREVIEW_LATENCY_COMPENSATION.
  pose proof (framePos_int fPPQLength lengthFrames (pos !!! (i + 1)%nat)).
  unfold INT_MAX in *. lia.
Qed.

(** X10.  In the file [main] writes for a frame count that is a positive
    [int], each of the first 64 slots holds the start and the end of its
    slice exactly: both are non-negative [int] values, which the
    conversions to [uint32_t] leave as they are. *)
Theorem exportOT_slots_exact (bpm : double) (fSampleRate fPPQLength lengthFrames : Z)
    (pos : list Z) (i : nat) :
  0 < lengthFrames <= INT_MAX ->
  (i < 64)%nat -> (i < length pos)%nat ->
  let buf := exportOT bpm fSampleRate fPPQLength lengthFrames pos in
  read32BE buf (58 + i * 12) = sliceStart fPPQLength lengthFrames pos i
  /\ read32BE buf (58 + i * 12 + 4) = sliceEnd fPPQLength lengthFrames pos i
  /\ 0 <= sliceStart fPPQLength lengthFrames pos i <= INT_MAX
  /\ 0 <= sliceEnd fPPQLength lengthFrames pos i <= INT_MAX.
Proof.
  intros HN Hi Hn buf. subst buf. rewrite exportOT_encodeOT.
  destruct (encodeOT_slot bpm fSampleRate lengthFrames
              (sliceBoundaries fPPQLength lengthFrames pos) i _ _ Hi
              (sliceBoundaries_lookup fPPQLength lengthFrames pos i Hn))
    as (Hs & He & _).
  pose proof (sliceStart_range fPPQLength lengthFrames pos i) as Hrs.
  pose proof (sliceEnd_range fPPQLength lengthFrames pos i HN) as Hre.
  split; [|split; [|done]].
  - rewrite Hs. apply Z.mod_small. unfold INT_MAX in Hrs. lia.
  - rewrite He. apply Z.mod_small. unfold INT_MAX in Hre. lia.
Qed.

Lemma exportOT_slots_exact_witness :
  0 < 88200 <= INT_MAX
  /\ (1 < 64)%nat /\ (1 < length [0%Z; 2816%Z; 61440%Z])%nat
  /\ read32BE (exportOT (double_of_Z 120) 44100 61440 88200 [0; 2816; 61440])
              (58 + 1 * 12)
     = sliceStart 61440 88200 [0; 2816; 61440] 1
  /\ sliceStart 61440 88200 [0; 2816; 61440] 1 = 3978.
Proof.
  assert (H2 : 0 < 88200 <= INT_MAX) by (split; [reflexivity|discriminate]).
  assert (H4 : (1 < 64)%nat) by (apply Nat.ltb_lt; reflexivity).
  assert (H5 : (1 < length [0%Z; 2816%Z; 61440%Z])%nat) by (apply Nat.ltb_lt; reflexivity).
  split; [exact H2|]. split; [exact H4|]. split; [exact H5|].
  split.
  - exact (proj1 (exportOT_slots_exact (double_of_Z 120) 44100 61440 88200
                    [0; 2816; 61440] 1 H2 H4 H5)).
  - vm_compute. reflexivity.
Defined.

(** X11.  With between 1 and 64 markers and a frame count that is a positive
    [int], the end stored in the last populated slot is one less than the
    trim end stored at offset 50: the last slice runs to the last frame of
    the render. *)
Theorem last_slot_meets_trim_end (bpm : double) (fSampleRate fPPQLength lengthFrames : Z)
    (pos : list Z) :
  (0 < length pos <= 64)%nat -> 0 < lengthFrames <= INT_MAX ->
  let buf := exportOT bpm fSampleRate fPPQLength lengthFrames pos in
  read32BE buf (58 + (length pos - 1) * 12 + 4) + 1 = read32BE buf 50.
Proof.
  intros Hn HN buf. subst buf. rewrite exportOT_encodeOT.
  destruct (encodeOT_slot bpm fSampleRate lengthFrames
              (sliceBoundaries fPPQLength lengthFrames pos) (length pos - 1) _ _
              ltac:(lia)
              (sliceBoundaries_lookup fPPQLength lengthFrames pos
                 (length pos - 1) ltac:(lia)))
    as (_ & He & _).
  rewrite He, sliceEnd_last by lia.
  destruct (encodeOT_fields bpm fSampleRate lengthFrames
              (sliceBoundaries fPPQLength lengthFrames pos)) as (_ & _ & _ & ->).
  rewrite trim_end_new. unfold uint32_t_of_Z, INT_MAX in *.
  rewrite Z.mod_mod, !Z.mod_small by lia. lia.
Qed.

Lemma last_slot_meets_trim_end_witness :
  (0 < length [0; 512; 1024] <= 64)%nat /\ 0 < 88200 <= INT_MAX
  /\ read32BE (exportOT (double_of_Z 120) 44100 1024 88200 [0; 512; 1024])
       (58 + (length [0; 512; 1024] - 1) * 12 + 4) + 1
     = read32BE (exportOT (double_of_Z 120) 44100 1024 88200 [0; 512; 1024]) 50.
Proof.
  assert (H1 : (0 < length [0; 512; 1024] <= 64)%nat)
    by (split; apply Nat.leb_le; reflexivity).
  assert (H2 : 0 < 88200 <= INT_MAX) by (split; [reflexivity|discriminate]).
  split; [exact H1|]. split; [exact H2|].
  exact (last_slot_meets_trim_end (double_of_Z 120) 44100 1024 88200 [0; 512; 1024] H1 H2).
Defined.

Lemma zof_is_finite (s : bool) (x : double) : zero_or_finite s x -> is_finite x = true.
Proof. intros [|m e]; reflexivity. Qed.

(** ** The numbers [main] derives *)

(** [(double)fTempo / 1000.0 * 24.0]: finite, with the integer part of
    [fTempo * 24 / 1000]. *)
Lemma main_tempo_value (fTempo : Z) :
  0 < fTempo <= INT_MAX ->
  let p := dmul (bpmOf fTempo) (double_of_Z 24) in
  zero_or_finite false p
  /\ (inject_Z (fTempo * 24 / 1000) <= valueQ p
      < inject_Z (fTempo * 24 / 1000) + 1)%Q.
Proof.
  intros Ht p. subst p. unfold INT_MAX in Ht. unfold bpmOf.
  destruct (ddiv_Z_value fTempo 1000 ltac:(lia) ltac:(lia))
    as (k & Hb & Hk & Hz & Hv).
  set (x := (inject_Z fTempo / inject_Z 1000)%Q) in *.
  remember (ddiv (double_of_Z fTempo) (double_of_Z 1000)) as b eqn:Eb.
  pose proof (fl_binade x k ltac:(lia) Hb) as [Hfl1 Hfl2].
  pose proof (pow2_pos k) as Hpk.
  pose proof (pow2_le (-53) k ltac:(lia)) as Hk1.
  pose proof (pow2_le (k + 1) 53 ltac:(lia)) as Hk2.
  destruct Hz as [|m e].
  { change (valueQ (S754_zero false)) with 0%Q in Hv. lra. }
  destruct (dmul_Z_value m e 24 ltac:(rewrite Hv; lra) ltac:(lia))
    as (k2 & Hb2 & Hk2' & Hz2 & Hv2).
  set (b := S754_finite false m e) in *.
  split; [exact Hz2|].
  set (P := (valueQ b * inject_Z 24)%Q) in *.
  set (K := fTempo * 24 / 1000).
  pose proof (Z.div_mod (fTempo * 24) 1000 ltac:(lia)) as Hdm.
  pose proof (Z.mod_pos_bound (fTempo * 24) 1000 ltac:(lia)) as Hr.
  fold K in Hdm. set (r := (fTempo * 24) mod 1000) in *.
  assert (HK : 0 <= K < 2 ^ 26).
  { unfold K. split; [apply Z.div_pos; lia|apply Z.div_lt_upper_bound; lia]. }
  assert (Hx : (24000 * x == 1000 * inject_Z K + inject_Z r)%Q).
  { unfold x. change (inject_Z 1000) with 1000%Q.
    assert (E : (inject_Z fTempo * 24 == 1000 * inject_Z K + inject_Z r)%Q).
    { change 24%Q with (inject_Z 24). change 1000%Q with (inject_Z 1000).
      rewrite <- !inject_Z_mult, <- inject_Z_plus, Hdm. reflexivity. }
    rewrite <- E. field. }
  destruct (Z.eq_dec r 0) as [Hr0|Hr0].
  - (* [fTempo] is a multiple of 125: both operations are exact *)
    assert (Hdiv : (125 | fTempo)).
    { apply (Z.gauss 125 3); [exists K; lia|reflexivity]. }
    destruct Hdiv as [j Hj].
    assert (HKj : K = 3 * j) by lia.
    assert (Hxj : (x == inject_Z j * 2 ^ (-3))%Q).
    { unfold x. rewrite Hj, inject_Z_mult.
      change (2 ^ (-3))%Q with (1 # 8)%Q. change (inject_Z 125) with 125%Q.
      change (inject_Z 1000) with 1000%Q. field. }
    assert (Hbx : (valueQ b == x)%Q).
    { rewrite Hv. apply (fl_exact x k j (-3)); [exact Hb|lia|lia|exact Hxj]. }
    assert (HPK : (P == inject_Z K * 2 ^ 0)%Q).
    { unfold P. rewrite Hbx. change (inject_Z 24) with 24%Q.
      rewrite Hr0 in Hx. change (2 ^ 0)%Q with 1%Q.
      change (inject_Z 0) with 0%Q in Hx. lra. }
    assert (HpK : (valueQ (dmul b (double_of_Z 24)) == inject_Z K)%Q).
    { rewrite Hv2. rewrite (fl_exact P k2 K 0); [|exact Hb2|lia|lia|exact HPK].
      rewrite HPK. change (2 ^ 0)%Q with 1%Q. ring. }
    rewrite HpK. lra.
  - pose proof (fl_error x k ltac:(lia) Hb) as [Hbl Hbu].
    pose proof (fl_error P k2 ltac:(lia) Hb2) as [Hpl Hpu].
    rewrite <- Hv in Hbl, Hbu. rewrite <- Hv2 in Hpl, Hpu.
    change (1 # 2 ^ 53)%Q with (1 # 9007199254740992)%Q in *.
    assert (Hr1 : (1 <= inject_Z r <= 999)%Q).
    { change 1%Q with (inject_Z 1). change 999%Q with (inject_Z 999).
      rewrite <- !Zle_Qle. lia. }
    assert (HKq : (0 <= inject_Z K <= 67108864)%Q).
    { change 0%Q with (inject_Z 0). change 67108864%Q with (inject_Z 67108864).
      rewrite <- !Zle_Qle. lia. }
    assert (HP24 : (P == valueQ b * 24)%Q) by reflexivity.
    set (vb := valueQ b) in *. set (vp := valueQ (dmul b (double_of_Z 24))) in *.
    set (Kq := inject_Z K) in *. set (rq := inject_Z r) in *.
    clearbody vb vp Kq rq P x.
    assert (Hxlo : (1 # 24000 <= x)%Q) by lra.
    assert (Hxhi : (x <= 3000000)%Q) by lra.
    split; nra.
Qed.

(** X12.  With [bpm] taken from [info.fTempo] as [main] does, in binary64,
    the tempo field is [fTempo * 24 / 1000] rounded down, for every
    positive [int] tempo. *)
Theorem main_tempo_field (fTempo fSampleRate lengthFrames : Z) (bs : list (Z * Z)) :
  0 < fTempo <= INT_MAX ->
  read32BE (encodeOT (bpmOf fTempo) fSampleRate lengthFrames bs) 23
  = fTempo * 24 / 1000.
Proof.
  intros Ht.
  destruct (main_tempo_value fTempo Ht) as [Hz [Hlo Hhi]].
  unfold INT_MAX in Ht.
  set (p := dmul (bpmOf fTempo) (double_of_Z 24)) in *.
  set (K := fTempo * 24 / 1000) in *.
  assert (HK : 0 <= K < 2 ^ 26).
  { unfold K. split; [apply Z.div_pos; lia|apply Z.div_lt_upper_bound; lia]. }
  assert (HKq : (0 <= inject_Z K)%Q) by (rewrite <- (Zle_Qle 0); lia).
  assert (HK1 : (inject_Z K + 1 <= inject_Z (2 ^ 32))%Q).
  { change 1%Q with (inject_Z 1). rewrite <- inject_Z_plus, <- Zle_Qle. lia. }
  assert (Hfl : Qfloor (valueQ p) = K).
  { apply Qfloor_unique; [exact Hlo|].
    rewrite inject_Z_plus. exact Hhi. }
  rewrite (proj1 (encodeOT_fields (bpmOf fTempo) fSampleRate lengthFrames bs)).
  rewrite tempo_val_new. fold p.
  rewrite uint32_t_of_double_floor;
    [|exact (zof_is_finite _ _ Hz)|lra|lra].
  rewrite Hfl. apply Z.mod_small. lia.
Qed.

Lemma main_tempo_field_witness :
  0 < 120030 <= INT_MAX
  /\ read32BE (encodeOT (bpmOf 120030) 44100 88200 []) 23 = 120030 * 24 / 1000.
Proof.
  assert (H : 0 < 120030 <= INT_MAX) by (split; [reflexivity|discriminate]).
  split; [exact H|].
  exact (main_tempo_field 120030 44100 88200 [] H).
Defined.

(** ** Loops of whole bars *)

(** Operations on doubles of moderate size. *)

Lemma finite_digits (m : positive) (e K : Z) :
  ((2 ^ K <= valueQ (S754_finite false m e))%Q -> K < Zdigits2 (Zpos m) + e)
  /\ ((valueQ (S754_finite false m e) <= 2 ^ K)%Q -> Zdigits2 (Zpos m) + e <= K + 1).
Proof.
  pose proof (valueQ_finite m e) as Hv.
  pose proof (Zdigits2_spec (Zpos m) ltac:(lia)) as [Hlo Hhi].
  set (d := Zdigits2 (Zpos m)) in *.
  assert (Hd : 1 <= d).
  { destruct (Z.le_gt_cases 1 d) as [|Hn]; [done|].
    assert (d <= 0) by lia.
    destruct (Z.eq_dec d 0) as [E|E].
    - rewrite E in Hhi. change (2 ^ 0) with 1 in Hhi. lia.
    - rewrite Z.pow_neg_r in Hhi by lia. lia. }
  pose proof (pow2_pos e) as He.
  assert (Hq1 : (inject_Z (Zpos m) < 2 ^ d)%Q) by (apply inject_Z_lt_pow2; lia).
  assert (Hq2 : (2 ^ (d - 1) <= inject_Z (Zpos m))%Q).
  { rewrite pow2_inject by lia. rewrite <- Zle_Qle. exact Hlo. }
  assert (Hu : (valueQ (S754_finite false m e) < 2 ^ (d + e))%Q).
  { rewrite Hv, pow2_add. apply Qmult_lt_compat_r; [exact He|exact Hq1]. }
  assert (Hl : (2 ^ (d - 1 + e) <= valueQ (S754_finite false m e))%Q).
  { rewrite Hv, pow2_add. apply Qmult_le_compat_r; [exact Hq2|]. lra. }
  split; intros H.
  - apply pow2_lt_inv. lra.
  - destruct (Z.le_gt_cases (d + e) (K + 1)) as [|Hn]; [done|].
    pose proof (pow2_lt K (d - 1 + e) ltac:(lia)). lra.
Qed.

Lemma near_pos (v X : Q) : near v X -> (0 < X)%Q -> (0 < v)%Q.
Proof. unfold near. intros [H _] HX. lra. Qed.

Lemma zof_pos_finite (x : double) :
  zero_or_finite false x -> (0 < valueQ x)%Q -> finite_pos x.
Proof.
  intros [|m e] H.
  - change (valueQ (S754_zero false)) with 0%Q in H. lra.
  - by exists m, e.
Qed.

Lemma fl_near (x : Q) (k : Z) : -1022 <= k -> binade x k -> near (fl x k) x.
Proof.
  intros Hk Hb. unfold near.
  pose proof (fl_error x k Hk Hb) as H.
  change (1 # 2 ^ 53)%Q with (1 # 9007199254740992)%Q in H. exact H.
Qed.

Lemma moderate_exp (m : positive) (e : Z) :
  (valueQ (S754_finite false m e) <= 2 ^ 100)%Q -> e < 101.
Proof.
  intros H. apply (finite_exp_lt m e 101).
  rewrite <- valueQ_finite. lra.
Qed.

(** A product of two moderate doubles is the real product, up to the
    relative error of one rounding. *)
Lemma dmul_err (x y : double) :
  moderate x -> moderate y ->
  finite_pos (dmul x y) /\ near (valueQ (dmul x y)) (valueQ x * valueQ y).
Proof.
  intros [(m1 & e1 & ->) [Hx1 Hx2]] [(m2 & e2 & ->) [Hy1 Hy2]].
  destruct (dmul_value m1 m2 e1 e2) as [Hb Hv].
  set (x := S754_finite false m1 e1) in *.
  set (y := S754_finite false m2 e2) in *.
  set (P := (valueQ x * valueQ y)%Q) in *.
  set (k := Zdigits2 (Zpos (m1 * m2)) + (e1 + e2) - 1) in *.
  pose proof (moderate_exp m1 e1 Hx2). pose proof (moderate_exp m2 e2 Hy2).
  assert (HP : (2 ^ (-200) <= P <= 2 ^ 200)%Q).
  { unfold P. set (a := valueQ x) in *. set (b := valueQ y) in *.
    clearbody a b. split; nra. }
  assert (Hk1 : -200 <= k) by (apply (binade_ge P k (-200) Hb); lra).
  assert (Hk2 : k < 201) by (apply (binade_lt P k 201 Hb); lra).
  destruct Hv as [Hz Hv]; [lia|lia|].
  pose proof (fl_near P k ltac:(lia) Hb) as Hn.
  assert (Hn' : near (valueQ (dmul x y)) P).
  { unfold near in *. rewrite Hv. exact Hn. }
  split; [|exact Hn'].
  apply zof_pos_finite; [exact Hz|].
  apply (near_pos _ P Hn'). lra.
Qed.

(** The same for a quotient. *)
Lemma ddiv_err (x y : double) :
  moderate x -> moderate y ->
  finite_pos (ddiv x y) /\ near (valueQ (ddiv x y)) (valueQ x / valueQ y).
Proof.
  intros [(m1 & e1 & ->) [Hx1 Hx2]] [(m2 & e2 & ->) [Hy1 Hy2]].
  pose proof (proj1 (finite_digits m1 e1 (-100)) Hx1) as Hd1.
  pose proof (proj2 (finite_digits m2 e2 100) Hy2) as Hd2.
  destruct (ddiv_value m1 m2 e1 e2 ltac:(lia)) as (k & Hb & Hv).
  set (x := S754_finite false m1 e1) in *.
  set (y := S754_finite false m2 e2) in *.
  set (X := (valueQ x / valueQ y)%Q) in *.
  assert (HX : (2 ^ (-200) <= X <= 2 ^ 200)%Q).
  { unfold X. set (a := valueQ x) in *. set (b := valueQ y) in *.
    clearbody a b.
    assert (Hb0 : (0 < b)%Q) by lra.
    assert (E : (a == a / b * b)%Q) by (field; lra).
    set (c := (a / b)%Q) in *. clearbody c.
    split.
    - destruct (Qlt_le_dec c (2 ^ (-200))) as [Hc|Hc]; [|exact Hc].
      assert (0 < (2 ^ (-200) - c) * b)%Q by (apply Qmult_lt_0_compat; lra).
      lra.
    - destruct (Qlt_le_dec (2 ^ 200) c) as [Hc|Hc]; [|exact Hc].
      assert (0 < (c - 2 ^ 200) * b)%Q by (apply Qmult_lt_0_compat; lra).
      lra. }
  assert (Hk1 : -200 <= k) by (apply (binade_ge X k (-200) Hb); lra).
  assert (Hk2 : k < 201) by (apply (binade_lt X k 201 Hb); lra).
  destruct Hv as [Hz Hv]; [lia|].
  pose proof (fl_near X k ltac:(lia) Hb) as Hn.
  assert (Hn' : near (valueQ (ddiv x y)) X).
  { unfold near in *. rewrite Hv. exact Hn. }
  split; [|exact Hn'].
  apply zof_pos_finite; [exact Hz|].
  apply (near_pos _ X Hn'). lra.
Qed.

(** Aligning a mantissa to a smaller exponent keeps the value. *)
Lemma shl_align_value (mx : positive) (ex e' : Z) :
  (inject_Z (Zpos (fst (shl_align mx ex e'))) * 2 ^ snd (shl_align mx ex e')
   == inject_Z (Zpos mx) * 2 ^ ex)%Q
  /\ snd (shl_align mx ex e') <= ex
  /\ (e' <= ex -> snd (shl_align mx ex e') = e').
Proof.
  unfold shl_align. destruct (e' - ex) as [|d|d] eqn:E; cbn [fst snd].
  - split; [reflexivity|]. split; lia.
  - split; [reflexivity|]. split; lia.
  - split; [|split; lia].
    rewrite Zpos_iter_xO, inject_Z_mult.
    replace ex with (Zpos d + e') by lia.
    rewrite pow2_add, (pow2_inject (Zpos d)) by lia. ring.
Qed.

Lemma binade_comp (x y : Q) (k : Z) : (x == y)%Q -> binade x k -> binade y k.
Proof. unfold binade. intros E H. rewrite <- E. exact H. Qed.

(** The double nearest to [mx * 2^ex]. *)
Lemma binary_round_value (mx : positive) (ex : Z) :
  let X := (inject_Z (Zpos mx) * 2 ^ ex)%Q in
  exists k, binade X k
    /\ (ex <= 970 -> k <= 1022 ->
        zero_or_finite false (binary_round prec emax false mx ex)
        /\ (valueQ (binary_round prec emax false mx ex) == fl X k)%Q).
Proof.
  intros X. unfold binary_round.
  set (e' := fexp prec emax (Zpos (digits2_pos mx) + ex)).
  destruct (shl_align_value mx ex e') as (Hv & Hle & _).
  destruct (shl_align mx ex e') as [mz ez]. cbn [fst snd] in Hv, Hle.
  destruct (round_value false (Zpos mz) ez loc_Exact (inject_Z (Zpos mz))
              ltac:(lia) ltac:(reflexivity)) as [Hb Hr].
  set (k := Zdigits2 (Zpos mz) + ez - 1) in *.
  exists k. split; [exact (binade_comp _ _ k Hv Hb)|].
  intros Hex Hk.
  assert (Efl : (fl (inject_Z (Zpos mz) * 2 ^ ez) k == fl X k)%Q).
  { unfold fl. apply RN_comp. exact Hv. }
  destruct Hr as [[Hr Hz]|(m & e & Hr & Hz)]; [lia|lia|by left| |].
  - rewrite Hr. split; [constructor|].
    change (valueQ (S754_zero false)) with 0%Q. rewrite <- Efl, Hz. reflexivity.
  - rewrite Hr. split; [constructor|].
    rewrite valueQ_finite, Hz. exact Efl.
Qed.

(** The sum of two positive doubles. *)
Lemma dadd_value (m1 m2 : positive) (e1 e2 : Z) :
  let x := S754_finite false m1 e1 in
  let y := S754_finite false m2 e2 in
  let S := (valueQ x + valueQ y)%Q in
  exists k, binade S k
    /\ (Z.min e1 e2 <= 970 -> k <= 1022 ->
        zero_or_finite false (dadd x y) /\ (valueQ (dadd x y) == fl S k)%Q).
Proof.
  intros x y S.
  unfold dadd, SFadd, x, y. cbv zeta. cbn [cond_Zopp].
  destruct (shl_align_value m1 e1 (Z.min e1 e2)) as (H1 & _ & E1).
  destruct (shl_align_value m2 e2 (Z.min e1 e2)) as (H2 & _ & E2).
  rewrite E1 in H1 by lia. rewrite E2 in H2 by lia.
  set (a := fst (shl_align m1 e1 (Z.min e1 e2))) in *.
  set (b := fst (shl_align m2 e2 (Z.min e1 e2))) in *.
  change (Zpos a + Zpos b) with (Zpos (a + b)).
  cbn [binary_normalize].
  destruct (binary_round_value (a + b) (Z.min e1 e2)) as (k & Hb & Hv).
  assert (E : (inject_Z (Zpos (a + b)) * 2 ^ Z.min e1 e2 == S)%Q).
  { unfold S, x, y. rewrite !valueQ_finite, <- H1, <- H2.
    rewrite Pos2Z.inj_add, inject_Z_plus. ring. }
  exists k. split; [exact (binade_comp _ _ k E Hb)|].
  intros He Hk. destruct (Hv He Hk) as [Hz Hval].
  split; [exact Hz|]. rewrite Hval. unfold fl. apply RN_comp. exact E.
Qed.

Lemma dadd_err (x y : double) :
  moderate x -> moderate y ->
  finite_pos (dadd x y) /\ near (valueQ (dadd x y)) (valueQ x + valueQ y).
Proof.
  intros [(m1 & e1 & ->) [Hx1 Hx2]] [(m2 & e2 & ->) [Hy1 Hy2]].
  destruct (dadd_value m1 m2 e1 e2) as (k & Hb & Hv).
  set (x := S754_finite false m1 e1) in *.
  set (y := S754_finite false m2 e2) in *.
  set (S := (valueQ x + valueQ y)%Q) in *.
  pose proof (moderate_exp m1 e1 Hx2).
  assert (HS : (2 ^ (-200) <= S <= 2 ^ 200)%Q) by (unfold S; split; lra).
  assert (Hk1 : -200 <= k) by (apply (binade_ge S k (-200) Hb); lra).
  assert (Hk2 : k < 201) by (apply (binade_lt S k 201 Hb); lra).
  destruct Hv as [Hz Hv]; [lia|lia|].
  pose proof (fl_near S k ltac:(lia) Hb) as Hn.
  assert (Hn' : near (valueQ (dadd x y)) S).
  { unfold near in *. rewrite Hv. exact Hn. }
  split; [|exact Hn'].
  apply zof_pos_finite; [exact Hz|].
  apply (near_pos _ S Hn'). lra.
Qed.

Lemma near_div_r (v a b : Q) : (0 < b)%Q -> near v (a / b) -> near (v * b) a.
Proof.
  unfold near. intros Hb [H1 H2].
  assert (E : (a == a / b * b)%Q) by (field; lra).
  set (c := (a / b)%Q) in *. clearbody c.
  assert (0 <= (v - (c - c * (1 # 9007199254740992))) * b)%Q
    by (apply Qmult_le_0_compat; lra).
  assert (0 <= (c + c * (1 # 9007199254740992) - v) * b)%Q
    by (apply Qmult_le_0_compat; lra).
  split; lra.
Qed.

Lemma near_mul_r (v X c : Q) : (0 <= c)%Q -> near v X -> near (v * c) (X * c).
Proof.
  unfold near. intros Hc [H1 H2].
  assert (0 <= (v - (X - X * (1 # 9007199254740992))) * c)%Q
    by (apply Qmult_le_0_compat; lra).
  assert (0 <= (X + X * (1 # 9007199254740992) - v) * c)%Q
    by (apply Qmult_le_0_compat; lra).
  split; lra.
Qed.

Lemma Qmult_pos_cancel (x s : Q) : (0 < s)%Q -> (0 <= x * s)%Q -> (0 <= x)%Q.
Proof.
  intros Hs H. destruct (Qlt_le_dec x 0) as [Hx|Hx]; [|exact Hx].
  assert (0 < (- x) * s)%Q by (apply Qmult_lt_0_compat; lra). lra.
Qed.

(** The frame count of a loop of [K] bars: the value [vE] that is rounded
    to frames is at least 2 and rounds to at most [I]. *)
Lemma frames_real (S T K I a2 vE : Q) :
  (1 <= K)%Q -> (1 <= S)%Q -> (1 <= T)%Q -> (T <= 100000 * S)%Q ->
  (1 <= I <= 2147483647)%Q -> (240000 * (S * K) <= T * I)%Q ->
  near a2 (61440000 * (S * K)) ->
  near (vE * (256 * T)) a2 ->
  (2 <= vE)%Q /\ (vE + (1 # 2) < I + 1)%Q.
Proof.
  unfold near. intros HK HS HT HTS HI HSK [Ha1 Ha2] [He1 He2].
  assert (HSK1 : (0 <= (K - 1) * S)%Q) by (apply Qmult_le_0_compat; lra).
  split.
  - assert (H : (0 <= (vE - 2) * T)%Q) by lra.
    apply (Qmult_pos_cancel _ T) in H; lra.
  - assert (H : (0 <= (I + (1 # 4) - vE) * T)%Q).
    { assert (0 <= (2147483647 - I) * T)%Q by (apply Qmult_le_0_compat; lra).
      lra. }
    apply (Qmult_pos_cancel _ T) in H; lra.
Qed.

(** The quotient the constructor computes from that frame count is within
    21/100 of the number of bars. *)
Lemma whole_bars_real (S T K a2 vE N vbpm vpn vq : Q) :
  (1 <= K <= 65536)%Q -> (1 <= S)%Q -> (1 <= T)%Q -> (T <= 100000 * S)%Q ->
  near a2 (61440000 * (S * K)) ->
  near (vE * (256 * T)) a2 ->
  (2 <= vE)%Q -> (N <= vE + (1 # 2))%Q -> (vE + (1 # 2) < N + 1)%Q ->
  near (vbpm * 1000) T ->
  near vpn (vbpm * N) ->
  near (vq * (240 * S)) vpn ->
  (K - (21 # 100) <= vq <= K + (21 # 100))%Q.
Proof.
  intros HK HS HT HTS Ha He HvE HN1 HN2 Hb Hp Hq.
  assert (HN0 : (0 <= N)%Q) by lra.
  apply (near_mul_r _ _ N HN0) in Hb.
  unfold near in *.
  destruct Ha as [Ha1 Ha2], He as [He1 He2], Hb as [Hb1 Hb2],
    Hp as [Hp1 Hp2], Hq as [Hq1 Hq2].
  assert (HSK1 : (0 <= (K - 1) * S)%Q) by (apply Qmult_le_0_compat; lra).
  assert (HSK2 : (0 <= (65536 - K) * S)%Q) by (apply Qmult_le_0_compat; lra).
  assert (HNT1 : (0 <= (vE + (1 # 2) - N) * T)%Q) by (apply Qmult_le_0_compat; lra).
  assert (HNT2 : (0 <= (N + 1 - (vE + (1 # 2))) * T)%Q)
    by (apply Qmult_le_0_compat; lra).
  assert (Hlo : (K - (21 # 100) <= vq)%Q).
  { assert (H : (0 <= (vq - (K - (21 # 100))) * S)%Q) by lra.
    apply (Qmult_pos_cancel _ S) in H; lra. }
  assert (Hhi : (vq <= K + (21 # 100))%Q).
  { assert (H : (0 <= (K + (21 # 100) - vq) * S)%Q) by lra.
    apply (Qmult_pos_cancel _ S) in H; lra. }
  split; lra.
Qed.


(** Doubles that are integers. *)

Lemma integral_of_Z (z : Z) : 0 < z < 2 ^ 53 -> integral (double_of_Z z) z.
Proof.
  intros Hz. destruct (double_of_Z_pos z Hz) as (m & e & E & _ & _ & Hr).
  by exists m, e.
Qed.

Lemma integral_mul (x y : double) (V1 V2 : Z) :
  integral x V1 -> integral y V2 -> 0 < V1 * V2 < 2 ^ 53 ->
  integral (dmul x y) (V1 * V2).
Proof.
  intros (m1 & e1 & -> & H1) (m2 & e2 & -> & H2) HV.
  exact (dmul_exact m1 m2 e1 e2 V1 V2 H1 H2 HV).
Qed.

Lemma integral_moderate (x : double) (V : Z) :
  integral x V -> 0 < V < 2 ^ 53 ->
  moderate x /\ (valueQ x == inject_Z V)%Q.
Proof.
  intros (m & e & -> & Hr) HV.
  pose proof (represents_value m e V Hr) as Hv.
  split; [|exact Hv]. split; [by exists m, e|].
  rewrite Hv.
  assert (H1 : (inject_Z 1 <= inject_Z V)%Q) by (rewrite <- Zle_Qle; lia).
  assert (H2 : (inject_Z V <= inject_Z (2 ^ 53))%Q) by (rewrite <- Zle_Qle; lia).
  change (inject_Z 1) with 1%Q in H1.
  change (inject_Z (2 ^ 53)) with 9007199254740992%Q in H2.
  split; lra.
Qed.

Lemma near_comp (v v' X X' : Q) : (v == v')%Q -> (X == X')%Q -> near v X -> near v' X'.
Proof. unfold near. intros Ev EX H. rewrite <- Ev, <- EX. exact H. Qed.

Lemma half_moderate :
  moderate (double_lit 1 (-1)) /\ (valueQ (double_lit 1 (-1)) == 1 # 2)%Q.
Proof.
  assert (E : double_lit 1 (-1) = S754_finite false 4503599627370496 (-53))
    by (vm_compute; reflexivity).
  rewrite E.
  assert (Hv : (valueQ (S754_finite false 4503599627370496 (-53)) == 1 # 2)%Q)
    by (vm_compute; reflexivity).
  split; [|exact Hv]. split; [by eexists _, _|]. rewrite Hv. split; lra.
Qed.

(** The numbers [main] and the constructor compute for such a loop. *)

Lemma whole_bars_sizes (fSampleRate fTempo k : Z) :
  0 < k -> 61440 * k <= INT_MAX ->
  0 < fSampleRate <= INT_MAX -> 0 < fTempo <= INT_MAX ->
  fTempo <= 100000 * fSampleRate ->
  240000 * fSampleRate * k <= fTempo * INT_MAX ->
  let Sr := inject_Z fSampleRate in
  let Tp := inject_Z fTempo in
  let Kb := inject_Z k in
  (1 <= Kb <= 65536)%Q /\ (1 <= Sr <= 2147483647)%Q /\ (1 <= Tp <= 2147483647)%Q
  /\ (Tp <= 100000 * Sr)%Q /\ (240000 * (Sr * Kb) <= Tp * 2147483647)%Q
  /\ (1 <= Sr * Kb <= 140737488355328)%Q.
Proof.
  intros Hk HP Hsr Ht Hts Hlen Sr Tp Kb.
  unfold INT_MAX in *. unfold Sr, Tp, Kb.
  change 1%Q with (inject_Z 1). change 65536%Q with (inject_Z 65536).
  change 2147483647%Q with (inject_Z 2147483647).
  change 100000%Q with (inject_Z 100000).
  change 240000%Q with (inject_Z 240000).
  change 140737488355328%Q with (inject_Z 140737488355328).
  rewrite <- !inject_Z_mult, <- !Zle_Qle.
  repeat split; nia.
Qed.

(** The frame count [main] computes. *)
Lemma whole_bars_frames (fSampleRate fTempo k : Z) :
  0 < k -> 61440 * k <= INT_MAX ->
  0 < fSampleRate <= INT_MAX -> 0 < fTempo <= INT_MAX ->
  fTempo <= 100000 * fSampleRate ->
  240000 * fSampleRate * k <= fTempo * INT_MAX ->
  let Sr := inject_Z fSampleRate in
  let Tp := inject_Z fTempo in
  let Kb := inject_Z k in
  let E := exactLen fSampleRate fTempo (61440 * k) in
  let N := lengthFramesOf fSampleRate fTempo (61440 * k) in
  exists a2,
    near a2 (61440000 * (Sr * Kb)) /\ near (valueQ E * (256 * Tp)) a2
    /\ (2 <= valueQ E)%Q
    /\ (inject_Z N <= valueQ E + (1 # 2))%Q
    /\ (valueQ E + (1 # 2) < inject_Z N + 1)%Q
    /\ 2 <= N <= INT_MAX.
Proof.
  intros Hk HP Hsr Ht Hts Hlen Sr Tp Kb E N.
  destruct (whole_bars_sizes fSampleRate fTempo k Hk HP Hsr Ht Hts Hlen)
    as (HK & HS & HT & HTS & HSK & HSK2).
  fold Sr Tp Kb in HK, HS, HT, HTS, HSK, HSK2.
  unfold INT_MAX in *.
  pose proof (integral_mul _ _ _ _ (integral_of_Z fSampleRate ltac:(lia))
                (integral_of_Z 1000 ltac:(lia)) ltac:(lia)) as Ha1.
  destruct (integral_moderate _ _ Ha1 ltac:(lia)) as [Ma1 Va1].
  destruct (integral_moderate _ _ (integral_of_Z (61440 * k) ltac:(lia))
              ltac:(lia)) as [MP VP].
  destruct (dmul_err _ _ Ma1 MP) as [Fa2 Na2].
  set (a2 := dmul (dmul (double_of_Z fSampleRate) (double_of_Z 1000))
                  (double_of_Z (61440 * k))) in *.
  assert (Na2' : near (valueQ a2) (61440000 * (Sr * Kb))).
  { refine (near_comp _ _ _ _ _ _ Na2); [reflexivity|].
    rewrite Va1, VP, !inject_Z_mult. unfold Sr, Kb.
    change (inject_Z 1000) with 1000%Q. change (inject_Z 61440) with 61440%Q.
    ring. }
  assert (Ma2 : moderate a2).
  { split; [exact Fa2|]. unfold near in Na2'. split; lra. }
  pose proof (integral_mul _ _ _ _ (integral_of_Z fTempo ltac:(lia))
                (integral_of_Z 256 ltac:(lia)) ltac:(lia)) as Hb.
  destruct (integral_moderate _ _ Hb ltac:(lia)) as [Mb Vb].
  destruct (ddiv_err _ _ Ma2 Mb) as [FE NE].
  change (ddiv a2 (dmul (double_of_Z fTempo) (double_of_Z 256))) with E in FE, NE.
  assert (Vb' : (valueQ (dmul (double_of_Z fTempo) (double_of_Z 256)) == 256 * Tp)%Q).
  { rewrite Vb, inject_Z_mult. unfold Tp. change (inject_Z 256) with 256%Q. ring. }
  apply near_div_r in NE; [|rewrite Vb'; lra].
  assert (NE' : near (valueQ E * (256 * Tp)) (valueQ a2)).
  { refine (near_comp _ _ _ _ _ _ NE); [|reflexivity]. rewrite Vb'. reflexivity. }
  destruct (frames_real Sr Tp Kb 2147483647 (valueQ a2) (valueQ E))
    as [HE1 HE2]; try lra; try done.
  assert (Hz : zero_or_finite false E).
  { destruct FE as (m & e & ->). constructor. }
  assert (Htr : truncZ (round E) = Some (Qfloor (valueQ E + (1 # 2)))).
  { apply truncZ_round_value; [exact Hz|].
    change (2 ^ 52)%Q with 4503599627370496%Q. lra. }
  set (n := Qfloor (valueQ E + (1 # 2))) in *.
  pose proof (Qfloor_le (valueQ E + (1 # 2))) as Hn1.
  pose proof (Qlt_floor (valueQ E + (1 # 2))) as Hn2.
  fold n in Hn1, Hn2. rewrite inject_Z_plus in Hn2.
  change (inject_Z 1) with 1%Q in Hn2.
  assert (Hn : 2 <= n <= 2 ^ 31 - 1).
  { split.
    - assert (H : (inject_Z 1 < inject_Z n)%Q)
        by (change (inject_Z 1) with 1%Q; lra).
      rewrite <- Zlt_Qlt in H. lia.
    - assert (H : (inject_Z n < inject_Z (2 ^ 31))%Q)
        by (change (inject_Z (2 ^ 31)) with 2147483648%Q; lra).
      rewrite <- Zlt_Qlt in H. lia. }
  assert (EN : N = n).
  { unfold N, lengthFramesOf. fold E.
    apply int_of_double_truncZ; [exact Htr|]. unfold INT_MIN, INT_MAX. lia. }
  exists (valueQ a2). rewrite EN.
  split; [exact Na2'|]. split; [exact NE'|]. split; [exact HE1|].
  split; [exact Hn1|]. split; [exact Hn2|]. exact Hn.
Qed.

(** The sum whose integer part is the number of bars. *)
Lemma whole_bars_sum (fSampleRate fTempo k : Z) :
  0 < k -> 61440 * k <= INT_MAX ->
  0 < fSampleRate <= INT_MAX -> 0 < fTempo <= INT_MAX ->
  fTempo <= 100000 * fSampleRate ->
  240000 * fSampleRate * k <= fTempo * INT_MAX ->
  let Sr := inject_Z fSampleRate in
  let Tp := inject_Z fTempo in
  let Kb := inject_Z k in
  let N := lengthFramesOf fSampleRate fTempo (61440 * k) in
  let x := dadd (ddiv (dmul (bpmOf fTempo) (double_of_Z N))
                      (dmul (dmul (double_of_Z fSampleRate) (double_of_Z 60))
                            (double_of_Z 4)))
                (double_lit 1 (-1)) in
  finite_pos x /\ (Kb <= valueQ x < Kb + 1)%Q.
Proof.
  intros Hk HP Hsr Ht Hts Hlen Sr Tp Kb N x.
  destruct (whole_bars_sizes fSampleRate fTempo k Hk HP Hsr Ht Hts Hlen)
    as (HK & HS & HT & HTS & HSK & HSK2).
  fold Sr Tp Kb in HK, HS, HT, HTS, HSK, HSK2.
  destruct (whole_bars_frames fSampleRate fTempo k Hk HP Hsr Ht Hts Hlen)
    as (a2 & Na2 & NE & HE & HN1 & HN2 & HN).
  fold Sr Tp Kb in Na2, NE.
  fold N in HN1, HN2, HN.
  set (vE := valueQ (exactLen fSampleRate fTempo (61440 * k))) in *.
  clearbody vE.
  unfold INT_MAX in *.
  assert (HNq : (2 <= inject_Z N <= 2147483647)%Q).
  { change 2%Q with (inject_Z 2). change 2147483647%Q with (inject_Z 2147483647).
    rewrite <- !Zle_Qle. lia. }
  (* bpm *)
  destruct (integral_moderate _ _ (integral_of_Z fTempo ltac:(lia)) ltac:(lia))
    as [Mt Vt].
  destruct (integral_moderate _ _ (integral_of_Z 1000 ltac:(lia)) ltac:(lia))
    as [M1000 V1000].
  destruct (ddiv_err _ _ Mt M1000) as [Fb Nb].
  change (ddiv (double_of_Z fTempo) (double_of_Z 1000)) with (bpmOf fTempo) in Fb, Nb.
  set (bpm := bpmOf fTempo) in *.
  apply near_div_r in Nb; [|rewrite V1000; reflexivity].
  assert (Nb' : near (valueQ bpm * 1000) Tp).
  { refine (near_comp _ _ _ _ _ _ Nb); [|exact Vt].
    rewrite V1000. reflexivity. }
  assert (Mb : moderate bpm).
  { split; [exact Fb|]. unfold near in Nb'. split; lra. }
  (* bpm * lengthFrames *)
  destruct (integral_moderate _ _ (integral_of_Z N ltac:(lia)) ltac:(lia))
    as [MN VN].
  destruct (dmul_err _ _ Mb MN) as [Fp Np].
  set (pn := dmul bpm (double_of_Z N)) in *.
  assert (Np' : near (valueQ pn) (valueQ bpm * inject_Z N)).
  { refine (near_comp _ _ _ _ _ _ Np); [reflexivity|]. rewrite VN. reflexivity. }
  (* sampleRate * 60 * 4 *)
  pose proof (integral_mul _ _ _ _
                (integral_mul _ _ _ _ (integral_of_Z fSampleRate ltac:(lia))
                   (integral_of_Z 60 ltac:(lia)) ltac:(lia))
                (integral_of_Z 4 ltac:(lia)) ltac:(lia)) as Hd.
  destruct (integral_moderate _ _ Hd ltac:(lia)) as [Md Vd].
  set (den := dmul (dmul (double_of_Z fSampleRate) (double_of_Z 60)) (double_of_Z 4)) in *.
  assert (Vd' : (valueQ den == 240 * Sr)%Q).
  { rewrite Vd, !inject_Z_mult. unfold Sr.
    change (inject_Z 60) with 60%Q. change (inject_Z 4) with 4%Q. ring. }
  assert (Mp : moderate pn).
  { split; [exact Fp|]. unfold near in Np', Nb'.
    assert (0 <= (valueQ bpm - (1 # 2000)) * (inject_Z N - 2))%Q
      by (apply Qmult_le_0_compat; lra).
    assert (0 <= (4000000 - valueQ bpm) * inject_Z N)%Q
      by (apply Qmult_le_0_compat; lra).
    split; lra. }
  destruct (ddiv_err _ _ Mp Md) as [Fq Nq].
  set (q := ddiv pn den) in *.
  apply near_div_r in Nq; [|rewrite Vd'; lra].
  assert (Nq' : near (valueQ q * (240 * Sr)) (valueQ pn)).
  { refine (near_comp _ _ _ _ _ _ Nq); [|reflexivity]. rewrite Vd'. reflexivity. }
  pose proof (whole_bars_real Sr Tp Kb a2 vE (inject_Z N) (valueQ bpm) (valueQ pn)
                (valueQ q) HK ltac:(lra) ltac:(lra) HTS Na2 NE HE HN1 HN2
                Nb' Np' Nq') as [Hq1 Hq2].
  assert (Mq : moderate q) by (split; [exact Fq|split; lra]).
  destruct half_moderate as [Mh Vh].
  destruct (dadd_err _ _ Mq Mh) as [Fx Nx].
  change (dadd q (double_lit 1 (-1))) with x in Fx, Nx.
  split; [exact Fx|].
  unfold near in Nx. rewrite Vh in Nx. split; lra.
Qed.

(** X13.  A loop of [k] whole bars ([fPPQLength = 61440 * k]) whose tempo is
    at most [100000 * fSampleRate] thousandths of a beat per minute and
    whose length in frames fits an [int]: the frame count [main] rounds, and
    the bar count the constructor rounds from it, give back [k], so the trim
    length at offsets 27 and 31 is [25 * k]. *)
Theorem whole_bars_trim_len (fSampleRate fTempo k : Z) (bs : list (Z * Z)) :
  0 < k -> 61440 * k <= INT_MAX ->
  0 < fSampleRate <= INT_MAX -> 0 < fTempo <= INT_MAX ->
  fTempo <= 100000 * fSampleRate ->
  240000 * fSampleRate * k <= fTempo * INT_MAX ->
  let lengthFrames := lengthFramesOf fSampleRate fTempo (61440 * k) in
  let buf := encodeOT (bpmOf fTempo) fSampleRate lengthFrames bs in
  0 < lengthFrames <= INT_MAX
  /\ read32BE buf 27 = 25 * k /\ read32BE buf 31 = 25 * k.
Proof.
  intros Hk HP Hsr Ht Hts Hlen lengthFrames buf.
  destruct (whole_bars_frames fSampleRate fTempo k Hk HP Hsr Ht Hts Hlen)
    as (_ & _ & _ & _ & _ & _ & HN).
  destruct (whole_bars_sum fSampleRate fTempo k Hk HP Hsr Ht Hts Hlen)
    as [Fx [Hx1 Hx2]].
  fold lengthFrames in HN, Fx, Hx1, Hx2.
  split; [lia|].
  destruct (encodeOT_fields (bpmOf fTempo) fSampleRate lengthFrames bs)
    as (_ & E27 & E31 & _).
  fold buf in E27, E31. rewrite E27, E31, trim_len_new.
  set (x := dadd _ _) in *.
  assert (Hfl : Qfloor (valueQ x) = k).
  { apply Qfloor_unique; [exact Hx1|]. rewrite inject_Z_plus. exact Hx2. }
  assert (Hk0 : (0 < inject_Z k)%Q) by (apply inject_Z_pos; exact Hk).
  unfold INT_MAX in HP.
  rewrite floor_times_25.
  - rewrite Hfl. unfold uint32_t_of_Z. rewrite Z.mod_small by lia. lia.
  - destruct Fx as (m & e & ->). reflexivity.
  - lra.
  - rewrite Hfl. lia.
Qed.

Lemma whole_bars_trim_len_witness :
  0 < 2 /\ 61440 * 2 <= INT_MAX /\ 0 < 44100 <= INT_MAX /\ 0 < 93500 <= INT_MAX
  /\ 93500 <= 100000 * 44100 /\ 240000 * 44100 * 2 <= 93500 * INT_MAX
  /\ read32BE (encodeOT (bpmOf 93500) 44100
                 (lengthFramesOf 44100 93500 (61440 * 2)) []) 27 = 25 * 2.
Proof.
  assert (H1 : 0 < 2) by reflexivity.
  assert (H2 : 61440 * 2 <= INT_MAX) by discriminate.
  assert (H3 : 0 < 44100 <= INT_MAX) by (split; [reflexivity|discriminate]).
  assert (H4 : 0 < 93500 <= INT_MAX) by (split; [reflexivity|discriminate]).
  assert (H5 : 93500 <= 100000 * 44100) by discriminate.
  assert (H6 : 240000 * 44100 * 2 <= 93500 * INT_MAX) by discriminate.
  split; [exact H1|]. split; [exact H2|]. split; [exact H3|]. split; [exact H4|].
  split; [exact H5|]. split; [exact H6|].
  exact (proj1 (proj2 (whole_bars_trim_len 44100 93500 2 [] H1 H2 H3 H4 H5 H6))).
Defined.

(** ** The preview loop *)

Lemma no_batches (d : Z) : d <= 0 -> Z.to_nat ((d + 63) / 64) = 0%nat.
Proof.
  intros Hd. pose proof (Z.div_mod (d + 63) 64).
  pose proof (Z.mod_pos_bound (d + 63) 64). lia.
Qed.

(** The calls of the loop entered with [framesRendered]. *)
Lemma renderLoop_batches (fuel : nat) : forall lengthFrames framesRendered,
  lengthFrames - framesRendered <= 64 * Z.of_nat fuel ->
  renderLoop fuel lengthFrames framesRendered
  = Some (map (fun k => (framesRendered + 64 * Z.of_nat k,
                         Z.min 64 (lengthFrames - framesRendered - 64 * Z.of_nat k)))
              (seq 0 (Z.to_nat ((lengthFrames - framesRendered + 63) / 64)))).
Proof.
  induction fuel as [|fuel IH]; intros N f Hfuel.
  - simpl. destruct (Z.ltb_spec f N); [lia|].
    by rewrite no_batches by lia.
  - cbn [renderLoop]. destruct (Z.ltb_spec f N) as [Hlt|Hge].
    + set (m := (N - f + 63) / 64).
      assert (Hm : 64 * m <= N - f + 63 < 64 * m + 64).
      { unfold m. pose proof (Z.div_mod (N - f + 63) 64).
        pose proof (Z.mod_pos_bound (N - f + 63) 64). lia. }
      destruct (Z_lt_dec (N - f) 64) as [Hsmall|Hbig].
      * rewrite Z.min_r by lia. rewrite IH by lia.
        replace (N - (f + (N - f)) + 63) with 63 by lia.
        replace m with 1 by lia. simpl.
        rewrite Z.add_0_r, Z.sub_0_r, Z.min_r by lia. done.
      * rewrite Z.min_l by lia. rewrite IH by lia.
        replace ((N - (f + 64) + 63) / 64) with (m - 1).
        2:{ apply Z.div_unique with (r := (N - f + 63) mod 64).
            - left. apply Z.mod_pos_bound. lia.
            - pose proof (Z.div_mod (N - f + 63) 64). unfold m. lia. }
        replace (Z.to_nat m) with (S (Z.to_nat (m - 1))) by lia.
        cbn [seq map]. rewrite <- seq_shift, map_map.
        f_equal. f_equal.
        { f_equal; [lia|]. rewrite Z.min_l by lia. done. }
        apply map_ext. intros k. f_equal; [lia|f_equal; lia].
    + by rewrite no_batches by lia.
Qed.

Lemma renderCalls_batches lengthFrames :
  renderCalls lengthFrames
  = Some (map (fun k => (64 * Z.of_nat k,
                         Z.min 64 (lengthFrames - 64 * Z.of_nat k)))
              (seq 0 (Z.to_nat ((lengthFrames + 63) / 64)))).
Proof.
  unfold renderCalls. rewrite renderLoop_batches by lia.
  rewrite Z.sub_0_r. reflexivity.
Qed.

Lemma framesRenderedAfter_batches (n : nat) : forall lengthFrames f,
  0 <= lengthFrames - f -> Z.of_nat n = (lengthFrames - f + 63) / 64 ->
  framesRenderedAfter f
    (map (fun k => (f + 64 * Z.of_nat k,
                    Z.min 64 (lengthFrames - f - 64 * Z.of_nat k))) (seq 0 n))
  = lengthFrames.
Proof.
  unfold framesRenderedAfter.
  induction n as [|n IH]; intros N f HN Hn.
  - simpl. pose proof (Z.div_mod (N - f + 63) 64).
    pose proof (Z.mod_pos_bound (N - f + 63) 64). lia.
  - assert (Hm : 64 * Z.of_nat (S n) <= N - f + 63 < 64 * Z.of_nat (S n) + 64).
    { rewrite Hn. pose proof (Z.div_mod (N - f + 63) 64).
      pose proof (Z.mod_pos_bound (N - f + 63) 64). lia. }
    cbn [seq map fold_left snd]. rewrite <- seq_shift, map_map.
    destruct n as [|n].
    + simpl. lia.
    + etransitivity; [|apply (IH N (f + 64))].
      * change (Z.of_nat 0) with 0.
        rewrite Z.mul_0_r, Z.sub_0_r, Z.min_l by lia.
        f_equal. apply map_ext. intros k. f_equal; [lia|f_equal; lia].
      * lia.
      * apply Z.div_unique with (r := (N - f + 63) mod 64).
        -- left. apply Z.mod_pos_bound. lia.
        -- pose proof (Z.div_mod (N - f + 63) 64). rewrite <- Hn in *. lia.
Qed.

(** X14.  The preview loop ends for every frame count, after
    [ceil(lengthFrames / 64)] calls; call [k] renders at offset [64 * k],
    and when the loop is left [framesRendered] is [lengthFrames] (0 for a
    frame count that is not positive, where no call is made). *)
Theorem render_loop_total (lengthFrames : Z) :
  exists calls,
    renderCalls lengthFrames = Some calls
    /\ length calls = Z.to_nat ((lengthFrames + 63) / 64)
    /\ (forall k c, calls !! k = Some c ->
          c = (64 * Z.of_nat k, Z.min 64 (lengthFrames - 64 * Z.of_nat k)))
    /\ framesRenderedAfter 0 calls = Z.max 0 lengthFrames.
Proof.
  eexists. split; [apply renderCalls_batches|]. split; [|split].
  - by rewrite length_map, length_seq.
  - intros k c Hc. change (map ?f ?l) with (f <$> l) in Hc.
    rewrite list_lookup_fmap in Hc.
    destruct (seq 0 _ !! k) as [j|] eqn:Hj; [|done].
    apply lookup_seq in Hj as [-> _]. simpl in Hc. by injection Hc as <-.
  - destruct (Z_le_dec lengthFrames 0) as [Hle|Hgt].
    + rewrite no_batches by lia. simpl. lia.
    + rewrite Z.max_r by lia.
      etransitivity;
        [|apply (framesRenderedAfter_batches
                   (Z.to_nat ((lengthFrames + 63) / 64)) lengthFrames 0)].
      * f_equal. apply map_ext. intros k. f_equal. f_equal. lia.
      * lia.
      * rewrite Z.sub_0_r, Z2Nat.id; [done|]. apply Z.div_pos; lia.
Qed.

(** X15.  Every call of the preview loop renders between 1 and 64 frames
    and stays inside the render buffers: its offset is non-negative and its
    offset plus its frame count is at most [lengthFrames]. *)
Theorem render_loop_in_bounds (lengthFrames : Z) (calls : list (Z * Z)) :
  renderCalls lengthFrames = Some calls ->
  Forall (fun c => 0 <= fst c /\ 1 <= snd c <= 64
                   /\ fst c + snd c <= lengthFrames) calls.
Proof.
  rewrite renderCalls_batches. intros [= <-].
  apply Forall_forall. intros c Hc. apply list_elem_of_In in Hc.
  apply in_map_iff in Hc as (k & <- & Hk%in_seq). simpl.
  set (m := (lengthFrames + 63) / 64) in *.
  assert (Hm : 64 * m <= lengthFrames + 63 < 64 * m + 64).
  { unfold m. pose proof (Z.div_mod (lengthFrames + 63) 64).
    pose proof (Z.mod_pos_bound (lengthFrames + 63) 64). lia. }
  lia.
Qed.

Lemma render_loop_in_bounds_witness :
  renderCalls 200 = Some [(0, 64); (64, 64); (128, 64); (192, 8)]
  /\ Forall (fun c => 0 <= fst c /\ 1 <= snd c <= 64 /\ fst c + snd c <= 200)
            [(0, 64); (64, 64); (128, 64); (192, 8)].
Proof.
  assert (H : renderCalls 200 = Some [(0, 64); (64, 64); (128, 64); (192, 8)])
    by reflexivity.
  split; [exact H|].
  exact (render_loop_in_bounds 200 _ H).
Defined.

(** ** The command line *)

Lemma stringEq_true a b : stringEq a b = true <-> a = b.
Proof.
  unfold stringEq. destruct (List.list_eq_dec ascii_dec a b); split; congruence.
Qed.

Lemma stringEq_false a b : stringEq a b = false <-> a <> b.
Proof.
  unfold stringEq. destruct (List.list_eq_dec ascii_dec a b); split; congruence.
Qed.

(** The state of the argument loop after the arguments [l]. *)
Lemma parseArgs_fold (l : list (list ascii)) : forall st,
  let st' :=
    fold_left
      (fun st arg =>
         if stringEq arg (chars "-octa") then (true, snd st) else (fst st, arg))
      l st in
  (fst st' = true <-> fst st = true \/ In (chars "-octa") l)
  /\ ((Forall (fun a => a = chars "-octa") l /\ snd st' = snd st)
      \/ exists l1 l2, l = l1 ++ snd st' :: l2
           /\ snd st' <> chars "-octa"
           /\ Forall (fun a => a = chars "-octa") l2).
Proof.
  induction l as [|a l IH]; intros st; cbn [fold_left In].
  - split; [tauto|]. left. split; [constructor|done].
  - destruct (stringEq a (chars "-octa")) eqn:Ha.
    + apply stringEq_true in Ha. subst a.
      destruct (IH (true, snd st)) as [Hflag Hpath]. split.
      * rewrite Hflag. cbn [fst]. tauto.
      * destruct Hpath as [[Hall Hsame]|(l1 & l2 & Heq & Hne & Hall)].
        -- left. split; [by constructor|done].
        -- right. exists (chars "-octa" :: l1), l2.
           split; [simpl; f_equal; exact Heq|done].
    + apply stringEq_false in Ha.
      destruct (IH (fst st, a)) as [Hflag Hpath]. split.
      * rewrite Hflag. cbn [fst]. split; [tauto|].
        intros [H|[H|H]]; [tauto|congruence|tauto].
      * right. destruct Hpath as [[Hall Hsame]|(l1 & l2 & Heq & Hne & Hall)].
        -- exists [], l. cbn [snd] in Hsame. rewrite Hsame. done.
        -- exists (a :: l1), l2.
           split; [simpl; f_equal; exact Heq|done].
Qed.

(** X16.  The argument loop sets [useOcta] exactly when [-octa] is among the
    arguments after the program name, wherever it stands, and leaves in
    [rx2Path] the last argument that is not [-octa]: the empty string when
    there is none. *)
Theorem parseArgs_result (argv : list (list ascii)) :
  let args := drop 1 argv in
  (fst (parseArgs argv) = true <-> In (chars "-octa") args)
  /\ ((Forall (fun a => a = chars "-octa") args /\ snd (parseArgs argv) = [])
      \/ exists l1 l2, args = l1 ++ snd (parseArgs argv) :: l2
           /\ snd (parseArgs argv) <> chars "-octa"
           /\ Forall (fun a => a = chars "-octa") l2).
Proof.
  intros args. unfold parseArgs. fold args.
  destruct (parseArgs_fold args (false, [])) as [Hflag Hpath].
  split; [|exact Hpath].
  rewrite Hflag. simpl. split; [intros [H|H]; [done|exact H]|tauto].
Qed.

(** X17.  [main] goes on to run only with at least one argument and a
    non-empty path that is one of the arguments and is not [-octa]; with no
    argument, or with nothing but [-octa] arguments, it returns 1. *)
Theorem mainStart_cases (argv : list (list ascii)) :
  (forall useOcta rx2Path, mainStart argv = Run useOcta rx2Path ->
     (2 <= length argv)%nat /\ rx2Path <> [] /\ rx2Path <> chars "-octa"
     /\ In rx2Path (drop 1 argv)
     /\ (useOcta = true <-> In (chars "-octa") (drop 1 argv)))
  /\ ((length argv < 2)%nat -> mainStart argv = ExitUsage 1)
  /\ ((2 <= length argv)%nat ->
      Forall (fun a => a = chars "-octa") (drop 1 argv) ->
      mainStart argv = ExitNoInput 1).
Proof.
  destruct (parseArgs_result argv) as [Hflag Hpath].
  unfold mainStart.
  destruct (Nat.ltb_spec (length argv) 2) as [Hlt|Hge].
  { split; [discriminate|]. split; [done|lia]. }
  destruct (parseArgs argv) as [o p] eqn:Hp. simpl in Hflag, Hpath.
  split; [|split; [lia|]].
  - intros useOcta rx2Path Hrun.
    destruct p as [|c p]; [discriminate|]. injection Hrun as <- <-.
    destruct Hpath as [[_ Hnil]|(l1 & l2 & Heq & Hne & _)]; [discriminate|].
    split; [done|]. split; [done|]. split; [done|]. split; [|done].
    rewrite Heq. apply in_app_iff. right. by left.
  - intros _ Hall.
    destruct Hpath as [[_ ->]|(l1 & l2 & Heq & Hne & _)]; [done|].
    exfalso. apply Hne. rewrite Heq in Hall.
    apply Forall_app in Hall as [_ Hall]. by inversion Hall.
Qed.

Lemma argLoop_snd (l : list (list ascii)) : forall a b p,
  snd (fold_left
         (fun st arg =>
            if stringEq arg (chars "-octa") then (true, snd st) else (fst st, arg))
         l (a, p))
  = snd (fold_left
           (fun st arg =>
              if stringEq arg (chars "-octa") then (true, snd st) else (fst st, arg))
           l (b, p)).
Proof.
  induction l as [|x l IH]; intros a b p; cbn [fold_left fst snd]; [done|].
  destruct (stringEq x (chars "-octa")); [done|apply IH].
Qed.

Lemma argLoop_fst_true (l : list (list ascii)) : forall p,
  fst (fold_left
         (fun st arg =>
            if stringEq arg (chars "-octa") then (true, snd st) else (fst st, arg))
         l (true, p)) = true.
Proof.
  induction l as [|x l IH]; intros p; cbn [fold_left fst snd]; [done|].
  destruct (stringEq x (chars "-octa")); apply IH.
Qed.

(** X18.  Where [-octa] stands among the arguments does not matter, and
    giving it changes nothing but the flag: the path found is the one found
    without it. *)
Theorem octa_flag_anywhere (prog : list ascii) (l1 l2 : list (list ascii)) :
  parseArgs (prog :: l1 ++ chars "-octa" :: l2)
  = (true, snd (parseArgs (prog :: l1 ++ l2))).
Proof.
  unfold parseArgs.
  change (drop 1 (prog :: l1 ++ chars "-octa" :: l2)) with (l1 ++ chars "-octa" :: l2).
  change (drop 1 (prog :: l1 ++ l2)) with (l1 ++ l2).
  rewrite !fold_left_app. cbn [fold_left].
  change (stringEq (chars "-octa") (chars "-octa")) with true. cbv iota.
  match goal with
  | |- fold_left ?f l2 (true, snd ?st) = _ =>
      rewrite (surjective_pairing (fold_left f l2 (true, snd st)));
      rewrite (argLoop_fst_true l2 (snd st));
      rewrite (argLoop_snd l2 true (fst st) (snd st));
      rewrite <- (surjective_pairing st)
  end.
  done.
Qed.

(** ** Paths *)

Lemma find_last_of_None s set :
  find_last_of s set = None <-> noneIn set s.
Proof.
  unfold noneIn. induction s as [|c s IH]; simpl.
  - split; [constructor|done].
  - destruct (find_last_of s set) as [i|].
    + split; [done|]. intros H. inversion H as [|? ? _ Hs]; subst.
      apply IH in Hs. discriminate.
    + destruct (charIn c set) eqn:Hc.
      * split; [done|]. intros H. inversion H; subst. congruence.
      * split; [|done]. intros _. constructor; [done|]. by apply IH.
Qed.

Lemma find_last_of_Some s set : forall i,
  find_last_of s set = Some i ->
  exists c, s = take i s ++ c :: drop (S i) s
            /\ charIn c set = true /\ noneIn set (drop (S i) s).
Proof.
  induction s as [|c s IH]; intros i; simpl; [done|].
  destruct (find_last_of s set) as [j|] eqn:Hj.
  - intros [= <-]. destruct (IH j eq_refl) as (c' & Heq & Hc' & Hrest).
    exists c'. simpl. split; [by f_equal|done].
  - destruct (charIn c set) eqn:Hc; [|done].
    intros [= <-]. exists c. simpl. rewrite drop_0.
    split; [done|]. split; [done|]. by apply find_last_of_None.
Qed.

Lemma find_last_of_app s1 c s2 set :
  charIn c set = true -> noneIn set s2 ->
  find_last_of (s1 ++ c :: s2) set = Some (length s1).
Proof.
  intros Hc Hs2. apply find_last_of_None in Hs2.
  induction s1 as [|d s1 IH]; simpl.
  - by rewrite Hs2, Hc.
  - by rewrite IH.
Qed.

Lemma noneIn_app set s1 s2 : noneIn set (s1 ++ s2) <-> noneIn set s1 /\ noneIn set s2.
Proof. apply Forall_app. Qed.

Lemma noneIn_take set s n : noneIn set s -> noneIn set (take n s).
Proof. apply Forall_take. Qed.

Lemma fileOf_no_separator path : noneIn [backslash; slash] (fileOf path).
Proof.
  unfold fileOf.
  destruct (find_last_of path [backslash; slash]) as [i|] eqn:Hi.
  - destruct (find_last_of_Some _ _ _ Hi) as (c & _ & _ & Hrest).
    by rewrite Nat.add_1_r.
  - by apply find_last_of_None.
Qed.

(** X19.  [DerivePaths] splits a path at its last slash or backslash: the
    file part holds no separator, and the path is its directory part, that
    separator and its file part.  A path with no separator is all file, and
    its directory is [.]. *)
Theorem path_split (path : list ascii) :
  noneIn [backslash; slash] (fileOf path)
  /\ ((noneIn [backslash; slash] path
       /\ dirOf path = chars "." /\ fileOf path = path)
      \/ exists sep, (sep = slash \/ sep = backslash)
           /\ path = dirOf path ++ sep :: fileOf path).
Proof.
  split; [apply fileOf_no_separator|].
  unfold dirOf, fileOf.
  destruct (find_last_of path [backslash; slash]) as [i|] eqn:Hi.
  - right. destruct (find_last_of_Some _ _ _ Hi) as (c & Heq & Hc & _).
    exists c. rewrite Nat.add_1_r. split; [|exact Heq].
    unfold charIn in Hc. simpl in Hc.
    destruct (Ascii.eqb_spec c backslash); [by right|].
    destruct (Ascii.eqb_spec c slash); [by left|done].
  - left. split; [by apply find_last_of_None|done].
Qed.

Lemma baseName_split fileWithExt :
  let base :=
    match find_last_of fileWithExt [dot] with
    | None => fileWithExt
    | Some last_dot => take last_dot fileWithExt
    end in
  (fileWithExt = base /\ noneIn [dot] base)
  \/ exists ext, fileWithExt = base ++ dot :: ext /\ noneIn [dot] ext.
Proof.
  destruct (find_last_of fileWithExt [dot]) as [i|] eqn:Hi; simpl.
  - right. destruct (find_last_of_Some _ _ _ Hi) as (c & Heq & Hc & Hrest).
    exists (drop (S i) fileWithExt). split; [|done].
    unfold charIn in Hc. simpl in Hc.
    destruct (Ascii.eqb_spec c dot); [|done]. by subst c.
  - left. split; [done|]. by apply find_last_of_None.
Qed.

(** X20.  The base name is the file part of the input path up to its last
    dot: either the file part has no dot and is the base name, or it is the
    base name, a dot and an extension without a dot.  The base name holds
    no slash or backslash. *)
Theorem baseName_extension (inputPath : list ascii) (useOcta : bool) :
  let base := baseName (fst (DerivePaths inputPath useOcta)) in
  noneIn [backslash; slash] base
  /\ ((fileOf inputPath = base /\ noneIn [dot] base)
      \/ exists ext, fileOf inputPath = base ++ dot :: ext /\ noneIn [dot] ext).
Proof.
  assert (Hbase : baseName (fst (DerivePaths inputPath useOcta))
    = match find_last_of (fileOf inputPath) [dot] with
      | None => fileOf inputPath
      | Some last_dot => take last_dot (fileOf inputPath)
      end).
  { unfold DerivePaths. by destruct useOcta. }
  cbv zeta. rewrite Hbase. split.
  - pose proof (fileOf_no_separator inputPath) as H.
    destruct (find_last_of (fileOf inputPath) [dot]); [|done].
    by apply noneIn_take.
  - apply baseName_split.
Qed.

Lemma split_join dir file :
  noneIn [backslash; slash] file ->
  dirOf (dir ++ chars "/" ++ file) = dir
  /\ fileOf (dir ++ chars "/" ++ file) = file.
Proof.
  intros Hfile. unfold dirOf, fileOf.
  change (chars "/" ++ file) with (slash :: file).
  rewrite find_last_of_app by done.
  split.
  - by rewrite take_app_length.
  - rewrite Nat.add_1_r.
    change (dir ++ slash :: file) with (dir ++ [slash] ++ file).
    rewrite app_assoc, drop_app_length'; [done|].
    rewrite length_app. simpl. lia.
Qed.

Lemma DerivePaths_fields inputPath useOcta :
  let dir := dirOf inputPath in
  let base := baseName (fst (DerivePaths inputPath useOcta)) in
  wavPath (fst (DerivePaths inputPath useOcta))
  = dir ++ chars "/" ++ base ++ chars ".wav"
  /\ metaPath (fst (DerivePaths inputPath useOcta))
     = (if useOcta then dir ++ chars "/" ++ base ++ chars ".ot"
        else (dir ++ chars "/.slices") ++ chars "/" ++ base ++ chars ".slices")
  /\ snd (DerivePaths inputPath useOcta)
     = (if useOcta then [] else [dir ++ chars "/.slices"]).
Proof. unfold DerivePaths. by destruct useOcta. Qed.

Lemma noneIn_sep_suffix base (suffix : list ascii) :
  noneIn [backslash; slash] base ->
  forallb (fun c => negb (charIn c [backslash; slash])) suffix = true ->
  noneIn [backslash; slash] (base ++ suffix).
Proof.
  intros Hbase Hsuf. apply noneIn_app. split; [done|].
  unfold noneIn. apply Forall_forall. intros c Hc%list_elem_of_In.
  rewrite forallb_forall in Hsuf. apply Hsuf in Hc.
  by destruct (charIn c [backslash; slash]).
Qed.

Lemma baseName_no_separator inputPath useOcta :
  noneIn [backslash; slash] (baseName (fst (DerivePaths inputPath useOcta))).
Proof.
  assert (Hbase : baseName (fst (DerivePaths inputPath useOcta))
    = match find_last_of (fileOf inputPath) [dot] with
      | None => fileOf inputPath
      | Some last_dot => take last_dot (fileOf inputPath)
      end).
  { unfold DerivePaths. by destruct useOcta. }
  rewrite Hbase. pose proof (fileOf_no_separator inputPath) as H.
  destruct (find_last_of (fileOf inputPath) [dot]); [|done].
  by apply noneIn_take.
Qed.

Lemma wavPath_split inputPath useOcta :
  let r := fst (DerivePaths inputPath useOcta) in
  dirOf (wavPath r) = dirOf inputPath
  /\ fileOf (wavPath r) = baseName r ++ chars ".wav".
Proof.
  intros r.
  destruct (DerivePaths_fields inputPath useOcta) as (Hwav & _ & _).
  fold r in Hwav.
  pose proof (baseName_no_separator inputPath useOcta) as Hbase. fold r in Hbase.
  assert (Hfile : noneIn [backslash; slash] (baseName r ++ chars ".wav"))
    by (by apply noneIn_sep_suffix).
  destruct (split_join (dirOf inputPath) _ Hfile) as [Hdir Hfil].
  rewrite <- Hwav in Hdir, Hfil. done.
Qed.

(** X21.  The audio file lands in the directory of the input, under the
    base name with the extension [.wav]; and deriving the paths again from
    the path of the audio file gives the same paths. *)
Theorem wavPath_placement (inputPath : list ascii) (useOcta : bool) :
  let r := fst (DerivePaths inputPath useOcta) in
  dirOf (wavPath r) = dirOf inputPath
  /\ fileOf (wavPath r) = baseName r ++ chars ".wav"
  /\ fst (DerivePaths (wavPath r) useOcta) = r.
Proof.
  intros r.
  destruct (DerivePaths_fields inputPath useOcta) as (Hwav & Hmeta & _).
  fold r in Hwav, Hmeta.
  destruct (wavPath_split inputPath useOcta) as [Hdir Hfil].
  fold r in Hdir, Hfil.
  split; [done|]. split; [done|].
  assert (Hb : baseName (fst (DerivePaths (wavPath r) useOcta)) = baseName r).
  { assert (Hb0 : baseName (fst (DerivePaths (wavPath r) useOcta))
      = match find_last_of (fileOf (wavPath r)) [dot] with
        | None => fileOf (wavPath r)
        | Some last_dot => take last_dot (fileOf (wavPath r))
        end).
    { unfold DerivePaths. by destruct useOcta. }
    rewrite Hb0, Hfil.
    change (chars ".wav") with (dot :: chars "wav").
    rewrite find_last_of_app; [by rewrite take_app_length|done|].
    unfold noneIn. by repeat constructor. }
  destruct (DerivePaths_fields (wavPath r) useOcta) as (Hwav' & Hmeta' & _).
  rewrite Hb, Hdir in Hwav', Hmeta'.
  destruct (fst (DerivePaths (wavPath r) useOcta)) as [b' w' m'],
    r as [b w m].
  simpl in *. congruence.
Qed.

(** X22.  With [-octa] the metadata file is written beside the audio file,
    under the base name with the extension [.ot], and no directory is
    created.  Without it the file goes under the base name with the
    extension [.slices] into the directory [.slices] of the input's
    directory, and that directory is the one, and the only one, passed to
    [mkdir]. *)
Theorem metaPath_placement (inputPath : list ascii) (useOcta : bool) :
  let r := fst (DerivePaths inputPath useOcta) in
  let made := snd (DerivePaths inputPath useOcta) in
  if useOcta then
    made = [] /\ dirOf (metaPath r) = dirOf inputPath
    /\ fileOf (metaPath r) = baseName r ++ chars ".ot"
  else
    made = [dirOf (metaPath r)]
    /\ dirOf (metaPath r) = dirOf inputPath ++ chars "/.slices"
    /\ fileOf (metaPath r) = baseName r ++ chars ".slices".
Proof.
  intros r made.
  destruct (DerivePaths_fields inputPath useOcta) as (_ & Hmeta & Hmade).
  pose proof (baseName_no_separator inputPath useOcta) as Hbase.
  fold r in Hmeta, Hbase. fold made in Hmade.
  destruct useOcta.
  - assert (Hfile : noneIn [backslash; slash] (baseName r ++ chars ".ot"))
      by (by apply noneIn_sep_suffix).
    destruct (split_join (dirOf inputPath) _ Hfile) as [Hdir Hfil].
    rewrite <- Hmeta in Hdir, Hfil. done.
  - assert (Hfile : noneIn [backslash; slash] (baseName r ++ chars ".slices"))
      by (by apply noneIn_sep_suffix).
    destruct (split_join (dirOf inputPath ++ chars "/.slices") _ Hfile)
      as [Hdir Hfil].
    rewrite <- Hmeta in Hdir, Hfil. by rewrite Hdir.
Qed.

(** X23.  The [filename] attribute that opens the XML document is the file
    part of the path the audio was written to. *)
Theorem xml_names_the_wav (inputPath : list ascii) :
  let r := fst (DerivePaths inputPath false) in
  xmlOpen (string_of_list_ascii (baseName r))
  = chars "<audio filename=" ++ [dquote] ++ fileOf (wavPath r)
    ++ [dquote] ++ chars ">" ++ [newline].
Proof.
  intros r. destruct (wavPath_split inputPath false) as (_ & Hfile).
  fold r in Hfile. rewrite Hfile. unfold xmlOpen, chars at 2.
  rewrite list_ascii_of_string_of_list_ascii. by rewrite <- !app_assoc.
Qed.

Example DerivePaths_demo :
  DerivePaths (chars "/a/b.c/loop.v2.rx2") false
  = (mkFilePaths (chars "loop.v2") (chars "/a/b.c/loop.v2.wav")
       (chars "/a/b.c/.slices/loop.v2.slices"), [chars "/a/b.c/.slices"])
  /\ DerivePaths (chars "loop") true
     = (mkFilePaths (chars "loop") (chars "./loop.wav") (chars "./loop.ot"), []).
Proof. split; reflexivity. Qed.

